(** * StereoMatcher of aslam_cv_matcher: window queries, descriptor scoring
      and exclusive frame-to-frame assignment

    Source: [aslam_cv_matcher/include/aslam/matcher/stereo-matcher.h].
    Numbers are modelled as the machine has them: [int] and [uint32_t] as
    integers with their wrap-around written out, [double] and [float] as
    IEEE-754 binary64 and binary32 values ([spec_float] with the rounding
    operations of the Standard Library's [SpecFloat]). *)

From Stdlib Require Import ZArith QArith Qabs Lia Bool List SpecFloat.
From stdpp Require Import gmap list sorting.
Local Open Scope Z_scope.

(** ** Outcomes of a call *)

(** A call returns, is aborted by a failed glog [CHECK_*], or runs into
    behaviour that C++ leaves undefined. *)
Inductive outcome (A : Type) : Type :=
| Ok (a : A)
| CheckFailed
| Undefined.
Arguments Ok {A} a.
Arguments CheckFailed {A}.
Arguments Undefined {A}.

#[global] Instance outcome_ret : MRet outcome := fun A a => Ok a.
#[global] Instance outcome_bind : MBind outcome := fun A B f m =>
  match m with
  | Ok a => f a
  | CheckFailed => CheckFailed
  | Undefined => Undefined
  end.

(** ** Machine integers *)

Definition INT_MIN : Z := - 2 ^ 31.
Definition INT_MAX : Z := 2 ^ 31 - 1.

(** Value of an integer expression evaluated in [uint32_t]. *)
Definition to_uint32 (z : Z) : Z := z mod 2 ^ 32.

(** Conversion to [int] of a value that may not fit (modular). *)
Definition int_of_uint32 (z : Z) : Z := (z + 2 ^ 31) mod 2 ^ 32 - 2 ^ 31.

(** ** IEEE-754 numbers *)

(** Finite or zero. *)
Definition is_finite (x : spec_float) : bool :=
  match x with
  | S754_finite _ _ _ | S754_zero _ => true
  | _ => false
  end.

(** Exact rational value of a finite number (0 for the others). *)
Definition B2Q (x : spec_float) : Q :=
  match x with
  | S754_finite s m e =>
      if 0 <=? e then inject_Z (cond_Zopp s (Z.pos m * 2 ^ e))
      else Qmake (cond_Zopp s (Z.pos m)) (Z.to_pos (2 ^ (- e)))
  | _ => 0%Q
  end.

(** Integer part, rounding toward zero. *)
Definition trunc (x : spec_float) : option Z :=
  match x with
  | S754_zero _ => Some 0
  | S754_finite s m e =>
      Some (cond_Zopp s (if 0 <=? e then Z.pos m * 2 ^ e else Z.pos m / 2 ^ (- e)))
  | _ => None
  end.

Module Double.
Definition prec : Z := 53.
Definition emax : Z := 1024.
Definition valid (x : spec_float) : Prop := valid_binary prec emax x = true.
Definition add : spec_float -> spec_float -> spec_float := SFadd prec emax.
Definition sub : spec_float -> spec_float -> spec_float := SFsub prec emax.
Definition div : spec_float -> spec_float -> spec_float := SFdiv prec emax.
Definition ltb : spec_float -> spec_float -> bool := SFltb.
Definition leb : spec_float -> spec_float -> bool := SFleb.
(** Conversion of an integer ([int], [unsigned int]) to [double]. *)
Definition of_Z (z : Z) : spec_float := binary_normalize prec emax z 0 false.
(** Conversion of a [float] to [double] (exact). *)
Definition of_float (x : spec_float) : spec_float :=
  match x with
  | S754_finite s m e => binary_normalize prec emax (cond_Zopp s (Z.pos m)) e false
  | _ => x
  end.
(** [static_cast<int>]: truncation; undefined when the integer part does not
    fit an [int] (and for infinities and NaN). *)
Definition to_int (x : spec_float) : option Z :=
  match trunc x with
  | Some z => if (INT_MIN <=? z) && (z <=? INT_MAX) then Some z else None
  | None => None
  end.
Definition zero : spec_float := S754_zero false.
Definition one : spec_float := Eval vm_compute in of_Z 1.
Definition half : spec_float := Eval vm_compute in div (of_Z 1) (of_Z 2).
End Double.

Module Float.
Definition prec : Z := 24.
Definition emax : Z := 128.
Definition div : spec_float -> spec_float -> spec_float := SFdiv prec emax.
Definition ltb : spec_float -> spec_float -> bool := SFltb.
(** Conversion of an [unsigned int] to [float] (rounds above [2 ^ 24]). *)
Definition of_Z (z : Z) : spec_float := binary_normalize prec emax z 0 false.
(** The [float] literal for the decimal fraction [n / d]. *)
Definition literal (n d : Z) : spec_float := div (of_Z n) (of_Z d).
End Float.

(** ** Round-to-nearest-even on integers (used to specify the operations) *)

(** Fractional part [r / t] of a truncated mantissa, as a rounding location. *)
Definition loc_frac (r t : Z) : location :=
  if r =? 0 then loc_Exact else loc_Inexact (2 * r ?= t).

(** Increment chosen by round-to-nearest-even for quotient [q] and remainder
    [r] out of [t]. *)
Definition rne_bit (q r t : Z) : Z :=
  match 2 * r ?= t with
  | Lt => 0
  | Eq => if Z.even q then 0 else 1
  | Gt => 1
  end.

(** Final step of [binary_round_aux]: classification of mantissa and exponent. *)
Definition bra_result (prec emax : Z) (s : bool) (m3 e3 : Z) : spec_float :=
  match m3 with
  | 0 => S754_zero s
  | Z.pos m => if e3 <=? emax - prec then S754_finite s m e3 else S754_infinity s
  | Z.neg _ => S754_nan
  end.

(** A natural number rounded to [prec] significant bits, ties to even. *)
Definition RN (prec n : Z) : Z :=
  let K := Z.max 0 (Z.log2 n + 1 - prec) in
  (n / 2 ^ K + rne_bit (n / 2 ^ K) (n mod 2 ^ K) (2 ^ K)) * 2 ^ K.

Definition RNs (prec z : Z) : Z :=
  if z <? 0 then - RN prec (- z) else RN prec z.

(** Value of a number in units of [2 ^ emin] (an integer for every number of
    the format), and the shape of the numbers of the format. *)
Definition B2Z (prec emax : Z) (x : spec_float) : Z :=
  match x with
  | S754_finite s m e => cond_Zopp s (Z.pos m * 2 ^ (e - emin prec emax))
  | _ => 0
  end.

Definition wfF (prec emax : Z) (x : spec_float) : Prop :=
  match x with
  | S754_finite _ m e => emin prec emax <= e /\ Z.pos m < 2 ^ prec
  | _ => True
  end.

(** ** The code of stereo-matcher.h *)

(** [struct KeypointData]: pixel measurement (x, y) and descriptor channel. *)
Record KeypointData := {
  measurement : spec_float * spec_float;
  channel_index : Z
}.

(** [KeyPointIterator]: a const iterator into the vector of frame-1 keypoints
    sorted by y, as its offset from [begin()]. *)
Definition KeyPointIterator : Type := Z.

(** [struct MatchData]. *)
Record MatchData := {
  keypoint_match_candidates_frame1 : list KeyPointIterator;
  match_candidate_matching_scores : list spec_float
}.

Definition MatchData_default : MatchData :=
  {| keypoint_match_candidates_frame1 := [];
     match_candidate_matching_scores := [] |}.

(** [MatchData::addCandidate]. *)
Definition addCandidate (md : MatchData)
    (keypoint_iterator_frame1 : KeyPointIterator) (matching_score : spec_float)
    : outcome MatchData :=
  if negb (Double.ltb Double.zero matching_score) then CheckFailed   (* CHECK_GT(matching_score, 0.0) *)
  else if negb (Double.leb matching_score Double.one) then CheckFailed (* CHECK_LE(matching_score, 1.0) *)
  else Ok {| keypoint_match_candidates_frame1 :=
               keypoint_match_candidates_frame1 md ++ [keypoint_iterator_frame1];
             match_candidate_matching_scores :=
               match_candidate_matching_scores md ++ [matching_score] |}.

(** Constants of the class. *)
Definition kMatchingThresholdBitsRatioRelaxed : spec_float :=
  Eval vm_compute in Float.literal 8 10.       (* 0.8f *)
Definition kMatchingThresholdBitsRatioStrict : spec_float :=
  Eval vm_compute in Float.literal 85 100.     (* 0.85f *)
Definition kLoweRatio : spec_float :=
  Eval vm_compute in Float.literal 8 10.       (* 0.8f *)
Definition kMaxNumInferiorIterations : nat := 3.

(** [StereoMatcher::clamp]. *)
Definition clamp (lower upper in_ : Z) : Z := Z.min (Z.max in_ lower) upper.

(** [StereoMatcher::computeMatchingScore]:
    [static_cast<double>(num_matching_bits) / descriptor_size_bits].
    [num_matching_bits] is an [int], a value between [INT_MIN] and [INT_MAX]
    (a larger unsigned count passed for it is converted first, see
    [int_of_uint32]); [descriptor_size_bits] is an [unsigned int]. *)
Definition computeMatchingScore (num_matching_bits descriptor_size_bits : Z)
    : spec_float :=
  Double.div (Double.of_Z num_matching_bits) (Double.of_Z descriptor_size_bits).

(** [StereoMatcher::ratioTest]. The division is a [float] division: the
    [unsigned int] numerator is converted to [float]. *)
Definition ratioTest
    (descriptor_size_bits distance_closest distance_second_closest : Z)
    : outcome bool :=
  if negb (distance_closest <=? distance_second_closest) then CheckFailed
  else if descriptor_size_bits <? distance_second_closest then Ok true
  else if distance_second_closest =? 0 then Ok true
  else Ok (Float.ltb (Float.div (Float.of_Z distance_closest)
                                (Float.of_Z distance_second_closest))
                     kLoweRatio).

(** A row lookup table is monotonically non-decreasing. *)
Fixpoint nondecreasing (l : list Z) : bool :=
  match l with
  | a :: (b :: _) as rest => (a <=? b) && nondecreasing rest
  | _ => true
  end.

(** Element [i] of [corner_row_LUT_]; reading outside the vector is undefined. *)
Definition lut_at (corner_row_LUT_ : list Z) (i : Z) : option Z :=
  if i <? 0 then None else corner_row_LUT_ !! Z.to_nat i.

(** The two row indices computed by [getKeypointIteratorsInWindow]:
    [clamp(0, kImageHeight - 1, static_cast<int>(y + 0.5 -/+ w))], where
    [kImageHeight - 1] is evaluated in [uint32_t] and converted to the [int]
    parameter [upper] of [clamp]. [None]: a conversion to [int] is undefined. *)
Definition LUT_indices (kImageHeight : Z)
    (predicted_keypoint_position : spec_float * spec_float)
    (window_half_side_length_px : Z) : option (Z * Z) :=
  let y := snd predicted_keypoint_position in
  let w := Double.of_Z window_half_side_length_px in
  let upper := int_of_uint32 (to_uint32 (kImageHeight - 1)) in
  match Double.to_int (Double.sub (Double.add y Double.half) w),
        Double.to_int (Double.add (Double.add y Double.half) w) with
  | Some row_top, Some row_bottom =>
      Some (clamp 0 upper row_top, clamp 0 upper row_bottom)
  | _, _ => None
  end.

(** [StereoMatcher::getKeypointIteratorsInWindow]. The members [kImageHeight]
    and [corner_row_LUT_] (used by the function, its declaration is not in
    the header) are arguments; the two output iterators are returned as
    offsets into the sorted keypoint vector. The output pointers are never
    null here, so the two [CHECK_NOTNULL] pass. *)
Definition getKeypointIteratorsInWindow (kImageHeight : Z)
    (corner_row_LUT_ : list Z)
    (predicted_keypoint_position : spec_float * spec_float)
    (window_half_side_length_px : Z) : outcome (KeyPointIterator * KeyPointIterator) :=
  if negb (0 <? window_half_side_length_px) then CheckFailed
  else
    match LUT_indices kImageHeight predicted_keypoint_position
            window_half_side_length_px with
    | None => Undefined
    | Some (LUT_index_top, LUT_index_bottom) =>
        match lut_at corner_row_LUT_ LUT_index_top,
              lut_at corner_row_LUT_ LUT_index_bottom with
        | Some it_keypoints_begin, Some it_keypoints_end =>
            if negb (LUT_index_top <=? LUT_index_bottom) then CheckFailed
            else if negb (0 <=? LUT_index_bottom) then CheckFailed
            else if negb (0 <=? LUT_index_top) then CheckFailed
            else if negb (to_uint32 LUT_index_top <? kImageHeight) then CheckFailed
            else if negb (to_uint32 LUT_index_bottom <? kImageHeight) then CheckFailed
            else Ok (it_keypoints_begin, it_keypoints_end)
        | _, _ => Undefined
        end
    end.


(** Modelled from the spec: the types of the constructor's arguments are
    declared outside the header. A stereo pair names its first camera, a
    camera rig gives its cameras by index, a camera has an image height
    ("imageHeight() -> unsigned int"). A [shared_ptr] is the object it points
    to, or null. *)
Record StereoPairIdentifier := { first_camera_id : Z }.
Record Camera := { imageHeight : Z }.
Definition NCamera : Type := list Camera.
Definition NCameraConstPtr : Type := option NCamera.

Definition getCameraShared (rig : NCamera) (camera_index : Z) : option Camera :=
  if camera_index <? 0 then None else rig !! Z.to_nat camera_index.

(** The configuration members of [class StereoMatcher]. *)
Record StereoMatcher := {
  stereo_pair_ : StereoPairIdentifier;
  camera_rig_ : NCameraConstPtr;
  kImageHeight : Z
}.

(** [StereoMatcher::StereoMatcher]. The member initialisers run in declaration
    order. The second one is [camera_rig_(camera_rig_)]: it copies the member
    from itself, that is, from the contents its storage has before
    initialisation, given here as [camera_rig_storage]; the parameter
    [camera_rig] is not read. The third one dereferences the member. *)
Definition StereoMatcher_new (stereo_pair : StereoPairIdentifier)
    (camera_rig : NCameraConstPtr) (camera_rig_storage : NCameraConstPtr)
    : outcome StereoMatcher :=
  let stereo_pair_0 := stereo_pair in
  let camera_rig_0 := camera_rig_storage in
  match camera_rig_0 with
  | None => Undefined
  | Some rig =>
      match getCameraShared rig (first_camera_id stereo_pair) with
      | None => Undefined
      | Some camera =>
          Ok {| stereo_pair_ := stereo_pair_0;
                camera_rig_ := camera_rig_0;
                kImageHeight := imageHeight camera |}
      end
  end.

(** ** The matching pass and the inferior-match rounds *)

(** Modelled from the spec: an element of [StereoMatchesWithScore] (declared
    in match.h, outside the header), "Match (output): finalized (frame-A
    index, frame-B index, score)". *)
Record StereoMatchWithScore := {
  idx_frame0 : Z;
  idx_frame1 : Z;
  match_score : spec_float
}.

(** The per-call members of the class, as the header declares them. An entry
    of [frame1_idx_to_matches_iterator_map_] designates a match of the output
    vector; it is kept here as the frame-0 index and the score of that match
    ("mapping from frame-B index to the currently winning frame-A index"). *)
Record MatcherState := {
  frame1_idx_to_matches_iterator_map_ : gmap Z (Z * spec_float);
  idx_frame0_to_attempted_match_data_map_ : gmap Z MatchData;
  inferior_match_keypoint_idx_frame0_ : list Z
}.

(** Modelled from the spec: "All per-call mutable state (assignment table,
    inferior set, match-data map) is freshly initialized at the start of each
    match invocation". *)
Definition MatcherState_reset : MatcherState :=
  {| frame1_idx_to_matches_iterator_map_ := ∅;
     idx_frame0_to_attempted_match_data_map_ := ∅;
     inferior_match_keypoint_idx_frame0_ := [] |}.

(** Modelled from the spec: the outcome of candidate generation and scoring
    (sections 4.2 and 4.3) for one frame-0 keypoint is data here. A candidate
    is the frame-1 keypoint tried, its matching score, and whether it passed
    both the threshold test and the ratio test ("Only candidates passing both
    tests are eligible to be assigned"). *)
Definition Candidate : Type := KeyPointIterator * spec_float * bool.

(** [it->channel_index] for an iterator into the sorted keypoint vector;
    dereferencing outside the vector is undefined. *)
Definition channel_index_at (keypoints_frame1_sorted_by_y_ : list KeypointData)
    (it : KeyPointIterator) : option Z :=
  if it <? 0 then None
  else channel_index <$> keypoints_frame1_sorted_by_y_ !! Z.to_nat it.

(** Modelled from the spec: the bodies of [matchKeypoint],
    [matchInferiorMatches] and [match] are not in the header (the .cc file is
    missing). Every candidate tried is recorded with [addCandidate]
    ("MatchData: per frame-A keypoint, the ordered list of all frame-B
    candidates tried and their scores during the first pass"). *)
Fixpoint recordCandidates (tried : list Candidate) (md : MatchData)
    : outcome MatchData :=
  match tried with
  | [] => Ok md
  | (it, matching_score, _) :: rest =>
      md' ← addCandidate md it matching_score; recordCandidates rest md'
  end.

(** Modelled from the spec: the body of [matchKeypoint] is missing; "pick the
    highest-scoring" candidate: a later candidate replaces the best one only
    with a strictly higher score. *)
Definition pickBetter (best : option (Z * spec_float)) (j : Z) (s : spec_float)
    : option (Z * spec_float) :=
  match best with
  | None => Some (j, s)
  | Some (_, s_best) => if Double.ltb s_best s then Some (j, s) else best
  end.

(** Modelled from the spec: the body of [matchKeypoint] is missing; section
    4.4, "pick the highest-scoring eligible candidate j*", as its frame-1
    index and score. *)
Fixpoint highestScoringEligible (keypoints_frame1_sorted_by_y_ : list KeypointData)
    (tried : list Candidate) (best : option (Z * spec_float))
    : outcome (option (Z * spec_float)) :=
  match tried with
  | [] => Ok best
  | (it, s, passed) :: rest =>
      if passed then
        match channel_index_at keypoints_frame1_sorted_by_y_ it with
        | None => Undefined
        | Some j =>
            highestScoringEligible keypoints_frame1_sorted_by_y_ rest
              (pickBetter best j s)
        end
      else highestScoringEligible keypoints_frame1_sorted_by_y_ rest best
  end.

(** Modelled from the spec: the body of [matchKeypoint] is missing; section
    4.4, "If frame-B index j* currently has no
    assignment or its current score is lower than the new candidate's score,
    install the new assignment and, if an incumbent existed, push the
    incumbent's frame-A index into the inferior set. If the current
    assignment at j* has an equal or higher score, the new keypoint itself is
    pushed into the inferior set instead." *)
Definition installAssignment (st : MatcherState) (idx_k j : Z) (s : spec_float)
    : MatcherState :=
  match frame1_idx_to_matches_iterator_map_ st !! j with
  | None =>
      {| frame1_idx_to_matches_iterator_map_ :=
           <[j := (idx_k, s)]> (frame1_idx_to_matches_iterator_map_ st);
         idx_frame0_to_attempted_match_data_map_ :=
           idx_frame0_to_attempted_match_data_map_ st;
         inferior_match_keypoint_idx_frame0_ :=
           inferior_match_keypoint_idx_frame0_ st |}
  | Some (incumbent, current) =>
      if Double.ltb current s then
        {| frame1_idx_to_matches_iterator_map_ :=
             <[j := (idx_k, s)]> (frame1_idx_to_matches_iterator_map_ st);
           idx_frame0_to_attempted_match_data_map_ :=
             idx_frame0_to_attempted_match_data_map_ st;
           inferior_match_keypoint_idx_frame0_ :=
             inferior_match_keypoint_idx_frame0_ st ++ [incumbent] |}
      else
        {| frame1_idx_to_matches_iterator_map_ :=
             frame1_idx_to_matches_iterator_map_ st;
           idx_frame0_to_attempted_match_data_map_ :=
             idx_frame0_to_attempted_match_data_map_ st;
           inferior_match_keypoint_idx_frame0_ :=
             inferior_match_keypoint_idx_frame0_ st ++ [idx_k] |}
  end.

(** Modelled from the spec: the body of [matchKeypoint] is missing; sections
    4.2 to 4.4, the first pass for the frame-0 keypoint [idx_k]. A keypoint
    without eligible candidate "is not added to the inferior set, it simply
    remains unmatched". *)
Definition matchKeypoint (keypoints_frame1_sorted_by_y_ : list KeypointData)
    (st : MatcherState) (idx_k : Z) (tried : list Candidate)
    : outcome MatcherState :=
  md ← recordCandidates tried MatchData_default;
  best ← highestScoringEligible keypoints_frame1_sorted_by_y_ tried None;
  let st' :=
    {| frame1_idx_to_matches_iterator_map_ := frame1_idx_to_matches_iterator_map_ st;
       idx_frame0_to_attempted_match_data_map_ :=
         <[idx_k := md]> (idx_frame0_to_attempted_match_data_map_ st);
       inferior_match_keypoint_idx_frame0_ := inferior_match_keypoint_idx_frame0_ st |} in
  match best with
  | None => Ok st'
  | Some (j, s) => Ok (installAssignment st' idx_k j s)
  end.

(** Modelled from the spec: the body of [match] is missing; the first pass
    visits the frame-0 keypoints by ascending index (section 4.4, "iteration
    order over frame-A indices (ascending)"). *)
Fixpoint matchKeypoints (keypoints_frame1_sorted_by_y_ : list KeypointData)
    (idx_k : Z) (attempts : list (list Candidate)) (st : MatcherState)
    : outcome MatcherState :=
  match attempts with
  | [] => Ok st
  | tried :: rest =>
      st' ← matchKeypoint keypoints_frame1_sorted_by_y_ st idx_k tried;
      matchKeypoints keypoints_frame1_sorted_by_y_ (idx_k + 1) rest st'
  end.

(** Modelled from the spec: the body of [matchInferiorMatches] is missing;
    section 4.5, a stored candidate can be used for a re-match when its
    frame-1 keypoint is "unclaimed or weaker-held". *)
Definition unclaimedOrWeaker (assignment : gmap Z (Z * spec_float)) (j : Z)
    (s : spec_float) : bool :=
  match assignment !! j with
  | None => true
  | Some (_, current) => Double.ltb current s
  end.

(** Modelled from the spec: the body of [matchInferiorMatches] is missing;
    section 4.5, the best stored candidate of an inferior keypoint, "using a
    stricter threshold (0.85) and no ratio test". *)
Fixpoint highestScoringRematch (keypoints_frame1_sorted_by_y_ : list KeypointData)
    (assignment : gmap Z (Z * spec_float))
    (stored : list (KeyPointIterator * spec_float)) (best : option (Z * spec_float))
    : outcome (option (Z * spec_float)) :=
  match stored with
  | [] => Ok best
  | (it, s) :: rest =>
      if Double.leb (Double.of_float kMatchingThresholdBitsRatioStrict) s then
        match channel_index_at keypoints_frame1_sorted_by_y_ it with
        | None => Undefined
        | Some j =>
            highestScoringRematch keypoints_frame1_sorted_by_y_ assignment rest
              (if unclaimedOrWeaker assignment j s then pickBetter best j s else best)
        end
      else highestScoringRematch keypoints_frame1_sorted_by_y_ assignment rest best
  end.

(** Modelled from the spec: the body of [matchInferiorMatches] is missing;
    section 4.5, one inferior keypoint in a round. A re-match "follows the
    same eviction rule as 4.4"; a keypoint that finds nothing stays in the
    inferior set. The flag tells whether the round has installed an
    assignment so far. *)
Definition rematchKeypoint (keypoints_frame1_sorted_by_y_ : list KeypointData)
    (acc : bool * MatcherState) (idx_k : Z) : outcome (bool * MatcherState) :=
  let st := snd acc in
  let md := default MatchData_default
              (idx_frame0_to_attempted_match_data_map_ st !! idx_k) in
  best ← highestScoringRematch keypoints_frame1_sorted_by_y_
           (frame1_idx_to_matches_iterator_map_ st)
           (zip (keypoint_match_candidates_frame1 md)
                (match_candidate_matching_scores md)) None;
  match best with
  | Some (j, s) => Ok (true, installAssignment st idx_k j s)
  | None =>
      Ok (fst acc,
          {| frame1_idx_to_matches_iterator_map_ := frame1_idx_to_matches_iterator_map_ st;
             idx_frame0_to_attempted_match_data_map_ :=
               idx_frame0_to_attempted_match_data_map_ st;
             inferior_match_keypoint_idx_frame0_ :=
               inferior_match_keypoint_idx_frame0_ st ++ [idx_k] |})
  end.

(** Modelled from the spec: the body of [matchInferiorMatches] is missing;
    section 4.5, "Each round iterates over the current inferior set". *)
Fixpoint rematchKeypoints (keypoints_frame1_sorted_by_y_ : list KeypointData)
    (inferior : list Z) (acc : bool * MatcherState) : outcome (bool * MatcherState) :=
  match inferior with
  | [] => Ok acc
  | idx_k :: rest =>
      acc' ← rematchKeypoint keypoints_frame1_sorted_by_y_ acc idx_k;
      rematchKeypoints keypoints_frame1_sorted_by_y_ rest acc'
  end.

(** Modelled from the spec: the body of [matchInferiorMatches] is missing;
    section 4.5, one round over "the current inferior set". The keypoints
    displaced during the round form, with those that found nothing, the
    inferior set of the next round. The header documents the result:
    "Returns true if matches are still found." *)
Definition matchInferiorMatches (keypoints_frame1_sorted_by_y_ : list KeypointData)
    (st : MatcherState) : outcome (bool * MatcherState) :=
  rematchKeypoints keypoints_frame1_sorted_by_y_
    (inferior_match_keypoint_idx_frame0_ st)
    (false,
     {| frame1_idx_to_matches_iterator_map_ := frame1_idx_to_matches_iterator_map_ st;
        idx_frame0_to_attempted_match_data_map_ :=
          idx_frame0_to_attempted_match_data_map_ st;
        inferior_match_keypoint_idx_frame0_ := [] |}).

(** Modelled from the spec: the body of [match] is missing; section 4.5, the
    resolver loop, "up to a fixed number of rounds"; "A round that produces
    zero new assignments terminates the resolver early, even if rounds
    remain". Returns the final state and the result of every round that was
    executed. *)
Fixpoint resolveInferiorMatches (rounds : nat)
    (keypoints_frame1_sorted_by_y_ : list KeypointData) (st : MatcherState)
    : outcome (MatcherState * list bool) :=
  match rounds with
  | O => Ok (st, [])
  | S rounds' =>
      '(found, st') ← matchInferiorMatches keypoints_frame1_sorted_by_y_ st;
      if found : bool then
        '(st'', results) ←
          resolveInferiorMatches rounds' keypoints_frame1_sorted_by_y_ st';
        Ok (st'', true :: results)
      else Ok (st', [false])
  end.

(** Modelled from the spec: the order of the output (section 6). *)
Definition frame0_le (a b : StereoMatchWithScore) : Prop :=
  idx_frame0 a <= idx_frame0 b.

#[global] Instance frame0_le_dec a b : Decision (frame0_le a b) :=
  decide (idx_frame0 a <= idx_frame0 b).

(** Modelled from the spec: the body of [match] is missing; section 6, the
    output is the assignment "ordered by ascending frame-A index". *)
Definition matches_of (st : MatcherState) : list StereoMatchWithScore :=
  merge_sort frame0_le
    ((fun e : Z * (Z * spec_float) => {| idx_frame0 := fst (snd e); idx_frame1 := fst e;
                  match_score := snd (snd e) |})
       <$> map_to_list (frame1_idx_to_matches_iterator_map_ st)).

(** Modelled from the spec: the body of [match] is missing; section 4.6. The
    per-call state is reset at entry; the first pass is followed by the
    bounded resolver rounds. The frame-1 keypoints sorted by y and the
    candidates of every frame-0 keypoint are the inputs. *)
Definition match_ (keypoints_frame1_sorted_by_y_ : list KeypointData)
    (attempts : list (list Candidate)) : outcome (list StereoMatchWithScore) :=
  st1 ← matchKeypoints keypoints_frame1_sorted_by_y_ 0 attempts MatcherState_reset;
  '(st2, _) ← resolveInferiorMatches kMaxNumInferiorIterations
                keypoints_frame1_sorted_by_y_ st1;
  Ok (matches_of st2).

(** ** Predicates of the verification *)

(** A matching score that passes the two checks of [addCandidate]:
    [0.0 < s] and [s <= 1.0]. *)
Definition score_in_range (s : spec_float) : Prop :=
  Double.ltb Double.zero s = true /\ Double.leb s Double.one = true.

Definition recorded_in_range (md : MatchData) : Prop :=
  Forall score_in_range (match_candidate_matching_scores md).

(** The frame-0 keypoint [a] holds an assignment. *)
Definition assigned (assignment : gmap Z (Z * spec_float)) (a : Z) : Prop :=
  exists j s, assignment !! j = Some (a, s).

(** The assignment is exclusive with respect to the inferior keypoints and to
    the inferior keypoints [remaining] to be visited in the current round: no
    frame-0 keypoint holds two frame-1 keypoints, and no keypoint that holds
    one is inferior or remaining. *)
Record exclusive (remaining : list Z) (st : MatcherState) : Prop := {
  excl_inj : forall j1 j2 a s1 s2,
    frame1_idx_to_matches_iterator_map_ st !! j1 = Some (a, s1) ->
    frame1_idx_to_matches_iterator_map_ st !! j2 = Some (a, s2) -> j1 = j2;
  excl_nodup : NoDup (remaining ++ inferior_match_keypoint_idx_frame0_ st);
  excl_disj : forall a,
    assigned (frame1_idx_to_matches_iterator_map_ st) a ->
    a ∉ remaining ++ inferior_match_keypoint_idx_frame0_ st
}.

(** Every frame-0 keypoint the state mentions has an index below [n]. *)
Definition visited_below (n : Z) (st : MatcherState) : Prop :=
  (forall a, assigned (frame1_idx_to_matches_iterator_map_ st) a -> a < n) /\
  (forall a, a ∈ inferior_match_keypoint_idx_frame0_ st -> a < n).

(** Every score the state holds passed the checks of [addCandidate]. *)
Definition scores_in_range (st : MatcherState) : Prop :=
  (forall j a s, frame1_idx_to_matches_iterator_map_ st !! j = Some (a, s) ->
                 score_in_range s) /\
  (forall i md, idx_frame0_to_attempted_match_data_map_ st !! i = Some md ->
                recorded_in_range md).

(** Every stored candidate of every frame-0 keypoint designates a keypoint of
    the sorted frame-1 vector. *)
Definition stored_valid (keypoints_frame1_sorted_by_y_ : list KeypointData)
    (st : MatcherState) : Prop :=
  forall i md, idx_frame0_to_attempted_match_data_map_ st !! i = Some md ->
    Forall (fun it => is_Some (channel_index_at keypoints_frame1_sorted_by_y_ it))
      (keypoint_match_candidates_frame1 md).

(** ** A run of the matcher on two frames with two keypoints each *)

(** Frame 1 has the keypoints 10 and 11 (rows 0 and 1). Both keypoints of
    frame 0 prefer keypoint 10; keypoint 0 has also tried keypoint 11, which
    failed the ratio test. *)
Definition example_keypoints : list KeypointData :=
  [ {| measurement := (Double.zero, Double.of_Z 0); channel_index := 10 |};
    {| measurement := (Double.zero, Double.of_Z 1); channel_index := 11 |} ].

Definition example_attempts : list (list Candidate) :=
  [ [ (0, computeMatchingScore 230 256, true);
      (1, computeMatchingScore 230 256, false) ];
    [ (0, computeMatchingScore 243 256, true) ] ].

Definition example_matches : list StereoMatchWithScore :=
  [ {| idx_frame0 := 0; idx_frame1 := 11;
       match_score := computeMatchingScore 230 256 |};
    {| idx_frame0 := 1; idx_frame1 := 10;
       match_score := computeMatchingScore 243 256 |} ].

(** The state of the example after the first pass. *)
Definition example_first_pass : MatcherState :=
  {| frame1_idx_to_matches_iterator_map_ :=
       {[ 10 := (1, computeMatchingScore 243 256) ]};
     idx_frame0_to_attempted_match_data_map_ :=
       {[ 0 := {| keypoint_match_candidates_frame1 := [0; 1];
                  match_candidate_matching_scores :=
                    [computeMatchingScore 230 256; computeMatchingScore 230 256] |};
          1 := {| keypoint_match_candidates_frame1 := [0];
                  match_candidate_matching_scores := [computeMatchingScore 243 256] |} ]};
     inferior_match_keypoint_idx_frame0_ := [0] |}.

(** The state of the example after the rounds of the resolver. *)
Definition example_resolved : MatcherState :=
  {| frame1_idx_to_matches_iterator_map_ :=
       {[ 10 := (1, computeMatchingScore 243 256);
          11 := (0, computeMatchingScore 230 256) ]};
     idx_frame0_to_attempted_match_data_map_ :=
       idx_frame0_to_attempted_match_data_map_ example_first_pass;
     inferior_match_keypoint_idx_frame0_ := [] |}.

(** ** A construction of the matcher *)

Definition example_rig : NCamera := [ {| imageHeight := 480 |}; {| imageHeight := 480 |} ].
Definition example_stale_rig : NCamera := [ {| imageHeight := 240 |} ].
(** ** Rounding: the operations of [SpecFloat] in terms of integer division *)

Lemma digits2_pos_size p : digits2_pos p = Pos.size p.
Proof. induction p; simpl; congruence. Qed.

Lemma digits2_pos_log2 p : Z.pos (digits2_pos p) = Z.log2 (Z.pos p) + 1.
Proof.
  rewrite digits2_pos_size.
  destruct p; simpl; lia.
Qed.

Lemma Zdigits2_log2 m : 0 < m -> Zdigits2 m = Z.log2 m + 1.
Proof. destruct m; try lia. intros _. apply digits2_pos_log2. Qed.

Lemma log2_bounds m : 0 < m -> 2 ^ Z.log2 m <= m < 2 ^ (Z.log2 m + 1).
Proof. intros H. apply Z.log2_spec in H. rewrite <- Z.add_1_r in H. exact H. Qed.

Lemma log2_digits_unique m d :
  0 < d -> 2 ^ (d - 1) <= m < 2 ^ d -> Z.log2 m + 1 = d.
Proof.
  intros Hd H. rewrite (Z.log2_unique m (d - 1)); try lia.
  replace (Z.succ (d - 1)) with d by lia. exact H.
Qed.

Lemma iter_pos_nat {A} (f : A -> A) p x :
  SpecFloat.iter_pos f p x = Nat.iter (Pos.to_nat p) f x.
Proof.
  revert x. induction p as [p IH|p IH|]; intros x.
  - change (SpecFloat.iter_pos f p~1 x)
      with (SpecFloat.iter_pos f p (SpecFloat.iter_pos f p (f x))).
    rewrite !IH, <- Nat.iter_succ_r, <- Nat.iter_add. f_equal. lia.
  - change (SpecFloat.iter_pos f p~0 x)
      with (SpecFloat.iter_pos f p (SpecFloat.iter_pos f p x)).
    rewrite !IH, <- Nat.iter_add. f_equal. lia.
  - reflexivity.
Qed.

Lemma shr_1_nonneg m r s :
  0 <= m ->
  shr_1 {| shr_m := m; shr_r := r; shr_s := s |} =
  {| shr_m := m / 2; shr_r := Z.odd m; shr_s := r || s |}.
Proof.
  intros Hm.
  assert (Hdm : m = 2 * (m / 2) + m mod 2) by (apply Z.div_mod; lia).
  assert (Hmod : m mod 2 = if Z.odd m then 1 else 0) by apply Zmod_odd.
  destruct m as [|[p|p|]|]; try lia; unfold shr_1; f_equal;
    try reflexivity.
  - rewrite Pos2Z.inj_xI in Hdm, Hmod. simpl Z.odd in Hmod. lia.
  - rewrite Pos2Z.inj_xO in Hdm, Hmod. simpl Z.odd in Hmod. lia.
Qed.

Lemma shr_1_spec m r t :
  0 <= m -> 0 <= r < t ->
  shr_1 (shr_record_of_loc m (loc_frac r t)) =
  shr_record_of_loc (m / 2) (loc_frac (m mod 2 * t + r) (2 * t)).
Proof.
  intros Hm Hr.
  assert (Hmod : m mod 2 = if Z.odd m then 1 else 0) by apply Zmod_odd.
  assert (Hrec : forall l, shr_record_of_loc m l =
            {| shr_m := m; shr_r := shr_r (shr_record_of_loc m l);
               shr_s := shr_s (shr_record_of_loc m l) |}).
  { intros [|[]]; reflexivity. }
  rewrite Hrec, shr_1_nonneg by exact Hm.
  rewrite Hmod. unfold loc_frac.
  destruct (Z.eqb_spec r 0) as [->|Hr0].
  - destruct (Z.odd m); simpl shr_r; simpl shr_s; simpl orb.
    + destruct (Z.eqb_spec (1 * t + 0) 0); [lia|].
      replace (2 * (1 * t + 0) ?= 2 * t) with Eq; [reflexivity|].
      symmetry. apply Z.compare_eq_iff. lia.
    + reflexivity.
  - assert (Hs : forall c, shr_r (shr_record_of_loc m (loc_Inexact c))
                           || shr_s (shr_record_of_loc m (loc_Inexact c)) = true).
    { intros []; reflexivity. }
    rewrite Hs.
    destruct (Z.odd m).
    + destruct (Z.eqb_spec (1 * t + r) 0); [lia|].
      replace (2 * (1 * t + r) ?= 2 * t) with Gt; [reflexivity|].
      symmetry. apply Z.compare_gt_iff. lia.
    + destruct (Z.eqb_spec (0 * t + r) 0); [lia|].
      replace (2 * (0 * t + r) ?= 2 * t) with Lt; [reflexivity|].
      symmetry. apply Z.compare_lt_iff. lia.
Qed.

Lemma shr_iter_spec n m r t :
  0 <= m -> 0 <= r < t ->
  Nat.iter n shr_1 (shr_record_of_loc m (loc_frac r t)) =
  shr_record_of_loc (m / 2 ^ Z.of_nat n)
    (loc_frac (m mod 2 ^ Z.of_nat n * t + r) (2 ^ Z.of_nat n * t)).
Proof.
  intros Hm Hr. induction n as [|n IH].
  - simpl Nat.iter. change (2 ^ Z.of_nat 0) with 1.
    rewrite Z.div_1_r, Z.mod_1_r. do 2 f_equal; lia.
  - rewrite Nat.iter_succ, IH.
    assert (Hp : 0 < 2 ^ Z.of_nat n) by (apply Z.pow_pos_nonneg; lia).
    assert (Hmod : 0 <= m mod 2 ^ Z.of_nat n < 2 ^ Z.of_nat n)
      by (apply Z.mod_pos_bound; lia).
    rewrite shr_1_spec; [| apply Z.div_pos; lia | nia].
    rewrite Nat2Z.inj_succ, Z.pow_succ_r by lia.
    rewrite Z.div_div by lia.
    rewrite (Z.mul_comm 2 (2 ^ Z.of_nat n)).
    f_equal. f_equal; [|ring].
    rewrite Z.rem_mul_r by lia. ring.
Qed.

Lemma shr_spec m r t e n :
  0 <= m -> 0 <= r < t ->
  shr (shr_record_of_loc m (loc_frac r t)) e n =
  (shr_record_of_loc (m / 2 ^ Z.max 0 n)
     (loc_frac (m mod 2 ^ Z.max 0 n * t + r) (2 ^ Z.max 0 n * t)),
   e + Z.max 0 n).
Proof.
  intros Hm Hr. destruct n as [|p|p]; unfold shr.
  - change (Z.max 0 0) with 0. change (2 ^ 0) with 1.
    rewrite Z.div_1_r, Z.mod_1_r. do 3 f_equal; lia.
  - rewrite iter_pos_nat, shr_iter_spec by assumption.
    rewrite positive_nat_Z. replace (Z.max 0 (Z.pos p)) with (Z.pos p) by lia.
    reflexivity.
  - replace (Z.max 0 (Z.neg p)) with 0 by lia. change (2 ^ 0) with 1.
    rewrite Z.div_1_r, Z.mod_1_r. do 3 f_equal; lia.
Qed.


Section Round.
Variables prec emax : Z.
Hypothesis Hprec : 0 < prec.
Hypothesis Hprec2 : 2 <= prec.
Hypothesis Hemax : prec + 2 <= emax.
Local Abbreviation emin := (SpecFloat.emin prec emax).

Lemma rne_bit_range q r t : 0 <= rne_bit q r t <= 1.
Proof. unfold rne_bit. destruct (2 * r ?= t); [destruct (Z.even q)| |]; lia. Qed.

Lemma rne_loc q r t :
  0 <= r < t -> round_nearest_even q (loc_frac r t) = q + rne_bit q r t.
Proof.
  intros Hr. unfold loc_frac, rne_bit, round_nearest_even.
  destruct (Z.eqb_spec r 0) as [->|Hr0].
  - replace (2 * 0 ?= t) with Lt; [lia|]. symmetry. apply Z.compare_lt_iff. lia.
  - destruct (2 * r ?= t); [destruct (Z.even q)| |]; lia.
Qed.

Lemma shr_m_of_loc m l : shr_m (shr_record_of_loc m l) = m.
Proof. destruct l as [|[]]; reflexivity. Qed.

Lemma loc_of_shr_of_loc m l : loc_of_shr_record (shr_record_of_loc m l) = l.
Proof. destruct l as [|[]]; reflexivity. Qed.

Lemma shr_fexp_spec m e r t :
  0 <= m -> 0 <= r < t ->
  shr_fexp prec emax m e (loc_frac r t) =
  (shr_record_of_loc (m / 2 ^ Z.max 0 (fexp prec emax (Zdigits2 m + e) - e))
     (loc_frac (m mod 2 ^ Z.max 0 (fexp prec emax (Zdigits2 m + e) - e) * t + r)
        (2 ^ Z.max 0 (fexp prec emax (Zdigits2 m + e) - e) * t)),
   e + Z.max 0 (fexp prec emax (Zdigits2 m + e) - e)).
Proof. intros Hm Hr. unfold shr_fexp. apply shr_spec; assumption. Qed.

Lemma bra_spec s mx ex r t :
  0 <= mx -> 0 <= r < t ->
  binary_round_aux prec emax s mx ex (loc_frac r t) =
  let k := Z.max 0 (fexp prec emax (Zdigits2 mx + ex) - ex) in
  let q := mx / 2 ^ k in
  let m2 := q + rne_bit q (mx mod 2 ^ k * t + r) (2 ^ k * t) in
  let e1 := ex + k in
  let k2 := Z.max 0 (fexp prec emax (Zdigits2 m2 + e1) - e1) in
  bra_result prec emax s (m2 / 2 ^ k2) (e1 + k2).
Proof.
  intros Hm Hr. cbv zeta. unfold binary_round_aux.
  rewrite shr_fexp_spec by assumption.
  rewrite shr_m_of_loc, loc_of_shr_of_loc.
  set (k := Z.max 0 (fexp prec emax (Zdigits2 mx + ex) - ex)).
  assert (Hk : 0 < 2 ^ k) by (apply Z.pow_pos_nonneg; lia).
  assert (Hmod : 0 <= mx mod 2 ^ k < 2 ^ k) by (apply Z.mod_pos_bound; lia).
  rewrite rne_loc by nia.
  set (m2 := mx / 2 ^ k + rne_bit (mx / 2 ^ k) (mx mod 2 ^ k * t + r) (2 ^ k * t)).
  assert (Hm2 : 0 <= m2).
  { pose proof (rne_bit_range (mx / 2 ^ k) (mx mod 2 ^ k * t + r) (2 ^ k * t)).
    pose proof (Z.div_pos mx (2 ^ k) Hm Hk). unfold m2. lia. }
  change loc_Exact with (loc_frac 0 1).
  rewrite shr_fexp_spec by lia.
  rewrite shr_m_of_loc. reflexivity.
Qed.


Lemma pow2_pos k : 0 <= k -> 0 < 2 ^ k.
Proof. intros. apply Z.pow_pos_nonneg; lia. Qed.

Lemma rne_bit_zero q t : 0 < t -> rne_bit q 0 t = 0.
Proof.
  intros Ht. unfold rne_bit.
  rewrite (proj2 (Z.compare_lt_iff (2 * 0) t)) by lia. reflexivity.
Qed.

Lemma rne_bit_scale q r t c : 0 < c -> rne_bit q (r * c) (t * c) = rne_bit q r t.
Proof.
  intros Hc. unfold rne_bit.
  destruct (Z.compare_spec (2 * r) t) as [E|E|E].
  - rewrite (proj2 (Z.compare_eq_iff (2 * (r * c)) (t * c))) by nia. reflexivity.
  - rewrite (proj2 (Z.compare_lt_iff (2 * (r * c)) (t * c))) by nia. reflexivity.
  - rewrite (proj2 (Z.compare_gt_iff (2 * (r * c)) (t * c))) by nia. reflexivity.
Qed.

Lemma bra_exact s m e :
  0 < m -> fexp prec emax (Zdigits2 m + e) <= e ->
  binary_round_aux prec emax s m e loc_Exact = bra_result prec emax s m e.
Proof.
  intros Hm Hf. change loc_Exact with (loc_frac 0 1).
  rewrite bra_spec by lia. cbv zeta.
  replace (Z.max 0 (fexp prec emax (Zdigits2 m + e) - e)) with 0 by lia.
  change (2 ^ 0) with 1. rewrite Z.div_1_r, Z.mod_1_r.
  change (0 * 1 + 0) with 0. change (1 * 1) with 1.
  rewrite rne_bit_zero by lia. rewrite !Z.add_0_r.
  replace (Z.max 0 (fexp prec emax (Zdigits2 m + e) - e)) with 0 by lia.
  change (2 ^ 0) with 1. rewrite Z.div_1_r, Z.add_0_r. reflexivity.
Qed.


Lemma RN_exact a j : 0 < a < 2 ^ prec -> 0 <= j -> RN prec (a * 2 ^ j) = a * 2 ^ j.
Proof.
  intros Ha Hj. unfold RN.
  rewrite Z.log2_mul_pow2 by lia.
  assert (Hl : Z.log2 a < prec) by (apply Z.log2_lt_pow2; lia).
  set (K := Z.max 0 (j + Z.log2 a + 1 - prec)).
  assert (HK : 0 <= K <= j) by (unfold K; lia).
  assert (Hsplit : a * 2 ^ j = a * 2 ^ (j - K) * 2 ^ K).
  { rewrite <- Z.mul_assoc, <- Z.pow_add_r by lia. do 2 f_equal. lia. }
  pose proof (pow2_pos K ltac:(lia)) as HpK.
  rewrite Hsplit at 1 2 3.
  rewrite Z.div_mul, Z.mod_mul by lia.
  rewrite rne_bit_zero by lia. lia.
Qed.

Lemma RN_scale m c : 0 < m -> 0 <= c -> RN prec (m * 2 ^ c) = RN prec m * 2 ^ c.
Proof.
  intros Hm Hc.
  destruct (Z_lt_le_dec (Z.log2 m + 1) prec) as [Hlt|Hge].
  - assert (Hb : 0 < m < 2 ^ prec).
    { split; [lia|]. apply Z.log2_lt_pow2; lia. }
    rewrite RN_exact by lia.
    replace m with (m * 2 ^ 0) at 2 by (rewrite Z.pow_0_r; lia).
    rewrite RN_exact by lia. rewrite Z.pow_0_r. lia.
  - unfold RN. rewrite Z.log2_mul_pow2 by lia.
    replace (Z.max 0 (c + Z.log2 m + 1 - prec))
      with (Z.max 0 (Z.log2 m + 1 - prec) + c) by lia.
    set (K := Z.max 0 (Z.log2 m + 1 - prec)).
    assert (HK : 0 <= K) by (unfold K; lia).
    pose proof (pow2_pos K HK) as HpK. pose proof (pow2_pos c Hc) as Hpc.
    rewrite Z.pow_add_r by lia.
    rewrite Z.div_mul_cancel_r by lia.
    rewrite Z.mul_mod_distr_r by lia.
    rewrite rne_bit_scale by lia. ring.
Qed.

Lemma RN_normal m :
  prec <= Z.log2 m + 1 -> 0 < m ->
  let k := Z.log2 m + 1 - prec in
  let m2 := m / 2 ^ k + rne_bit (m / 2 ^ k) (m mod 2 ^ k) (2 ^ k) in
  RN prec m = m2 * 2 ^ k /\ 2 ^ (prec - 1) <= m2 <= 2 ^ prec.
Proof.
  intros Hd Hm. cbv zeta. unfold RN.
  replace (Z.max 0 (Z.log2 m + 1 - prec)) with (Z.log2 m + 1 - prec) by lia.
  set (k := Z.log2 m + 1 - prec).
  split; [reflexivity|].
  pose proof (log2_bounds m Hm) as [Hlo Hhi].
  pose proof (pow2_pos k ltac:(unfold k; lia)) as Hpk.
  assert (E1 : 2 ^ Z.log2 m = 2 ^ (prec - 1) * 2 ^ k).
  { rewrite <- Z.pow_add_r by (unfold k; lia). f_equal. unfold k. lia. }
  assert (E2 : 2 ^ (Z.log2 m + 1) = 2 ^ prec * 2 ^ k).
  { rewrite <- Z.pow_add_r by (unfold k; lia). f_equal. unfold k. lia. }
  assert (Hq1 : 2 ^ (prec - 1) <= m / 2 ^ k).
  { apply Z.div_le_lower_bound; lia. }
  assert (Hq2 : m / 2 ^ k < 2 ^ prec).
  { apply Z.div_lt_upper_bound; lia. }
  pose proof (rne_bit_range (m / 2 ^ k) (m mod 2 ^ k) (2 ^ k)). lia.
Qed.


Lemma bra_result_finite s m e s' m' e' :
  bra_result prec emax s m e = S754_finite s' m' e' ->
  s' = s /\ Z.pos m' = m /\ e' = e.
Proof.
  unfold bra_result. destruct m; try discriminate.
  destruct (e <=? emax - prec); try discriminate.
  intros H; injection H as <- <- <-. auto.
Qed.

Lemma bra_result_pos s m e :
  0 < m ->
  match bra_result prec emax s m e with
  | S754_finite s' m' e' => s' = s /\ Z.pos m' = m /\ e' = e
  | S754_infinity s' => s' = s
  | _ => False
  end.
Proof.
  intros Hm. unfold bra_result. destruct m; try lia.
  destruct (e <=? emax - prec); auto.
Qed.

Lemma binary_round_value s m e :
  emin <= e ->
  match binary_round prec emax s m e with
  | S754_finite s' m' e' =>
      s' = s /\ emin <= e' /\ Z.pos m' < 2 ^ prec /\
      Z.pos m' * 2 ^ (e' - emin) = RN prec (Z.pos m * 2 ^ (e - emin))
  | S754_infinity s' => s' = s
  | _ => False
  end.
Proof.
  intros He. unfold binary_round.
  pose proof (digits2_pos_log2 m) as HD.
  pose proof (log2_bounds (Z.pos m) ltac:(lia)) as [Hlo Hhi].
  set (D := Z.pos (digits2_pos m)) in *. rewrite <- HD in Hhi.
  set (f := fexp prec emax (D + e)).
  assert (Hf : f = Z.max (D + e - prec) emin) by reflexivity.
  unfold shl_align.
  destruct (f - e) as [|p|d] eqn:Hfe.
  - (* already canonical *)
    rewrite bra_exact; [| lia | simpl Zdigits2; fold D; fold f; lia].
    pose proof (bra_result_pos s (Z.pos m) e ltac:(lia)) as Hr.
    destruct (bra_result prec emax s (Z.pos m) e) as [s0|s'| |s' m' e']; auto.
    destruct Hr as (-> & Hm' & ->).
    assert (Hb : Z.pos m < 2 ^ prec).
    { apply Z.lt_le_trans with (1 := Hhi). apply Z.pow_le_mono_r; lia. }
    rewrite Hm'. repeat split; try lia.
    rewrite RN_exact by lia. reflexivity.
  - (* too many digits: round *)
    change loc_Exact with (loc_frac 0 1).
    rewrite bra_spec by lia. cbv zeta.
    simpl Zdigits2. fold D. fold f.
    replace (Z.max 0 (f - e)) with (D - prec) by lia.
    assert (Hk : 0 < D - prec) by lia.
    rewrite !Z.mul_1_r, !Z.add_0_r.
    replace (e + (D - prec)) with f by lia.
    pose proof (RN_normal (Z.pos m) ltac:(lia) ltac:(lia)) as HRN.
    cbv zeta in HRN. rewrite <- HD in HRN.
    set (m2 := Z.pos m / 2 ^ (D - prec) +
               rne_bit (Z.pos m / 2 ^ (D - prec)) (Z.pos m mod 2 ^ (D - prec))
                 (2 ^ (D - prec))) in *.
    destruct HRN as (HRN & Hm2lo & Hm2hi).
    pose proof (pow2_pos (prec - 1) ltac:(lia)) as Hpp.
    assert (Hval : RN prec (Z.pos m * 2 ^ (e - emin)) = m2 * 2 ^ (f - emin)).
    { rewrite RN_scale, HRN by lia. rewrite <- Z.mul_assoc, <- Z.pow_add_r by lia.
      do 2 f_equal. lia. }
    rewrite Zdigits2_log2 by lia.
    destruct (Z_lt_le_dec m2 (2 ^ prec)) as [Hlt|Hge].
    + rewrite (log2_digits_unique m2 prec) by lia.
      replace (Z.max 0 (fexp prec emax (prec + f) - f)) with 0
        by (unfold fexp; fold emin; lia).
      change (2 ^ 0) with 1. rewrite Z.div_1_r, Z.add_0_r.
      pose proof (bra_result_pos s m2 f ltac:(lia)) as Hr.
      destruct (bra_result prec emax s m2 f) as [s0|s'| |s' m' e']; auto.
      destruct Hr as (-> & Hm' & ->). rewrite Hm', Hval. repeat split; lia.
    + assert (Em2 : m2 = 2 ^ prec) by lia.
      rewrite (log2_digits_unique m2 (prec + 1)); [| lia |].
      2:{ rewrite Em2, Z.add_simpl_r. split; [lia|].
          apply Z.pow_lt_mono_r; lia. }
      replace (Z.max 0 (fexp prec emax (prec + 1 + f) - f)) with 1
        by (unfold fexp; fold emin; lia).
      assert (Ehalf : m2 / 2 ^ 1 = 2 ^ (prec - 1)).
      { rewrite Em2. replace prec with (prec - 1 + 1) at 1 by lia.
        rewrite Z.pow_add_r by lia. apply Z.div_mul. lia. }
      rewrite Ehalf.
      pose proof (bra_result_pos s (2 ^ (prec - 1)) (f + 1) ltac:(lia)) as Hr.
      destruct (bra_result prec emax s (2 ^ (prec - 1)) (f + 1))
        as [s0|s'| |s' m' e']; auto.
      destruct Hr as (-> & Hm' & ->). rewrite Hm', Hval, Em2.
      repeat split; try lia.
      * apply Z.pow_lt_mono_r; lia.
      * rewrite <- !Z.pow_add_r by lia. f_equal. lia.
  - (* few digits: align to the left *)
    change (Pos.iter xO m d) with (shift_pos d m).
    assert (Hmz : Z.pos (shift_pos d m) = Z.pos m * 2 ^ (e - f)).
    { rewrite shift_pos_correct, Z.pow_pos_fold.
      replace (e - f) with (Z.pos d) by lia. ring. }
    assert (Hdz : Zdigits2 (Z.pos (shift_pos d m)) = D + (e - f)).
    { rewrite Zdigits2_log2 by lia. rewrite Hmz, Z.log2_mul_pow2 by lia. lia. }
    rewrite bra_exact; [| lia | rewrite Hdz; replace (D + (e - f) + f) with (D + e) by lia; fold f; lia].
    pose proof (bra_result_pos s (Z.pos (shift_pos d m)) f ltac:(lia)) as Hr.
    destruct (bra_result prec emax s (Z.pos (shift_pos d m)) f)
      as [s0|s'| |s' m' e']; auto.
    destruct Hr as (-> & Hm' & ->). rewrite Hm'.
    assert (Hb : Z.pos (shift_pos d m) < 2 ^ prec).
    { rewrite Hmz. apply Z.lt_le_trans with (2 ^ D * 2 ^ (e - f)).
      - apply Z.mul_lt_mono_pos_r; [apply pow2_pos; lia | lia].
      - rewrite <- Z.pow_add_r by lia. apply Z.pow_le_mono_r; lia. }
    repeat split; try lia.
    assert (Hb' : Z.pos m < 2 ^ prec).
    { apply Z.lt_le_trans with (1 := Hhi). apply Z.pow_le_mono_r; lia. }
    rewrite RN_exact by lia.
    rewrite Hmz, <- Z.mul_assoc, <- Z.pow_add_r by lia. do 2 f_equal. lia.
Qed.


Lemma RN_0 : RN prec 0 = 0.
Proof.
  unfold RN. change (Z.log2 0) with 0.
  replace (Z.max 0 (0 + 1 - prec)) with 0 by lia. reflexivity.
Qed.

Lemma RN_small n : 0 < n -> Z.log2 n + 1 <= prec -> RN prec n = n.
Proof.
  intros Hn Hl.
  assert (Hb : n < 2 ^ prec).
  { apply Z.lt_le_trans with (2 ^ (Z.log2 n + 1)); [apply log2_bounds; lia|].
    apply Z.pow_le_mono_r; lia. }
  replace n with (n * 2 ^ 0) at 1 by (rewrite Z.pow_0_r; lia).
  rewrite RN_exact by lia. rewrite Z.pow_0_r. lia.
Qed.

Lemma RN_binade n :
  0 < n -> 2 ^ Z.log2 n <= RN prec n <= 2 ^ (Z.log2 n + 1).
Proof.
  intros Hn. pose proof (log2_bounds n Hn) as Hb.
  destruct (Z_lt_le_dec (Z.log2 n + 1) prec) as [Hlt|Hge].
  - rewrite RN_small by lia. lia.
  - pose proof (RN_normal n Hge Hn) as HRN. cbv zeta in HRN.
    destruct HRN as (-> & Hlo & Hhi).
    set (k := Z.log2 n + 1 - prec) in *.
    pose proof (pow2_pos k ltac:(unfold k; lia)) as Hpk.
    replace (Z.log2 n) with (prec - 1 + k) at 1 by (unfold k; lia).
    replace (Z.log2 n + 1) with (prec + k) by (unfold k; lia).
    rewrite !Z.pow_add_r by (unfold k; lia). nia.
Qed.

Lemma RN_nonneg n : 0 <= n -> 0 <= RN prec n.
Proof.
  intros Hn. destruct (Z.eq_dec n 0) as [->|Hn0]; [rewrite RN_0; lia|].
  pose proof (RN_binade n ltac:(lia)) as [H _].
  pose proof (pow2_pos (Z.log2 n) (Z.log2_nonneg n)). lia.
Qed.

Lemma rne_bit_mono q r r' t : r <= r' -> rne_bit q r t <= rne_bit q r' t.
Proof.
  intros Hr. unfold rne_bit.
  destruct (Z.compare_spec (2 * r) t), (Z.compare_spec (2 * r') t);
    try destruct (Z.even q); lia.
Qed.

Lemma RN_mono n n' : 0 <= n <= n' -> RN prec n <= RN prec n'.
Proof.
  intros [Hn Hnn'].
  destruct (Z.eq_dec n 0) as [->|Hn0].
  { rewrite RN_0. apply RN_nonneg. lia. }
  assert (Hl : Z.log2 n <= Z.log2 n') by (apply Z.log2_le_mono; lia).
  destruct (Z.eq_dec (Z.log2 n) (Z.log2 n')) as [El|Nl].
  - unfold RN. rewrite <- El.
    set (K := Z.max 0 (Z.log2 n + 1 - prec)).
    pose proof (pow2_pos K ltac:(unfold K; lia)) as HpK.
    assert (Hq : n / 2 ^ K <= n' / 2 ^ K) by (apply Z.div_le_mono; lia).
    apply Z.mul_le_mono_nonneg_r; [lia|].
    destruct (Z.eq_dec (n / 2 ^ K) (n' / 2 ^ K)) as [Eq|Nq].
    + rewrite <- Eq. apply Z.add_le_mono_l. apply rne_bit_mono.
      pose proof (Z.div_mod n (2 ^ K) ltac:(lia)).
      pose proof (Z.div_mod n' (2 ^ K) ltac:(lia)). rewrite <- Eq in *. lia.
    + pose proof (rne_bit_range (n / 2 ^ K) (n mod 2 ^ K) (2 ^ K)).
      pose proof (rne_bit_range (n' / 2 ^ K) (n' mod 2 ^ K) (2 ^ K)). lia.
  - pose proof (RN_binade n ltac:(lia)) as [_ H1].
    pose proof (RN_binade n' ltac:(lia)) as [H2 _].
    assert (2 ^ (Z.log2 n + 1) <= 2 ^ Z.log2 n').
    { apply Z.pow_le_mono_r; lia. }
    lia.
Qed.

Lemma RNs_mono z z' : z <= z' -> RNs prec z <= RNs prec z'.
Proof.
  intros Hz. unfold RNs.
  destruct (Z.ltb_spec z 0), (Z.ltb_spec z' 0).
  - pose proof (RN_mono (- z') (- z) ltac:(lia)). lia.
  - pose proof (RN_nonneg (- z) ltac:(lia)).
    pose proof (RN_nonneg z' ltac:(lia)). lia.
  - lia.
  - apply RN_mono. lia.
Qed.

Lemma RNs_exact a j : Z.abs a < 2 ^ prec -> 0 <= j -> RNs prec (a * 2 ^ j) = a * 2 ^ j.
Proof.
  intros Ha Hj. pose proof (pow2_pos j Hj) as Hp. unfold RNs.
  destruct (Z.ltb_spec (a * 2 ^ j) 0).
  - replace (- (a * 2 ^ j)) with ((- a) * 2 ^ j) by ring.
    rewrite RN_exact by nia. ring.
  - destruct (Z.eq_dec a 0) as [->|Ha0]; [rewrite Z.mul_0_l; apply RN_0|].
    apply RN_exact; nia.
Qed.


Lemma cond_Zopp_mul s a b : cond_Zopp s (a * b) = cond_Zopp s a * b.
Proof. destruct s; simpl; ring. Qed.

Lemma cond_Zopp_abs s a : Z.abs (cond_Zopp s a) = Z.abs a.
Proof. destruct s; simpl; lia. Qed.

Lemma B2Z_exact x : wfF prec emax x -> RNs prec (B2Z prec emax x) = B2Z prec emax x.
Proof.
  destruct x as [s|s| |s m e]; simpl; try (intros _; apply (RNs_exact 0 0); lia).
  intros [He Hm]. rewrite cond_Zopp_mul. apply RNs_exact; [|lia].
  rewrite cond_Zopp_abs. lia.
Qed.

Lemma binary_normalize_value z e :
  emin <= e ->
  wfF prec emax (binary_normalize prec emax z e false) /\
  (is_finite (binary_normalize prec emax z e false) = true ->
   B2Z prec emax (binary_normalize prec emax z e false) =
   RNs prec (z * 2 ^ (e - emin))).
Proof.
  intros He. pose proof (pow2_pos (e - emin) ltac:(lia)) as Hp.
  destruct z as [|m|m]; unfold binary_normalize.
  - simpl. split; [exact I|]. intros _. symmetry. apply (RNs_exact 0 0); lia.
  - pose proof (binary_round_value false m e He) as Hv.
    destruct (binary_round prec emax false m e) as [s0|s'| |s' m' e'];
      try contradiction; simpl; [split; [exact I|discriminate]|].
    destruct Hv as (-> & He' & Hm' & Hv). split; [auto|]. intros _.
    simpl. rewrite Hv. unfold RNs.
    destruct (Z.ltb_spec (Z.pos m * 2 ^ (e - emin)) 0); [nia|reflexivity].
  - pose proof (binary_round_value true m e He) as Hv.
    destruct (binary_round prec emax true m e) as [s0|s'| |s' m' e'];
      try contradiction; simpl; [split; [exact I|discriminate]|].
    destruct Hv as (-> & He' & Hm' & Hv). split; [auto|]. intros _.
    simpl. rewrite Hv. unfold RNs.
    destruct (Z.ltb_spec (Z.neg m * 2 ^ (e - emin)) 0); [|nia].
    do 2 f_equal. rewrite <- Pos2Z.opp_pos. ring.
Qed.

Lemma shl_align_fst mx ex ez :
  ez <= ex -> Z.pos (fst (shl_align mx ex ez)) = Z.pos mx * 2 ^ (ex - ez).
Proof.
  intros H. unfold shl_align. destruct (ez - ex) as [|p|d] eqn:E; simpl fst.
  - replace (ex - ez) with 0 by lia. rewrite Z.pow_0_r. lia.
  - lia.
  - change (Pos.iter xO mx d) with (shift_pos d mx).
    rewrite shift_pos_correct, Z.pow_pos_fold.
    replace (ex - ez) with (Z.pos d) by lia. ring.
Qed.

Lemma aligned_value s m e ez :
  emin <= ez -> ez <= e ->
  cond_Zopp s (Z.pos (fst (shl_align m e ez))) * 2 ^ (ez - emin) =
  B2Z prec emax (S754_finite s m e).
Proof.
  intros H1 H2. rewrite shl_align_fst by lia. simpl B2Z.
  rewrite <- cond_Zopp_mul, <- Z.mul_assoc, <- Z.pow_add_r by lia.
  do 3 f_equal. lia.
Qed.

Lemma SFadd_value x y :
  wfF prec emax x -> wfF prec emax y ->
  wfF prec emax (SFadd prec emax x y) /\
  (is_finite (SFadd prec emax x y) = true ->
   B2Z prec emax (SFadd prec emax x y) =
   RNs prec (B2Z prec emax x + B2Z prec emax y)).
Proof.
  intros Hx Hy.
  destruct x as [sx|sx| |sx mx ex], y as [sy|sy| |sy my ey].
  all: try (cbn [SFadd SFsub is_finite wfF]; split; [exact I | discriminate]).
  all: try (destruct sx, sy; cbn [SFadd SFsub is_finite wfF];
            (split; [exact I | discriminate])).
  - destruct sx, sy; (split; [exact I|]); intros _; symmetry;
      apply (RNs_exact 0 0); lia.
  - split; [exact Hy|]. intros _. simpl SFadd.
    change (B2Z prec emax (S754_zero sx)) with 0. rewrite Z.add_0_l.
    symmetry. apply B2Z_exact. exact Hy.
  - split; [exact Hx|]. intros _. simpl SFadd.
    change (B2Z prec emax (S754_zero sy)) with 0. rewrite Z.add_0_r.
    symmetry. apply B2Z_exact. exact Hx.
  - destruct Hx as [Hex Hmx], Hy as [Hey Hmy]. unfold SFadd.
    set (ez := Z.min ex ey).
    pose proof (binary_normalize_value
      (cond_Zopp sx (Z.pos (fst (shl_align mx ex ez))) +
       cond_Zopp sy (Z.pos (fst (shl_align my ey ez)))) ez ltac:(unfold ez; lia))
      as [Hw Hv].
    split; [exact Hw|]. intros Hfin. rewrite (Hv Hfin).
    rewrite Z.mul_add_distr_r.
    rewrite !aligned_value by (unfold ez; lia). reflexivity.
Qed.

Lemma SFsub_value x y :
  wfF prec emax x -> wfF prec emax y ->
  wfF prec emax (SFsub prec emax x y) /\
  (is_finite (SFsub prec emax x y) = true ->
   B2Z prec emax (SFsub prec emax x y) =
   RNs prec (B2Z prec emax x - B2Z prec emax y)).
Proof.
  intros Hx Hy.
  destruct x as [sx|sx| |sx mx ex], y as [sy|sy| |sy my ey].
  all: try (cbn [SFadd SFsub is_finite wfF]; split; [exact I | discriminate]).
  all: try (destruct sx, sy; cbn [SFadd SFsub is_finite wfF];
            (split; [exact I | discriminate])).
  - destruct sx, sy; (split; [exact I|]); intros _; symmetry;
      apply (RNs_exact 0 0); lia.
  - split; [exact Hy|]. intros _. simpl SFsub.
    change (B2Z prec emax (S754_zero sx)) with 0. rewrite Z.sub_0_l.
    replace (- B2Z prec emax (S754_finite sy my ey))
      with (B2Z prec emax (S754_finite (negb sy) my ey))
      by (destruct sy; simpl; lia).
    symmetry. apply B2Z_exact. exact Hy.
  - split; [exact Hx|]. intros _. simpl SFsub.
    change (B2Z prec emax (S754_zero sy)) with 0. rewrite Z.sub_0_r.
    symmetry. apply B2Z_exact. exact Hx.
  - destruct Hx as [Hex Hmx], Hy as [Hey Hmy]. unfold SFsub.
    set (ez := Z.min ex ey).
    pose proof (binary_normalize_value
      (cond_Zopp sx (Z.pos (fst (shl_align mx ex ez))) -
       cond_Zopp sy (Z.pos (fst (shl_align my ey ez)))) ez ltac:(unfold ez; lia))
      as [Hw Hv].
    split; [exact Hw|]. intros Hfin. rewrite (Hv Hfin).
    rewrite Z.mul_sub_distr_r.
    rewrite !aligned_value by (unfold ez; lia). reflexivity.
Qed.


Lemma renorm M e :
  2 ^ (prec - 1) <= M <= 2 ^ prec -> emin <= e ->
  exists j, 0 <= j <= 1 /\
    Z.max 0 (fexp prec emax (Zdigits2 M + e) - e) = j /\
    2 ^ (prec - 1) <= M / 2 ^ j < 2 ^ prec /\ M / 2 ^ j * 2 ^ j = M.
Proof.
  intros [Hlo Hhi] He.
  pose proof (pow2_pos (prec - 1) ltac:(lia)) as Hpp.
  assert (E2 : 2 ^ prec = 2 ^ (prec - 1) * 2).
  { replace prec with (prec - 1 + 1) at 1 by lia. rewrite Z.pow_add_r by lia.
    reflexivity. }
  rewrite Zdigits2_log2 by lia.
  destruct (Z_lt_le_dec M (2 ^ prec)) as [Hlt|Hge].
  - exists 0. rewrite (log2_digits_unique M prec) by lia.
    change (2 ^ 0) with 1. rewrite Z.div_1_r.
    repeat split; try lia. unfold fexp. lia.
  - assert (EM : M = 2 ^ prec) by lia. exists 1.
    rewrite (log2_digits_unique M (prec + 1)); [| lia |].
    2:{ rewrite EM, Z.add_simpl_r. split; [lia|]. apply Z.pow_lt_mono_r; lia. }
    change (2 ^ 1) with 2.
    assert (Eh : M / 2 = 2 ^ (prec - 1)).
    { rewrite EM, E2. apply Z.div_mul. lia. }
    rewrite Eh. repeat split; try lia. unfold fexp. lia.
Qed.

Lemma new_location_spec nb k :
  0 < nb -> 0 <= k < nb -> new_location nb k = loc_frac k nb.
Proof.
  intros Hnb Hk. unfold new_location, new_location_even, new_location_odd, loc_frac.
  destruct (Z.even nb) eqn:Ev; [reflexivity|].
  destruct (Z.eqb_spec k 0); [reflexivity|]. f_equal.
  assert (Hodd : Z.odd nb = true) by (rewrite <- Z.negb_even, Ev; reflexivity).
  apply Z.odd_spec in Hodd. destruct Hodd as [h Hh].
  destruct (Z.compare_spec (2 * k + 1) nb), (Z.compare_spec (2 * k) nb);
    try reflexivity; lia.
Qed.

Lemma rne_bit_half q r t :
  0 <= r < t -> 2 * Z.abs ((q + rne_bit q r t) * t - (q * t + r)) <= t.
Proof.
  intros Hr. unfold rne_bit.
  destruct (Z.compare_spec (2 * r) t); [destruct (Z.even q)| |]; nia.
Qed.

Lemma SFdiv_normal m1 e1 m2 e2 :
  2 ^ (prec - 1) <= Z.pos m1 < 2 ^ prec ->
  2 ^ (prec - 1) <= Z.pos m2 < 2 ^ prec ->
  emin <= e1 - e2 - prec ->
  exists m j, 0 <= j <= 2 /\
    SFdiv prec emax (S754_finite false m1 e1) (S754_finite false m2 e2) =
      bra_result prec emax false m (e1 - e2 - prec + j) /\
    2 ^ (prec - 1) <= m < 2 ^ prec /\
    2 * Z.abs (m * 2 ^ j * Z.pos m2 - Z.pos m1 * 2 ^ prec) <= Z.pos m2 * 2 ^ j.
Proof.
  intros Hm1 Hm2 He.
  pose proof (pow2_pos (prec - 1) ltac:(lia)) as Hpp.
  pose proof (pow2_pos prec ltac:(lia)) as Hp.
  assert (E2 : 2 ^ prec = 2 ^ (prec - 1) * 2).
  { replace prec with (prec - 1 + 1) at 1 by lia. rewrite Z.pow_add_r by lia.
    reflexivity. }
  unfold SFdiv, SFdiv_core_binary.
  rewrite !Zdigits2_log2 by lia.
  rewrite (log2_digits_unique (Z.pos m1) prec) by lia.
  rewrite (log2_digits_unique (Z.pos m2) prec) by lia.
  replace (Z.min (fexp prec emax (prec + e1 - (prec + e2))) (e1 - e2))
    with (e1 - e2 - prec) by (unfold fexp; lia).
  replace (e1 - e2 - (e1 - e2 - prec)) with prec by lia.
  assert (Hsh : match prec with
                | 0 => Z.pos m1
                | Z.pos _ => Z.shiftl (Z.pos m1) prec
                | Z.neg _ => 0
                end = Z.pos m1 * 2 ^ prec).
  { destruct prec eqn:Ep; try lia. apply Z.shiftl_mul_pow2. lia. }
  rewrite Hsh. clear Hsh.
  set (m' := Z.pos m1 * 2 ^ prec).
  set (e' := e1 - e2 - prec).
  pose proof (Z_div_mod m' (Z.pos m2) ltac:(lia)) as Hdm.
  assert (Eq : fst (Z.div_eucl m' (Z.pos m2)) = m' / Z.pos m2) by reflexivity.
  destruct (Z.div_eucl m' (Z.pos m2)) as [q r]. simpl fst in Eq.
  destruct Hdm as [Hdm Hr]. simpl xorb.
  rewrite new_location_spec by lia.
  rewrite bra_spec; [| rewrite Eq; apply Z.div_pos; unfold m'; lia | lia].
  cbv zeta.
  assert (Hq1 : 2 ^ (prec - 1) <= q).
  { rewrite Eq. apply Z.div_le_lower_bound; [lia|]. unfold m'. nia. }
  assert (Hq2 : q < 2 ^ (prec + 1)).
  { rewrite Eq. apply Z.div_lt_upper_bound; [lia|].
    rewrite Z.pow_add_r by lia. unfold m'. nia. }
  rewrite (Zdigits2_log2 q) by lia.
  destruct (Z_lt_le_dec q (2 ^ prec)) as [Hlt|Hge].
  - rewrite (log2_digits_unique q prec) by lia.
    replace (Z.max 0 (fexp prec emax (prec + e') - e')) with 0
      by (unfold fexp; lia).
    change (2 ^ 0) with 1. rewrite Z.div_1_r, Z.mod_1_r, Z.mul_0_l, Z.add_0_l.
    rewrite Z.mul_1_l, Z.add_0_r.
    pose proof (rne_bit_range q r (Z.pos m2)) as Hb.
    pose proof (rne_bit_half q r (Z.pos m2) ltac:(lia)) as Hh.
    set (M := q + rne_bit q r (Z.pos m2)) in *.
    destruct (renorm M e' ltac:(lia) He) as (j & Hj & -> & HMj & HMe).
    exists (M / 2 ^ j), j.
    split; [lia|]. split; [f_equal; lia|]. split; [lia|].
    rewrite HMe, Hdm. pose proof (pow2_pos j ltac:(lia)). nia.
  - rewrite (log2_digits_unique q (prec + 1));
      [| lia | rewrite Z.add_simpl_r; lia].
    replace (Z.max 0 (fexp prec emax (prec + 1 + e') - e')) with 1
      by (unfold fexp; lia).
    change (2 ^ 1) with 2.
    pose proof (Z.div_mod q 2 ltac:(lia)) as Hq.
    pose proof (Z.mod_pos_bound q 2 ltac:(lia)) as Hq'.
    assert (HQ : 2 ^ (prec - 1) <= q / 2 < 2 ^ prec).
    { split; [apply Z.div_le_lower_bound; lia|].
      apply Z.div_lt_upper_bound; [lia|].
      rewrite Z.pow_add_r in Hq2 by lia. lia. }
    pose proof (rne_bit_range (q / 2) (q mod 2 * Z.pos m2 + r) (2 * Z.pos m2)) as Hb.
    pose proof (rne_bit_half (q / 2) (q mod 2 * Z.pos m2 + r) (2 * Z.pos m2)
                  ltac:(nia)) as Hh.
    set (M := q / 2 + rne_bit (q / 2) (q mod 2 * Z.pos m2 + r) (2 * Z.pos m2)) in *.
    destruct (renorm M (e' + 1) ltac:(lia) ltac:(lia)) as (j & Hj & -> & HMj & HMe).
    exists (M / 2 ^ j), (1 + j).
    split; [lia|]. split; [f_equal; lia|]. split; [lia|].
    rewrite Z.pow_add_r by lia. change (2 ^ 1) with 2.
    replace (M / 2 ^ j * (2 * 2 ^ j)) with (M / 2 ^ j * 2 ^ j * 2) by ring.
    rewrite HMe, Hdm. pose proof (pow2_pos j ltac:(lia)).
    replace (Z.pos m2 * q + r)
      with (q / 2 * (2 * Z.pos m2) + (q mod 2 * Z.pos m2 + r)) by nia.
    nia.
Qed.


Lemma of_Z_normal a :
  0 < a < 2 ^ prec ->
  binary_normalize prec emax a 0 false =
  S754_finite false (Z.to_pos (a * 2 ^ (prec - (Z.log2 a + 1))))
    (Z.log2 a + 1 - prec).
Proof.
  intros [Ha Hb]. destruct a as [|m|m]; try lia.
  unfold binary_normalize, binary_round.
  pose proof (digits2_pos_log2 m) as HD.
  set (D := Z.pos (digits2_pos m)) in *. rewrite <- HD.
  assert (HDp : 1 <= D <= prec).
  { split; [unfold D; lia|]. rewrite HD.
    pose proof (proj1 (Z.log2_lt_pow2 (Z.pos m) prec Ha) Hb). lia. }
  replace (fexp prec emax (D + 0)) with (D - prec) by (unfold fexp, SpecFloat.emin; lia).
  unfold shl_align.
  destruct (D - prec - 0) as [|p|d] eqn:E; try lia.
  - rewrite bra_exact;
      [| lia | simpl Zdigits2; fold D; unfold fexp, SpecFloat.emin; lia].
    unfold bra_result.
    replace (0 <=? emax - prec) with true by (symmetry; apply Z.leb_le; lia).
    replace (prec - D) with 0 by lia. rewrite Z.pow_0_r, Z.mul_1_r.
    replace (D - prec) with 0 by lia. reflexivity.
  - change (Pos.iter xO m d) with (shift_pos d m).
    assert (Hmz : Z.pos (shift_pos d m) = Z.pos m * 2 ^ (prec - D)).
    { rewrite shift_pos_correct, Z.pow_pos_fold.
      replace (prec - D) with (Z.pos d) by lia. ring. }
    rewrite bra_exact; [| lia |].
    2:{ rewrite Zdigits2_log2, Hmz, Z.log2_mul_pow2 by lia.
        unfold fexp, SpecFloat.emin. lia. }
    unfold bra_result.
    replace (D - prec <=? emax - prec) with true by (symmetry; apply Z.leb_le; lia).
    rewrite <- Hmz. reflexivity.
Qed.

Lemma of_Z_normal_bounds a :
  0 < a < 2 ^ prec ->
  2 ^ (prec - 1) <= a * 2 ^ (prec - (Z.log2 a + 1)) < 2 ^ prec.
Proof.
  intros [Ha Hb]. pose proof (log2_bounds a Ha) as [Hlo Hhi].
  pose proof (Z.log2_nonneg a) as Hl.
  pose proof (proj1 (Z.log2_lt_pow2 a prec Ha) Hb) as Hlp.
  set (c := prec - (Z.log2 a + 1)).
  pose proof (pow2_pos c ltac:(unfold c; lia)) as Hc.
  replace (prec - 1) with (Z.log2 a + c) by (unfold c; lia).
  replace (2 ^ prec) with (2 ^ (Z.log2 a + 1 + c)) by (f_equal; unfold c; lia).
  rewrite !Z.pow_add_r by (unfold c; lia).
  rewrite Z.pow_add_r in Hhi by lia. split; nia.
Qed.

Lemma SFdiv_int a b :
  0 < a -> a <= b -> b < 2 ^ prec ->
  exists m e,
    SFdiv prec emax (binary_normalize prec emax a 0 false)
                    (binary_normalize prec emax b 0 false) =
      S754_finite false m e /\
    2 ^ (prec - 1) <= Z.pos m < 2 ^ prec /\ e <= 1 - prec /\
    2 * Z.abs (Z.pos m * b - a * 2 ^ (- e)) <= b.
Proof.
  intros Ha Hab Hb.
  rewrite !of_Z_normal by lia.
  pose proof (of_Z_normal_bounds a ltac:(lia)) as Hma.
  pose proof (of_Z_normal_bounds b ltac:(lia)) as Hmb.
  pose proof (Z.log2_nonneg a) as Hla.
  pose proof (Z.log2_le_mono a b Hab) as Hlab.
  pose proof (proj1 (Z.log2_lt_pow2 b prec ltac:(lia)) Hb) as Hlb.
  set (ca := prec - (Z.log2 a + 1)) in *. set (cb := prec - (Z.log2 b + 1)) in *.
  pose proof (pow2_pos ca ltac:(unfold ca; lia)) as Hca.
  pose proof (pow2_pos cb ltac:(unfold cb; lia)) as Hcb.
  destruct (SFdiv_normal (Z.to_pos (a * 2 ^ ca)) (Z.log2 a + 1 - prec)
              (Z.to_pos (b * 2 ^ cb)) (Z.log2 b + 1 - prec))
    as (m & j & Hj & Hdiv & Hm & Hbound).
  { rewrite Z2Pos.id by lia. exact Hma. }
  { rewrite Z2Pos.id by lia. exact Hmb. }
  { unfold SpecFloat.emin. lia. }
  rewrite !Z2Pos.id in Hbound by lia.
  pose proof (pow2_pos (prec - 1) ltac:(lia)) as Hpp.
  set (e := Z.log2 a + 1 - prec - (Z.log2 b + 1 - prec) - prec + j) in *.
  pose proof (pow2_pos j ltac:(lia)) as Hpj.
  assert (HE : 0 <= - e) by (unfold e; lia).
  assert (Hscale : 2 ^ ca * 2 ^ prec = 2 ^ (- e) * (2 ^ cb * 2 ^ j)).
  { rewrite <- !Z.pow_add_r by (unfold ca, cb; lia). f_equal. unfold e, ca, cb. lia. }
  assert (Hbound' : 2 * Z.abs (m * b - a * 2 ^ (- e)) <= b).
  { replace (m * 2 ^ j * (b * 2 ^ cb) - a * 2 ^ ca * 2 ^ prec)
      with ((m * b - a * 2 ^ (- e)) * (2 ^ cb * 2 ^ j)) in Hbound
      by (rewrite <- (Z.mul_assoc a), Hscale; ring).
    rewrite Z.abs_mul in Hbound.
    rewrite (Z.abs_eq (2 ^ cb * 2 ^ j)) in Hbound by nia.
    nia. }
  assert (He : e <= 1 - prec).
  { destruct (Z_le_gt_dec e (1 - prec)) as [|Hgt]; [assumption|exfalso].
    assert (HX : 2 ^ (- e) <= 2 ^ (prec - 2)) by (apply Z.pow_le_mono_r; lia).
    pose proof (pow2_pos (- e) HE) as HpE.
    pose proof (pow2_pos (prec - 2) ltac:(lia)) as Hp2.
    assert (E2 : 2 ^ (prec - 1) = 2 * 2 ^ (prec - 2)).
    { replace (prec - 1) with (1 + (prec - 2)) by lia.
      rewrite Z.pow_add_r by lia. reflexivity. }
    assert (HaX : a * 2 ^ (- e) <= b * 2 ^ (prec - 2))
      by (apply Z.mul_le_mono_nonneg; lia).
    nia. }
  destruct m as [|p|p]; try lia.
  exists p, e. split; [|auto].
  rewrite Hdiv. unfold bra_result.
  replace (e <=? emax - prec) with true by (symmetry; apply Z.leb_le; lia).
  reflexivity.
Qed.


Lemma valid_wfF x : valid_binary prec emax x = true -> wfF prec emax x.
Proof.
  destruct x as [s|s| |s m e]; simpl; auto.
  unfold bounded, canonical_mantissa. intros H.
  apply andb_true_iff in H as [H _]. apply Z.eqb_eq in H.
  pose proof (digits2_pos_log2 m) as HD. rewrite HD in H.
  unfold fexp in H. split; [lia|].
  apply Z.log2_lt_pow2; lia.
Qed.

Lemma SFadd_finite_inv x y :
  is_finite (SFadd prec emax x y) = true ->
  is_finite x = true /\ is_finite y = true.
Proof.
  intros H.
  destruct x as [sx|sx| |sx mx ex], y as [sy|sy| |sy my ey];
    try (split; reflexivity); exfalso; revert H;
    cbn [SFadd is_finite]; try discriminate;
    destruct sx, sy; discriminate.
Qed.

Lemma SFsub_finite_inv x y :
  is_finite (SFsub prec emax x y) = true ->
  is_finite x = true /\ is_finite y = true.
Proof.
  intros H.
  destruct x as [sx|sx| |sx mx ex], y as [sy|sy| |sy my ey];
    try (split; reflexivity); exfalso; revert H;
    cbn [SFsub is_finite]; try discriminate;
    destruct sx, sy; discriminate.
Qed.

Lemma of_Z_value u :
  Z.abs u < 2 ^ prec ->
  wfF prec emax (binary_normalize prec emax u 0 false) /\
  (is_finite (binary_normalize prec emax u 0 false) = true ->
   B2Z prec emax (binary_normalize prec emax u 0 false) = u * 2 ^ (- emin)).
Proof.
  intros Hu.
  destruct (binary_normalize_value u 0 ltac:(unfold SpecFloat.emin; lia)) as [Hw Hv].
  split; [exact Hw|]. intros Hfin. rewrite (Hv Hfin).
  replace (0 - emin) with (- emin) by lia.
  apply RNs_exact; [exact Hu | unfold SpecFloat.emin; lia].
Qed.

Lemma trunc_finite x z : trunc x = Some z -> is_finite x = true.
Proof. destruct x; simpl; congruence. Qed.

Lemma trunc_B2Z x z :
  wfF prec emax x -> trunc x = Some z ->
  z = Z.quot (B2Z prec emax x) (2 ^ (- emin)).
Proof.
  assert (Hemin : 0 <= - emin) by (unfold SpecFloat.emin; lia).
  pose proof (pow2_pos (- emin) Hemin) as Hp.
  destruct x as [s|s| |s m e]; simpl; try discriminate.
  - intros _ H. injection H as <-. rewrite Z.quot_0_l; lia.
  - intros [He Hm] H. injection H as <-.
    assert (Hq : Z.quot (Z.pos m * 2 ^ (e - emin)) (2 ^ (- emin)) =
                 if 0 <=? e then Z.pos m * 2 ^ e else Z.pos m / 2 ^ (- e)).
    { pose proof (pow2_pos (e - emin) ltac:(lia)) as Hpe.
      rewrite Z.quot_div_nonneg by nia.
      destruct (Z.leb_spec 0 e).
      - replace (e - emin) with (e + - emin) by lia.
        rewrite Z.pow_add_r, Z.mul_assoc by lia. apply Z.div_mul. lia.
      - replace (2 ^ (- emin)) with (2 ^ (- e) * 2 ^ (e - emin))
          by (rewrite <- Z.pow_add_r by lia; f_equal; lia).
        apply Z.div_mul_cancel_r; [apply Z.pow_nonzero; lia | lia]. }
    destruct s; simpl cond_Zopp.
    + rewrite Z.quot_opp_l by lia. rewrite Hq. reflexivity.
    + rewrite Hq. reflexivity.
Qed.

Lemma trunc_add_int a u r :
  wfF prec emax a -> Z.abs u < 2 ^ prec ->
  trunc (SFadd prec emax a (binary_normalize prec emax u 0 false)) = Some r ->
  r = Z.quot (RNs prec (B2Z prec emax a + u * 2 ^ (- emin))) (2 ^ (- emin)).
Proof.
  intros Ha Hu Hr.
  destruct (of_Z_value u Hu) as [Hwu Hvu].
  destruct (SFadd_value a _ Ha Hwu) as [Hw Hv].
  pose proof (trunc_finite _ _ Hr) as Hfin.
  destruct (SFadd_finite_inv _ _ Hfin) as [_ Hfu].
  rewrite (trunc_B2Z _ _ Hw Hr), (Hv Hfin), (Hvu Hfu). reflexivity.
Qed.

Lemma trunc_sub_int a u r :
  wfF prec emax a -> Z.abs u < 2 ^ prec ->
  trunc (SFsub prec emax a (binary_normalize prec emax u 0 false)) = Some r ->
  r = Z.quot (RNs prec (B2Z prec emax a - u * 2 ^ (- emin))) (2 ^ (- emin)).
Proof.
  intros Ha Hu Hr.
  destruct (of_Z_value u Hu) as [Hwu Hvu].
  destruct (SFsub_value a _ Ha Hwu) as [Hw Hv].
  pose proof (trunc_finite _ _ Hr) as Hfin.
  destruct (SFsub_finite_inv _ _ Hfin) as [_ Hfu].
  rewrite (trunc_B2Z _ _ Hw Hr), (Hv Hfin), (Hvu Hfu). reflexivity.
Qed.

Lemma quot_RNs_mono z z' :
  z <= z' ->
  Z.quot (RNs prec z) (2 ^ (- emin)) <= Z.quot (RNs prec z') (2 ^ (- emin)).
Proof.
  intros H. apply Z.quot_le_mono.
  - apply pow2_pos. unfold SpecFloat.emin. lia.
  - apply RNs_mono. exact H.
Qed.


(** *** Canonical results: validity, finiteness and comparison *)

Lemma binary_round_shape s m e :
  emin <= e ->
  exists M E,
    binary_round prec emax s m e = bra_result prec emax s M E /\
    0 < M < 2 ^ prec /\ emin <= E /\ (E = emin \/ 2 ^ (prec - 1) <= M) /\
    M * 2 ^ (E - emin) = RN prec (Z.pos m * 2 ^ (e - emin)).
Proof.
  intros He. unfold binary_round.
  pose proof (digits2_pos_log2 m) as HD.
  pose proof (log2_bounds (Z.pos m) ltac:(lia)) as [Hlo Hhi].
  set (D := Z.pos (digits2_pos m)) in *. rewrite <- HD in Hhi.
  replace (Z.log2 (Z.pos m)) with (D - 1) in Hlo by lia.
  set (f := fexp prec emax (D + e)).
  assert (Hf : f = Z.max (D + e - prec) emin) by reflexivity.
  unfold shl_align.
  destruct (f - e) as [|p|d] eqn:Hfe.
  - rewrite bra_exact; [| lia | simpl Zdigits2; fold D; fold f; lia].
    assert (Hb : Z.pos m < 2 ^ prec).
    { apply Z.lt_le_trans with (1 := Hhi). apply Z.pow_le_mono_r; lia. }
    exists (Z.pos m), e. split; [reflexivity|]. split; [lia|]. split; [lia|].
    split.
    + destruct (Z.eq_dec e emin); [left; assumption|right].
      replace (prec - 1) with (D - 1) by lia. exact Hlo.
    + rewrite RN_exact by lia. reflexivity.
  - change loc_Exact with (loc_frac 0 1).
    rewrite bra_spec by lia. cbv zeta.
    simpl Zdigits2. fold D. fold f.
    replace (Z.max 0 (f - e)) with (D - prec) by lia.
    assert (Hk : 0 < D - prec) by lia.
    rewrite !Z.mul_1_r, !Z.add_0_r.
    replace (e + (D - prec)) with f by lia.
    pose proof (RN_normal (Z.pos m) ltac:(lia) ltac:(lia)) as HRN.
    cbv zeta in HRN. rewrite <- HD in HRN.
    set (m2 := Z.pos m / 2 ^ (D - prec) +
               rne_bit (Z.pos m / 2 ^ (D - prec)) (Z.pos m mod 2 ^ (D - prec))
                 (2 ^ (D - prec))) in *.
    destruct HRN as (HRN & Hm2lo & Hm2hi).
    pose proof (pow2_pos (prec - 1) ltac:(lia)) as Hpp.
    assert (Hval : RN prec (Z.pos m * 2 ^ (e - emin)) = m2 * 2 ^ (f - emin)).
    { rewrite RN_scale, HRN by lia. rewrite <- Z.mul_assoc, <- Z.pow_add_r by lia.
      do 2 f_equal. lia. }
    destruct (renorm m2 f ltac:(lia) ltac:(lia)) as (j & Hj & -> & HMj & HMe).
    exists (m2 / 2 ^ j), (f + j). split; [reflexivity|].
    split; [lia|]. split; [lia|]. split; [right; lia|].
    rewrite Hval. replace (f + j - emin) with (j + (f - emin)) by lia.
    rewrite Z.pow_add_r, Z.mul_assoc, HMe by lia. reflexivity.
  - change (Pos.iter xO m d) with (shift_pos d m).
    assert (Hmz : Z.pos (shift_pos d m) = Z.pos m * 2 ^ (e - f)).
    { rewrite shift_pos_correct, Z.pow_pos_fold.
      replace (e - f) with (Z.pos d) by lia. ring. }
    assert (Hdz : Zdigits2 (Z.pos (shift_pos d m)) = D + (e - f)).
    { rewrite Zdigits2_log2 by lia. rewrite Hmz, Z.log2_mul_pow2 by lia. lia. }
    rewrite bra_exact; [| lia | rewrite Hdz; replace (D + (e - f) + f) with (D + e) by lia; fold f; lia].
    assert (Hb : Z.pos (shift_pos d m) < 2 ^ prec).
    { rewrite Hmz. apply Z.lt_le_trans with (2 ^ D * 2 ^ (e - f)).
      - apply Z.mul_lt_mono_pos_r; [apply pow2_pos; lia | lia].
      - rewrite <- Z.pow_add_r by lia. apply Z.pow_le_mono_r; lia. }
    exists (Z.pos (shift_pos d m)), f. split; [reflexivity|].
    split; [lia|]. split; [lia|]. split.
    + destruct (Z.eq_dec f emin); [left; assumption|right].
      rewrite Hmz. replace (prec - 1) with (D - 1 + (e - f)) by lia.
      rewrite Z.pow_add_r by lia.
      apply Z.mul_le_mono_nonneg_r; [apply Z.lt_le_incl, pow2_pos; lia | exact Hlo].
    + assert (Hb' : Z.pos m < 2 ^ prec).
      { apply Z.lt_le_trans with (1 := Hhi). apply Z.pow_le_mono_r; lia. }
      rewrite RN_exact by lia.
      rewrite Hmz, <- Z.mul_assoc, <- Z.pow_add_r by lia. do 2 f_equal. lia.
Qed.

Lemma valid_finite_inv s m e :
  valid_binary prec emax (S754_finite s m e) = true ->
  emin <= e <= emax - prec /\ Z.pos m < 2 ^ prec /\
  (e = emin \/ 2 ^ (prec - 1) <= Z.pos m).
Proof.
  simpl. unfold bounded, canonical_mantissa. intros H.
  apply andb_true_iff in H as [H1 H2]. apply Z.eqb_eq in H1. apply Z.leb_le in H2.
  pose proof (digits2_pos_log2 m) as HD. rewrite HD in H1.
  pose proof (log2_bounds (Z.pos m) ltac:(lia)) as [Hlo Hhi].
  unfold fexp in H1. fold emin in H1.
  split; [lia|]. split; [apply Z.log2_lt_pow2; lia|].
  destruct (Z.eq_dec e emin); [left; assumption|right].
  replace (prec - 1) with (Z.log2 (Z.pos m)) by lia. exact Hlo.
Qed.

Lemma bra_result_valid s M E :
  0 < M < 2 ^ prec -> emin <= E -> (E = emin \/ 2 ^ (prec - 1) <= M) ->
  valid_binary prec emax (bra_result prec emax s M E) = true.
Proof.
  intros HM HE Hc. unfold bra_result. destruct M as [|p|p]; try reflexivity.
  destruct (Z.leb_spec E (emax - prec)); [|reflexivity].
  simpl. unfold bounded, canonical_mantissa.
  apply andb_true_iff. split; [|apply Z.leb_le; assumption].
  apply Z.eqb_eq. rewrite digits2_pos_log2.
  pose proof (proj1 (Z.log2_lt_pow2 (Z.pos p) prec ltac:(lia)) ltac:(lia)) as Hl.
  unfold fexp. fold emin. destruct Hc as [->|Hc]; [lia|].
  pose proof (proj1 (Z.log2_le_pow2 (Z.pos p) (prec - 1) ltac:(lia)) Hc). lia.
Qed.

Lemma binary_round_valid s m e :
  emin <= e -> valid_binary prec emax (binary_round prec emax s m e) = true.
Proof.
  intros He. destruct (binary_round_shape s m e He) as (M & E & -> & HM & HE & Hc & _).
  apply bra_result_valid; assumption.
Qed.

Lemma binary_round_finite s m e :
  emin <= e -> RN prec (Z.pos m * 2 ^ (e - emin)) < 2 ^ (emax - emin) ->
  is_finite (binary_round prec emax s m e) = true.
Proof.
  intros He Hb.
  destruct (binary_round_shape s m e He) as (M & E & -> & HM & HE & Hc & Hv).
  rewrite <- Hv in Hb. unfold bra_result. destruct M as [|p|p]; try lia.
  destruct (Z.leb_spec E (emax - prec)) as [|Hgt]; [reflexivity|exfalso].
  assert (Hemin : emin <= emax - prec) by (unfold SpecFloat.emin; lia).
  destruct Hc as [->|Hc]; [lia|].
  assert (HX : 2 ^ (emax - emin) <= Z.pos p * 2 ^ (E - emin)); [|lia].
  replace (emax - emin) with (prec - 1 + (emax - prec + 1 - emin)) by lia.
  rewrite Z.pow_add_r by lia.
  pose proof (pow2_pos (prec - 1) ltac:(lia)).
  pose proof (pow2_pos (emax - prec + 1 - emin) ltac:(lia)).
  assert (2 ^ (emax - prec + 1 - emin) <= 2 ^ (E - emin))
    by (apply Z.pow_le_mono_r; lia).
  apply Z.mul_le_mono_nonneg; lia.
Qed.

Lemma RN_below n k : 0 <= n < 2 ^ k -> 0 <= k -> RN prec n <= 2 ^ k.
Proof.
  intros [Hn Hb] Hk. destruct (Z.eq_dec n 0) as [->|Hn0].
  - rewrite RN_0. apply Z.lt_le_incl, pow2_pos. exact Hk.
  - pose proof (RN_binade n ltac:(lia)) as [_ H].
    apply Z.le_trans with (1 := H). apply Z.pow_le_mono_r; [lia|].
    pose proof (proj1 (Z.log2_lt_pow2 n k ltac:(lia)) Hb). lia.
Qed.

Lemma binary_normalize_valid z e :
  emin <= e -> valid_binary prec emax (binary_normalize prec emax z e false) = true.
Proof.
  intros He. destruct z; unfold binary_normalize;
    [reflexivity | apply binary_round_valid | apply binary_round_valid]; exact He.
Qed.

Lemma binary_normalize_finite z e :
  emin <= e -> Z.abs z * 2 ^ (e - emin) < 2 ^ (emax - emin - 1) ->
  is_finite (binary_normalize prec emax z e false) = true.
Proof.
  intros He Hb.
  assert (Hk : 0 <= emax - emin - 1) by (unfold SpecFloat.emin; lia).
  pose proof (pow2_pos (e - emin) ltac:(lia)) as Hp.
  assert (Hlt : 2 ^ (emax - emin - 1) < 2 ^ (emax - emin))
    by (apply Z.pow_lt_mono_r; lia).
  destruct z as [|m|m]; unfold binary_normalize; [reflexivity| |];
    apply binary_round_finite; try exact He;
    apply Z.le_lt_trans with (2 := Hlt); apply RN_below; try exact Hk;
    (split; [lia|exact Hb]).
Qed.

Lemma SFadd_valid x y :
  valid_binary prec emax x = true -> valid_binary prec emax y = true ->
  valid_binary prec emax (SFadd prec emax x y) = true.
Proof.
  intros Hx Hy.
  pose proof (valid_wfF x Hx) as Hwx. pose proof (valid_wfF y Hy) as Hwy.
  destruct x as [sx|sx| |sx mx ex], y as [sy|sy| |sy my ey];
    try reflexivity; try assumption.
  - destruct sx, sy; reflexivity.
  - destruct sx, sy; reflexivity.
  - destruct Hwx, Hwy. unfold SFadd. apply binary_normalize_valid. lia.
Qed.

Lemma SFsub_valid x y :
  valid_binary prec emax x = true -> valid_binary prec emax y = true ->
  valid_binary prec emax (SFsub prec emax x y) = true.
Proof.
  intros Hx Hy.
  pose proof (valid_wfF x Hx) as Hwx. pose proof (valid_wfF y Hy) as Hwy.
  destruct x as [sx|sx| |sx mx ex], y as [sy|sy| |sy my ey];
    try reflexivity; try assumption.
  - destruct sx, sy; reflexivity.
  - destruct sx, sy; reflexivity.
  - destruct Hwx, Hwy. unfold SFsub. apply binary_normalize_valid. lia.
Qed.

Lemma SFadd_finite x y :
  wfF prec emax x -> wfF prec emax y ->
  is_finite x = true -> is_finite y = true ->
  Z.abs (B2Z prec emax x + B2Z prec emax y) < 2 ^ (emax - emin - 1) ->
  is_finite (SFadd prec emax x y) = true.
Proof.
  intros Hx Hy Hfx Hfy Hb.
  destruct x as [sx|sx| |sx mx ex], y as [sy|sy| |sy my ey]; try discriminate.
  - destruct sx, sy; reflexivity.
  - reflexivity.
  - reflexivity.
  - destruct Hx as [Hex Hmx], Hy as [Hey Hmy]. unfold SFadd.
    set (ez := Z.min ex ey). apply binary_normalize_finite; [unfold ez; lia|].
    rewrite <- (Z.abs_eq (2 ^ (ez - emin)))
      by (apply Z.lt_le_incl, pow2_pos; unfold ez; lia).
    rewrite <- Z.abs_mul, Z.mul_add_distr_r.
    rewrite !aligned_value by (unfold ez; lia). exact Hb.
Qed.

Lemma SFsub_finite x y :
  wfF prec emax x -> wfF prec emax y ->
  is_finite x = true -> is_finite y = true ->
  Z.abs (B2Z prec emax x - B2Z prec emax y) < 2 ^ (emax - emin - 1) ->
  is_finite (SFsub prec emax x y) = true.
Proof.
  intros Hx Hy Hfx Hfy Hb.
  destruct x as [sx|sx| |sx mx ex], y as [sy|sy| |sy my ey]; try discriminate.
  - destruct sx, sy; reflexivity.
  - reflexivity.
  - reflexivity.
  - destruct Hx as [Hex Hmx], Hy as [Hey Hmy]. unfold SFsub.
    set (ez := Z.min ex ey). apply binary_normalize_finite; [unfold ez; lia|].
    rewrite <- (Z.abs_eq (2 ^ (ez - emin)))
      by (apply Z.lt_le_incl, pow2_pos; unfold ez; lia).
    rewrite <- Z.abs_mul, Z.mul_sub_distr_r.
    rewrite !aligned_value by (unfold ez; lia). exact Hb.
Qed.

Lemma canonical_compare m1 e1 m2 e2 :
  emin <= e1 -> Z.pos m1 < 2 ^ prec -> (e1 = emin \/ 2 ^ (prec - 1) <= Z.pos m1) ->
  emin <= e2 -> Z.pos m2 < 2 ^ prec -> (e2 = emin \/ 2 ^ (prec - 1) <= Z.pos m2) ->
  match e1 ?= e2 with
  | Lt => Lt
  | Gt => Gt
  | Eq => Pos.compare_cont Eq m1 m2
  end = (Z.pos m1 * 2 ^ (e1 - emin) ?= Z.pos m2 * 2 ^ (e2 - emin)).
Proof.
  intros He1 Hm1 Hc1 He2 Hm2 Hc2.
  assert (E2 : 2 ^ prec = 2 ^ (prec - 1) * 2).
  { replace prec with (prec - 1 + 1) at 1 by lia. rewrite Z.pow_add_r by lia.
    reflexivity. }
  assert (Hstep : forall ma ea mb eb,
    emin <= ea -> ea < eb -> Z.pos ma < 2 ^ prec -> 2 ^ (prec - 1) <= Z.pos mb ->
    Z.pos ma * 2 ^ (ea - emin) < Z.pos mb * 2 ^ (eb - emin)).
  { intros ma ea mb eb Ha Hab Hma Hmb.
    pose proof (pow2_pos (ea - emin) ltac:(lia)) as Hpa.
    replace (eb - emin) with (eb - ea + (ea - emin)) by lia.
    rewrite Z.pow_add_r by lia.
    assert (HX : 2 ^ 1 <= 2 ^ (eb - ea)) by (apply Z.pow_le_mono_r; lia).
    rewrite Z.pow_1_r in HX.
    assert (HY : 2 ^ (prec - 1) * 2 <= Z.pos mb * 2 ^ (eb - ea))
      by (apply Z.mul_le_mono_nonneg; lia).
    rewrite Z.mul_assoc. apply Z.mul_lt_mono_pos_r; lia. }
  destruct (Z.compare_spec e1 e2) as [E|E|E].
  - subst e2. rewrite Pos.compare_cont_spec. cbn [Pos.switch_Eq].
    pose proof (pow2_pos (e1 - emin) ltac:(lia)) as Hp.
    rewrite Pos2Z.inj_compare.
    destruct (Z.compare_spec (Z.pos m1) (Z.pos m2)) as [Em|Em|Em]; symmetry.
    + rewrite Em. apply Z.compare_refl.
    + apply Z.compare_lt_iff. nia.
    + apply Z.compare_gt_iff. nia.
  - symmetry. apply Z.compare_lt_iff.
    apply Hstep; lia.
  - symmetry. apply Z.compare_gt_iff.
    apply Hstep; lia.
Qed.

Lemma SFcompare_valid x y :
  valid_binary prec emax x = true -> valid_binary prec emax y = true ->
  is_finite x = true -> is_finite y = true ->
  SFcompare x y = Some (B2Z prec emax x ?= B2Z prec emax y).
Proof.
  intros Hx Hy Hfx Hfy.
  destruct x as [sx|sx| |sx mx ex], y as [sy|sy| |sy my ey]; try discriminate.
  - reflexivity.
  - apply valid_finite_inv in Hy as (He & Hm & Hc).
    pose proof (pow2_pos (ey - emin) ltac:(lia)).
    cbn [SFcompare B2Z]. f_equal. symmetry.
    destruct sy; cbn [cond_Zopp];
      [apply Z.compare_gt_iff | apply Z.compare_lt_iff]; nia.
  - apply valid_finite_inv in Hx as (He & Hm & Hc).
    pose proof (pow2_pos (ex - emin) ltac:(lia)).
    cbn [SFcompare B2Z]. f_equal. symmetry.
    destruct sx; cbn [cond_Zopp];
      [apply Z.compare_lt_iff | apply Z.compare_gt_iff]; nia.
  - apply valid_finite_inv in Hx as (Hex & Hmx & Hcx).
    apply valid_finite_inv in Hy as (Hey & Hmy & Hcy).
    pose proof (pow2_pos (ex - emin) ltac:(lia)).
    pose proof (pow2_pos (ey - emin) ltac:(lia)).
    pose proof (canonical_compare mx ex my ey ltac:(lia) Hmx Hcx ltac:(lia) Hmy Hcy)
      as Hcmp.
    cbn [SFcompare B2Z]. f_equal.
    destruct sx, sy; cbn [cond_Zopp].
    + rewrite Z.compare_opp.
      rewrite (Z.compare_antisym (Z.pos mx * 2 ^ (ex - emin))), <- Hcmp.
      destruct (ex ?= ey); reflexivity.
    + symmetry. apply Z.compare_lt_iff. nia.
    + symmetry. apply Z.compare_gt_iff. nia.
    + exact Hcmp.
Qed.

(** Sign of the result of [binary_round_aux]. *)
Lemma binary_round_aux_sign s mx ex l :
  binary_round_aux prec emax s mx ex l =
  match binary_round_aux prec emax false mx ex l with
  | S754_zero _ => S754_zero s
  | S754_infinity _ => S754_infinity s
  | S754_nan => S754_nan
  | S754_finite _ m e => S754_finite s m e
  end.
Proof.
  unfold binary_round_aux.
  destruct (shr_fexp prec emax mx ex l) as [mrs' e'].
  destruct (shr_fexp prec emax _ e' loc_Exact) as [mrs'' e''].
  destruct (shr_m mrs''); try reflexivity.
  destruct (e'' <=? emax - prec); reflexivity.
Qed.

(** Quotient of two positive integers, the numerator below [2 ^ (prec - 2)]:
    a normal number within half a unit in the last place of the exact
    quotient. *)
Lemma SFdiv_int_any a b :
  0 < a < 2 ^ (prec - 2) -> 0 < b < 2 ^ prec ->
  exists m e,
    SFdiv prec emax (binary_normalize prec emax a 0 false)
                    (binary_normalize prec emax b 0 false) =
      S754_finite false m e /\
    valid_binary prec emax (S754_finite false m e) = true /\
    2 ^ (prec - 1) <= Z.pos m < 2 ^ prec /\ emin <= e < 0 /\ b < 2 ^ (- e) /\
    2 * Z.abs (Z.pos m * b - a * 2 ^ (- e)) <= b.
Proof.
  intros [Ha Ha2] [Hb Hb2].
  assert (Ha3 : a < 2 ^ prec).
  { apply Z.lt_trans with (1 := Ha2). apply Z.pow_lt_mono_r; lia. }
  rewrite !of_Z_normal by lia.
  pose proof (of_Z_normal_bounds a ltac:(lia)) as Hma.
  pose proof (of_Z_normal_bounds b ltac:(lia)) as Hmb.
  pose proof (Z.log2_nonneg a) as Hla.
  pose proof (Z.log2_nonneg b) as Hlb0.
  pose proof (proj1 (Z.log2_lt_pow2 a (prec - 2) ltac:(lia)) Ha2) as Hla2.
  pose proof (proj1 (Z.log2_lt_pow2 b prec ltac:(lia)) Hb2) as Hlb.
  pose proof (log2_bounds b Hb) as [_ Hbhi].
  set (ca := prec - (Z.log2 a + 1)) in *. set (cb := prec - (Z.log2 b + 1)) in *.
  pose proof (pow2_pos ca ltac:(unfold ca; lia)) as Hca.
  pose proof (pow2_pos cb ltac:(unfold cb; lia)) as Hcb.
  destruct (SFdiv_normal (Z.to_pos (a * 2 ^ ca)) (Z.log2 a + 1 - prec)
              (Z.to_pos (b * 2 ^ cb)) (Z.log2 b + 1 - prec))
    as (m & j & Hj & Hdiv & Hm & Hbound).
  { rewrite Z2Pos.id by lia. exact Hma. }
  { rewrite Z2Pos.id by lia. exact Hmb. }
  { unfold SpecFloat.emin. lia. }
  rewrite !Z2Pos.id in Hbound by lia.
  pose proof (pow2_pos (prec - 1) ltac:(lia)) as Hpp.
  set (e := Z.log2 a + 1 - prec - (Z.log2 b + 1 - prec) - prec + j) in *.
  pose proof (pow2_pos j ltac:(lia)) as Hpj.
  assert (HE : Z.log2 b + 1 <= - e) by (unfold e; lia).
  assert (Hemin : emin <= e) by (unfold e, SpecFloat.emin; lia).
  assert (Hscale : 2 ^ ca * 2 ^ prec = 2 ^ (- e) * (2 ^ cb * 2 ^ j)).
  { rewrite <- !Z.pow_add_r by (unfold ca, cb; lia). f_equal. unfold e, ca, cb. lia. }
  assert (Hbound' : 2 * Z.abs (m * b - a * 2 ^ (- e)) <= b).
  { replace (m * 2 ^ j * (b * 2 ^ cb) - a * 2 ^ ca * 2 ^ prec)
      with ((m * b - a * 2 ^ (- e)) * (2 ^ cb * 2 ^ j)) in Hbound
      by (rewrite <- (Z.mul_assoc a), Hscale; ring).
    rewrite Z.abs_mul in Hbound.
    rewrite (Z.abs_eq (2 ^ cb * 2 ^ j)) in Hbound by nia.
    nia. }
  assert (Hbe : b < 2 ^ (- e)).
  { apply Z.lt_le_trans with (1 := Hbhi). apply Z.pow_le_mono_r; lia. }
  pose proof (bra_result_valid false m e ltac:(lia) Hemin ltac:(right; lia)) as Hval.
  destruct m as [|p|p]; try lia.
  exists p, e.
  assert (Hres : bra_result prec emax false (Z.pos p) e = S754_finite false p e).
  { unfold bra_result.
    replace (e <=? emax - prec) with true by (symmetry; apply Z.leb_le; lia).
    reflexivity. }
  rewrite Hres in Hval. rewrite Hdiv, Hres.
  repeat split; try assumption; lia.
Qed.

(** *** Division never hits a rounding tie *)

Lemma odd_factor_pow2 k :
  0 <= k -> forall q x y, (2 * q + 1) * x = y * 2 ^ k -> exists z, x = z * 2 ^ k.
Proof.
  intros Hk. pattern k. apply natlike_ind; [| |exact Hk]; clear k Hk.
  - intros q x y _. exists x. rewrite Z.pow_0_r. ring.
  - intros k Hk IH q x y H. rewrite Z.pow_succ_r in H by exact Hk.
    assert (Hev : Z.even x = true).
    { assert (He : Z.even ((2 * q + 1) * x) = true).
      { rewrite H. rewrite Z.even_mul, (Z.even_mul 2). apply orb_true_r. }
      rewrite Z.even_mul in He.
      replace (Z.even (2 * q + 1)) with false in He; [exact He|].
      symmetry. rewrite Z.add_comm. rewrite Z.even_add_mul_2. reflexivity. }
    apply Z.even_spec in Hev as [x' ->].
    destruct (IH q x' y ltac:(nia)) as [z ->].
    exists z. rewrite Z.pow_succ_r by exact Hk. ring.
Qed.

Lemma rne_bit_half_strict q r t :
  0 <= r < t -> 2 * r <> t ->
  2 * Z.abs ((q + rne_bit q r t) * t - (q * t + r)) < t.
Proof.
  intros Hr Hne. unfold rne_bit.
  destruct (Z.compare_spec (2 * r) t); [lia| |]; nia.
Qed.

Lemma SFdiv_normal_strict m1 e1 m2 e2 :
  2 ^ (prec - 1) <= Z.pos m1 < 2 ^ prec ->
  2 ^ (prec - 1) <= Z.pos m2 < 2 ^ prec ->
  emin <= e1 - e2 - prec ->
  exists m j, 0 <= j <= 2 /\
    SFdiv prec emax (S754_finite false m1 e1) (S754_finite false m2 e2) =
      bra_result prec emax false m (e1 - e2 - prec + j) /\
    2 ^ (prec - 1) <= m < 2 ^ prec /\
    2 * Z.abs (m * 2 ^ j * Z.pos m2 - Z.pos m1 * 2 ^ prec) < Z.pos m2 * 2 ^ j.
Proof.
  intros Hm1 Hm2 He.
  pose proof (pow2_pos (prec - 1) ltac:(lia)) as Hpp.
  pose proof (pow2_pos prec ltac:(lia)) as Hp.
  assert (E2 : 2 ^ prec = 2 ^ (prec - 1) * 2).
  { replace prec with (prec - 1 + 1) at 1 by lia. rewrite Z.pow_add_r by lia.
    reflexivity. }
  assert (Hnodiv : forall k z, prec <= k -> Z.pos m2 <> z * 2 ^ k).
  { intros k z Hk Hz.
    assert (2 ^ prec <= 2 ^ k) by (apply Z.pow_le_mono_r; lia).
    assert (0 < z) by nia. nia. }
  unfold SFdiv, SFdiv_core_binary.
  rewrite !Zdigits2_log2 by lia.
  rewrite (log2_digits_unique (Z.pos m1) prec) by lia.
  rewrite (log2_digits_unique (Z.pos m2) prec) by lia.
  replace (Z.min (fexp prec emax (prec + e1 - (prec + e2))) (e1 - e2))
    with (e1 - e2 - prec) by (unfold fexp; lia).
  replace (e1 - e2 - (e1 - e2 - prec)) with prec by lia.
  assert (Hsh : match prec with
                | 0 => Z.pos m1
                | Z.pos _ => Z.shiftl (Z.pos m1) prec
                | Z.neg _ => 0
                end = Z.pos m1 * 2 ^ prec).
  { destruct prec eqn:Ep; try lia. apply Z.shiftl_mul_pow2. lia. }
  rewrite Hsh. clear Hsh.
  set (m' := Z.pos m1 * 2 ^ prec).
  set (e' := e1 - e2 - prec).
  pose proof (Z_div_mod m' (Z.pos m2) ltac:(lia)) as Hdm.
  assert (Eq : fst (Z.div_eucl m' (Z.pos m2)) = m' / Z.pos m2) by reflexivity.
  destruct (Z.div_eucl m' (Z.pos m2)) as [q r]. simpl fst in Eq.
  destruct Hdm as [Hdm Hr]. simpl xorb.
  rewrite new_location_spec by lia.
  rewrite bra_spec; [| rewrite Eq; apply Z.div_pos; unfold m'; lia | lia].
  cbv zeta.
  assert (Hq1 : 2 ^ (prec - 1) <= q).
  { rewrite Eq. apply Z.div_le_lower_bound; [lia|]. unfold m'. nia. }
  assert (Hq2 : q < 2 ^ (prec + 1)).
  { rewrite Eq. apply Z.div_lt_upper_bound; [lia|].
    rewrite Z.pow_add_r by lia. unfold m'. nia. }
  rewrite (Zdigits2_log2 q) by lia.
  destruct (Z_lt_le_dec q (2 ^ prec)) as [Hlt|Hge].
  - rewrite (log2_digits_unique q prec) by lia.
    replace (Z.max 0 (fexp prec emax (prec + e') - e')) with 0
      by (unfold fexp; lia).
    change (2 ^ 0) with 1. rewrite Z.div_1_r, Z.mod_1_r, Z.mul_0_l, Z.add_0_l.
    rewrite Z.mul_1_l, Z.add_0_r.
    assert (Hnt : 2 * r <> Z.pos m2).
    { intros Ht.
      destruct (odd_factor_pow2 (prec + 1) ltac:(lia) q (Z.pos m2) (Z.pos m1))
        as [z Hz].
      - rewrite Z.pow_add_r, Z.pow_1_r by lia. unfold m' in Hdm. lia.
      - exact (Hnodiv (prec + 1) z ltac:(lia) Hz). }
    pose proof (rne_bit_range q r (Z.pos m2)) as Hb.
    pose proof (rne_bit_half_strict q r (Z.pos m2) ltac:(lia) Hnt) as Hh.
    set (M := q + rne_bit q r (Z.pos m2)) in *.
    destruct (renorm M e' ltac:(lia) He) as (j & Hj & -> & HMj & HMe).
    exists (M / 2 ^ j), j.
    split; [lia|]. split; [f_equal; lia|]. split; [lia|].
    rewrite HMe, Hdm. pose proof (pow2_pos j ltac:(lia)). nia.
  - rewrite (log2_digits_unique q (prec + 1));
      [| lia | rewrite Z.add_simpl_r; lia].
    replace (Z.max 0 (fexp prec emax (prec + 1 + e') - e')) with 1
      by (unfold fexp; lia).
    change (2 ^ 1) with 2.
    pose proof (Z.div_mod q 2 ltac:(lia)) as Hq.
    pose proof (Z.mod_pos_bound q 2 ltac:(lia)) as Hq'.
    assert (HQ : 2 ^ (prec - 1) <= q / 2 < 2 ^ prec).
    { split; [apply Z.div_le_lower_bound; lia|].
      apply Z.div_lt_upper_bound; [lia|].
      rewrite Z.pow_add_r in Hq2 by lia. lia. }
    assert (Hnt : 2 * (q mod 2 * Z.pos m2 + r) <> 2 * Z.pos m2).
    { intros Ht.
      assert (Hq1' : q mod 2 = 1) by nia.
      assert (Hr0 : r = 0) by nia.
      destruct (odd_factor_pow2 prec ltac:(lia) (q / 2) (Z.pos m2) (Z.pos m1))
        as [z Hz].
      - unfold m' in Hdm. nia.
      - exact (Hnodiv prec z ltac:(lia) Hz). }
    pose proof (rne_bit_range (q / 2) (q mod 2 * Z.pos m2 + r) (2 * Z.pos m2)) as Hb.
    pose proof (rne_bit_half_strict (q / 2) (q mod 2 * Z.pos m2 + r) (2 * Z.pos m2)
                  ltac:(nia) Hnt) as Hh.
    set (M := q / 2 + rne_bit (q / 2) (q mod 2 * Z.pos m2 + r) (2 * Z.pos m2)) in *.
    destruct (renorm M (e' + 1) ltac:(lia) ltac:(lia)) as (j & Hj & -> & HMj & HMe).
    exists (M / 2 ^ j), (1 + j).
    split; [lia|]. split; [f_equal; lia|]. split; [lia|].
    rewrite Z.pow_add_r by lia. change (2 ^ 1) with 2.
    replace (M / 2 ^ j * (2 * 2 ^ j)) with (M / 2 ^ j * 2 ^ j * 2) by ring.
    rewrite HMe, Hdm. pose proof (pow2_pos j ltac:(lia)).
    replace (Z.pos m2 * q + r)
      with (q / 2 * (2 * Z.pos m2) + (q mod 2 * Z.pos m2 + r)) by nia.
    nia.
Qed.

(** Conversion of a positive integer that need not fit the mantissa: a normal
    number whose value is the integer rounded to [prec] bits. *)
Lemma of_Z_round_normal a :
  0 < a < 2 ^ (emax - 1) ->
  exists m e,
    binary_normalize prec emax a 0 false = S754_finite false m e /\
    2 ^ (prec - 1) <= Z.pos m < 2 ^ prec /\ 1 - prec <= e <= emax - prec /\
    Z.pos m * 2 ^ (e + prec - 1) = RN prec a * 2 ^ (prec - 1).
Proof.
  intros [Ha Hb]. destruct a as [|p|p]; try lia.
  unfold binary_normalize.
  assert (Hemin : emin <= 0) by (unfold SpecFloat.emin; lia).
  assert (Hemin' : prec <= - emin) by (unfold SpecFloat.emin; lia).
  destruct (binary_round_shape false p 0 Hemin) as (M & E & -> & HM & HE & Hc & Hv).
  replace (0 - emin) with (- emin) in Hv by lia.
  rewrite RN_scale in Hv by lia.
  pose proof (RN_binade (Z.pos p) ltac:(lia)) as [Hlo Hhi].
  pose proof (Z.log2_nonneg (Z.pos p)) as Hl0.
  pose proof (proj1 (Z.log2_lt_pow2 (Z.pos p) (emax - 1) ltac:(lia)) Hb) as Hl1.
  pose proof (pow2_pos (Z.log2 (Z.pos p)) Hl0) as Hpl.
  pose proof (pow2_pos (- emin) ltac:(lia)) as Hpe.
  pose proof (pow2_pos (E - emin) ltac:(lia)) as HpE.
  pose proof (pow2_pos (prec - 1) ltac:(lia)) as Hpp.
  set (R := RN prec (Z.pos p)) in *.
  assert (HR1 : 1 <= R) by lia.
  assert (Hnormal : 2 ^ (prec - 1) <= M).
  { destruct Hc as [->|Hc]; [exfalso|exact Hc].
    rewrite Z.sub_diag, Z.pow_0_r, Z.mul_1_r in Hv.
    assert (2 ^ prec <= 2 ^ (- emin)) by (apply Z.pow_le_mono_r; lia).
    nia. }
  assert (HE1 : 1 - prec <= E).
  { destruct (Z_le_gt_dec (1 - prec) E) as [|Hgt]; [assumption|exfalso].
    assert (2 ^ (E - emin) * 2 ^ prec <= 2 ^ (- emin)).
    { rewrite <- Z.pow_add_r by lia. apply Z.pow_le_mono_r; lia. }
    nia. }
  assert (HE2 : E <= emax - prec).
  { destruct (Z_le_gt_dec E (emax - prec)) as [|Hgt]; [assumption|exfalso].
    assert (H1 : R * 2 ^ (- emin) <= 2 ^ (emax - 1) * 2 ^ (- emin)).
    { apply Z.mul_le_mono_nonneg_r; [lia|].
      apply Z.le_trans with (1 := Hhi). apply Z.pow_le_mono_r; lia. }
    assert (H2 : 2 ^ (prec - 1) * 2 ^ (emax - prec + 1 - emin) <= M * 2 ^ (E - emin)).
    { assert (2 ^ (emax - prec + 1 - emin) <= 2 ^ (E - emin))
        by (apply Z.pow_le_mono_r; lia).
      pose proof (pow2_pos (emax - prec + 1 - emin) ltac:(lia)).
      apply Z.mul_le_mono_nonneg; lia. }
    rewrite <- !Z.pow_add_r in H1, H2 by lia.
    replace (prec - 1 + (emax - prec + 1 - emin)) with (emax - emin) in H2 by lia.
    assert (2 ^ (emax - 1 + - emin) < 2 ^ (emax - emin))
      by (apply Z.pow_lt_mono_r; lia).
    lia. }
  destruct M as [|m|m]; try lia.
  exists m, E. unfold bra_result.
  rewrite (proj2 (Z.leb_le E (emax - prec)) HE2).
  split; [reflexivity|]. split; [lia|]. split; [lia|].
  set (c := - emin - prec + 1).
  pose proof (pow2_pos c ltac:(unfold c; lia)) as Hpc.
  apply (Z.mul_cancel_r _ _ (2 ^ c)); [lia|].
  rewrite <- !Z.mul_assoc, <- !Z.pow_add_r by (unfold c; lia).
  replace (E + prec - 1 + c) with (E - emin) by (unfold c; lia).
  replace (prec - 1 + c) with (- emin) by (unfold c; lia).
  exact Hv.
Qed.

End Round.

(** ** binary64 and binary32 instances *)

Lemma double_valid_wfF x : Double.valid x -> wfF 53 1024 x.
Proof. apply valid_wfF. Qed.

Lemma double_half_wfF : wfF 53 1024 Double.half.
Proof. apply double_valid_wfF. reflexivity. Qed.

Lemma double_add_wfF x y :
  wfF 53 1024 x -> wfF 53 1024 y -> wfF 53 1024 (Double.add x y).
Proof. intros Hx Hy. apply (SFadd_value 53 1024); try lia; assumption. Qed.

Lemma double_to_int_trunc x z :
  Double.to_int x = Some z -> trunc x = Some z /\ INT_MIN <= z <= INT_MAX.
Proof.
  unfold Double.to_int. destruct (trunc x) as [t|]; [|discriminate].
  destruct (Z.leb_spec INT_MIN t), (Z.leb_spec t INT_MAX); simpl; try discriminate.
  intros E; injection E as <-. auto.
Qed.

(** The row [static_cast<int>(a + u)] is monotone in the integer [u]. *)
Lemma double_row_add_mono a u v p q :
  wfF 53 1024 a -> u <= v -> Z.abs u < 2 ^ 53 -> Z.abs v < 2 ^ 53 ->
  Double.to_int (Double.add a (Double.of_Z u)) = Some p ->
  Double.to_int (Double.add a (Double.of_Z v)) = Some q ->
  p <= q.
Proof.
  intros Ha Huv Hu Hv Hp Hq.
  apply double_to_int_trunc in Hp as [Hp _], Hq as [Hq _].
  apply (trunc_add_int 53 1024) in Hp; try lia; try assumption.
  apply (trunc_add_int 53 1024) in Hq; try lia; try assumption.
  subst p q. apply quot_RNs_mono; try lia;
    pose proof (pow2_pos (- emin 53 1024) ltac:(unfold emin; lia)); nia.
Qed.

Lemma double_row_sub_mono a u v p q :
  wfF 53 1024 a -> u <= v -> Z.abs u < 2 ^ 53 -> Z.abs v < 2 ^ 53 ->
  Double.to_int (Double.sub a (Double.of_Z v)) = Some p ->
  Double.to_int (Double.sub a (Double.of_Z u)) = Some q ->
  p <= q.
Proof.
  intros Ha Huv Hu Hv Hp Hq.
  apply double_to_int_trunc in Hp as [Hp _], Hq as [Hq _].
  apply (trunc_sub_int 53 1024) in Hp; try lia; try assumption.
  apply (trunc_sub_int 53 1024) in Hq; try lia; try assumption.
  subst p q. apply quot_RNs_mono; try lia;
    pose proof (pow2_pos (- emin 53 1024) ltac:(unfold emin; lia)); nia.
Qed.

Lemma double_row_sub_add a w p q :
  wfF 53 1024 a -> 0 <= w -> w < 2 ^ 53 ->
  Double.to_int (Double.sub a (Double.of_Z w)) = Some p ->
  Double.to_int (Double.add a (Double.of_Z w)) = Some q ->
  p <= q.
Proof.
  intros Ha Hw0 Hw Hp Hq.
  apply double_to_int_trunc in Hp as [Hp _], Hq as [Hq _].
  apply (trunc_sub_int 53 1024) in Hp; try lia; try assumption.
  apply (trunc_add_int 53 1024) in Hq; try lia; try assumption.
  subst p q. apply quot_RNs_mono; try lia;
    pose proof (pow2_pos (- emin 53 1024) ltac:(unfold emin; lia)); nia.
Qed.

(** ** clamp and the row lookup table *)

Lemma clamp_mono lower upper a b :
  a <= b -> clamp lower upper a <= clamp lower upper b.
Proof. unfold clamp. lia. Qed.

Lemma clamp_range lower upper a :
  lower <= upper -> lower <= clamp lower upper a <= upper.
Proof. unfold clamp. lia. Qed.

Lemma upper_row_int kImageHeight :
  1 <= kImageHeight <= 2 ^ 31 ->
  int_of_uint32 (to_uint32 (kImageHeight - 1)) = kImageHeight - 1.
Proof.
  intros H. unfold int_of_uint32, to_uint32.
  rewrite (Z.mod_small (kImageHeight - 1)) by lia.
  rewrite Z.mod_small by lia. lia.
Qed.

Lemma nondecreasing_lookup (l : list Z) (i j : nat) a b :
  nondecreasing l = true -> (i <= j)%nat ->
  l !! i = Some a -> l !! j = Some b -> a <= b.
Proof.
  revert i j a b. induction l as [|x l IH]; intros i j a b Hs Hij Hi Hj.
  - discriminate.
  - assert (Hs' : nondecreasing l = true).
    { destruct l; [reflexivity|]. simpl in Hs.
      apply andb_true_iff in Hs as [_ Hs]. exact Hs. }
    assert (Hhead : forall k c, l !! k = Some c -> x <= c).
    { clear -Hs IH Hs'. intros k c Hk. destruct l as [|y l]; [discriminate|].
      simpl in Hs. apply andb_true_iff in Hs as [Hxy _]. apply Z.leb_le in Hxy.
      destruct k as [|k].
      - simpl in Hk. injection Hk as <-. exact Hxy.
      - pose proof (IH 0%nat (S k) y c Hs' ltac:(lia) eq_refl Hk). lia. }
    destruct i as [|i], j as [|j]; simpl in Hi, Hj.
    + injection Hi as <-. injection Hj as <-. lia.
    + injection Hi as <-. eapply Hhead; eauto.
    + lia.
    + eapply (IH i j); eauto. lia.
Qed.

Lemma lut_at_nondecreasing l i j a b :
  nondecreasing l = true -> i <= j ->
  lut_at l i = Some a -> lut_at l j = Some b -> a <= b.
Proof.
  unfold lut_at. intros Hs Hij.
  destruct (Z.ltb_spec i 0); [discriminate|].
  destruct (Z.ltb_spec j 0); [discriminate|].
  apply nondecreasing_lookup; [assumption | lia].
Qed.

(** What [LUT_indices] returns, row by row. *)
Lemma LUT_indices_inv kImageHeight pos w t b :
  LUT_indices kImageHeight pos w = Some (t, b) ->
  exists rt rb,
    Double.to_int (Double.sub (Double.add (snd pos) Double.half) (Double.of_Z w)) = Some rt /\
    Double.to_int (Double.add (Double.add (snd pos) Double.half) (Double.of_Z w)) = Some rb /\
    t = clamp 0 (int_of_uint32 (to_uint32 (kImageHeight - 1))) rt /\
    b = clamp 0 (int_of_uint32 (to_uint32 (kImageHeight - 1))) rb.
Proof.
  unfold LUT_indices. cbv zeta.
  destruct (Double.to_int (Double.sub _ _)) as [rt|]; [|discriminate].
  destruct (Double.to_int (Double.add _ _)) as [rb|]; [|discriminate].
  intros H. injection H as <- <-. exists rt, rb. auto.
Qed.

Lemma LUT_indices_in_bounds kImageHeight pos w t b :
  Double.valid (snd pos) -> 0 < w <= INT_MAX -> 1 <= kImageHeight <= 2 ^ 31 ->
  LUT_indices kImageHeight pos w = Some (t, b) ->
  0 <= t /\ t <= b /\ b <= kImageHeight - 1.
Proof.
  intros Hy Hw HH Hi.
  apply LUT_indices_inv in Hi as (rt & rb & Ht & Hb & -> & ->).
  rewrite upper_row_int by exact HH.
  assert (Hrows : rt <= rb).
  { eapply (double_row_sub_add _ w); eauto.
    - apply double_add_wfF; [apply double_valid_wfF; exact Hy | apply double_half_wfF].
    - lia.
    - unfold INT_MAX in Hw. lia. }
  pose proof (clamp_range 0 (kImageHeight - 1) rt ltac:(lia)).
  pose proof (clamp_range 0 (kImageHeight - 1) rb ltac:(lia)).
  pose proof (clamp_mono 0 (kImageHeight - 1) rt rb Hrows). lia.
Qed.

(** ** The window query *)

Lemma getKeypointIteratorsInWindow_eq kImageHeight corner_row_LUT_ pos w t b :
  0 < w -> 1 <= kImageHeight <= 2 ^ 31 ->
  LUT_indices kImageHeight pos w = Some (t, b) ->
  0 <= t -> t <= b -> b <= kImageHeight - 1 ->
  getKeypointIteratorsInWindow kImageHeight corner_row_LUT_ pos w =
  match lut_at corner_row_LUT_ t, lut_at corner_row_LUT_ b with
  | Some it_begin, Some it_end => Ok (it_begin, it_end)
  | _, _ => Undefined
  end.
Proof.
  intros Hw HH Hi Ht Htb Hb. unfold getKeypointIteratorsInWindow.
  rewrite (proj2 (Z.ltb_lt 0 w) Hw), Hi. cbn [negb].
  destruct (lut_at corner_row_LUT_ t) as [ib|]; [|reflexivity].
  destruct (lut_at corner_row_LUT_ b) as [ie|]; [|reflexivity].
  unfold to_uint32. rewrite !Z.mod_small by lia.
  rewrite (proj2 (Z.leb_le t b)), (proj2 (Z.leb_le 0 b)), (proj2 (Z.leb_le 0 t)),
    (proj2 (Z.ltb_lt t kImageHeight)), (proj2 (Z.ltb_lt b kImageHeight)) by lia.
  reflexivity.
Qed.

(** The query returns as soon as the two row conversions are defined and
    the lookup table covers the image rows. *)
Lemma getKeypointIteratorsInWindow_returns kImageHeight corner_row_LUT_ pos w t b :
  Double.valid (snd pos) -> 0 < w <= INT_MAX -> 1 <= kImageHeight <= 2 ^ 31 ->
  kImageHeight <= Z.of_nat (length corner_row_LUT_) ->
  LUT_indices kImageHeight pos w = Some (t, b) ->
  exists it_begin it_end,
    getKeypointIteratorsInWindow kImageHeight corner_row_LUT_ pos w =
    Ok (it_begin, it_end).
Proof.
  intros Hy Hw HH Hlen Hi.
  destruct (LUT_indices_in_bounds _ _ _ _ _ Hy Hw HH Hi) as (Ht & Htb & Hb).
  rewrite (getKeypointIteratorsInWindow_eq _ _ _ _ t b) by (assumption || lia).
  unfold lut_at.
  rewrite (proj2 (Z.ltb_ge t 0)), (proj2 (Z.ltb_ge b 0)) by lia.
  destruct (lookup_lt_is_Some_2 corner_row_LUT_ (Z.to_nat t) ltac:(lia)) as [ib ->].
  destruct (lookup_lt_is_Some_2 corner_row_LUT_ (Z.to_nat b) ltac:(lia)) as [ie ->].
  eauto.
Qed.

(** C4 (amended): for a positive half window, an image height between 1 and
    2^31 (so that [kImageHeight - 1] fits the [int] parameter of [clamp]) and
    a predicted row whose two window bounds convert to [int], the row indices
    satisfy [0 <= top <= bottom <= kImageHeight - 1], and no [CHECK] of
    [getKeypointIteratorsInWindow] fires. *)
Theorem window_indices_in_bounds kImageHeight corner_row_LUT_ pos w t b :
  Double.valid (snd pos) -> 0 < w <= INT_MAX -> 1 <= kImageHeight <= 2 ^ 31 ->
  LUT_indices kImageHeight pos w = Some (t, b) ->
  (0 <= t /\ t <= b /\ b <= kImageHeight - 1) /\
  getKeypointIteratorsInWindow kImageHeight corner_row_LUT_ pos w <> CheckFailed.
Proof.
  intros Hy Hw HH Hi.
  destruct (LUT_indices_in_bounds _ _ _ _ _ Hy Hw HH Hi) as (Ht & Htb & Hb).
  split; [auto|].
  rewrite (getKeypointIteratorsInWindow_eq _ _ _ _ t b) by (assumption || lia).
  destruct (lut_at corner_row_LUT_ t), (lut_at corner_row_LUT_ b); discriminate.
Qed.

Lemma window_indices_in_bounds_witness :
  (0 <= 2 /\ 2 <= 6 /\ 6 <= 10 - 1) /\
  getKeypointIteratorsInWindow 10 [0; 0; 1; 1; 2; 3; 3; 3; 4; 5]
    (Double.zero, Double.of_Z 4) 2 <> CheckFailed.
Proof.
  apply (window_indices_in_bounds 10 [0; 0; 1; 1; 2; 3; 3; 3; 4; 5]
           (Double.zero, Double.of_Z 4) 2 2 6).
  - reflexivity.
  - unfold INT_MAX. lia.
  - lia.
  - reflexivity.
Defined.

(** C4 as stated fails for an image height above 2^31: [kImageHeight - 1]
    does not fit [int], the upper bound passed to [clamp] is negative and so
    are both indices. *)
Lemma window_indices_out_of_bounds :
  0 < 1 /\ 1 <= 4294967295 < 2 ^ 32 /\
  LUT_indices 4294967295 (Double.zero, Double.zero) 1 = Some (-2, -2) /\
  ~ (0 <= -2 /\ -2 <= 4294967295 - 1).
Proof. repeat split; try lia; try reflexivity. Qed.

(** C5: with a non-decreasing lookup table, the range [b1, e1) returned for
    the half window [h1] lies within the range [b2, e2) returned for any
    larger half window [h2], at every predicted position (a [double]; the half
    windows are [int]s). *)
Theorem window_monotone kImageHeight corner_row_LUT_ pos h1 h2 b1 e1 b2 e2 :
  Double.valid (snd pos) -> 0 < h1 -> h1 <= h2 -> h2 <= INT_MAX ->
  nondecreasing corner_row_LUT_ = true ->
  getKeypointIteratorsInWindow kImageHeight corner_row_LUT_ pos h1 = Ok (b1, e1) ->
  getKeypointIteratorsInWindow kImageHeight corner_row_LUT_ pos h2 = Ok (b2, e2) ->
  b2 <= b1 /\ e1 <= e2 /\ (forall i, b1 <= i < e1 -> b2 <= i < e2).
Proof.
  intros Hy Hh1 Hh12 Hh2 Hlut Hq1 Hq2.
  cut (b2 <= b1 /\ e1 <= e2); [intros [? ?]; repeat split; lia|].
  assert (Hinv : forall h b e,
    getKeypointIteratorsInWindow kImageHeight corner_row_LUT_ pos h = Ok (b, e) ->
    exists t bt, LUT_indices kImageHeight pos h = Some (t, bt) /\
      lut_at corner_row_LUT_ t = Some b /\ lut_at corner_row_LUT_ bt = Some e).
  { intros h b e. unfold getKeypointIteratorsInWindow.
    destruct (negb (0 <? h)); [discriminate|].
    destruct (LUT_indices kImageHeight pos h) as [[t bt]|]; [|discriminate].
    destruct (lut_at corner_row_LUT_ t) as [ib|] eqn:Eb; [|discriminate].
    destruct (lut_at corner_row_LUT_ bt) as [ie|] eqn:Ee; [|discriminate].
    repeat match goal with |- context [if ?c then _ else _] => destruct c end;
      try discriminate.
    intros E; injection E as <- <-. eauto. }
  apply Hinv in Hq1 as (t1 & bt1 & Hi1 & Hb1 & He1).
  apply Hinv in Hq2 as (t2 & bt2 & Hi2 & Hb2 & He2).
  apply LUT_indices_inv in Hi1 as (rt1 & rb1 & Ht1 & Hbt1 & -> & ->).
  apply LUT_indices_inv in Hi2 as (rt2 & rb2 & Ht2 & Hbt2 & -> & ->).
  assert (Ha : wfF 53 1024 (Double.add (snd pos) Double.half)).
  { apply double_add_wfF; [apply double_valid_wfF; exact Hy | apply double_half_wfF]. }
  unfold INT_MAX in Hh2.
  assert (Hrt : rt2 <= rt1).
  { apply (double_row_sub_mono _ h1 h2 rt2 rt1 Ha); auto; lia. }
  assert (Hrb : rb1 <= rb2).
  { apply (double_row_add_mono _ h1 h2 rb1 rb2 Ha); auto; lia. }
  split.
  - eapply lut_at_nondecreasing; [exact Hlut | | exact Hb2 | exact Hb1].
    apply clamp_mono. exact Hrt.
  - eapply lut_at_nondecreasing; [exact Hlut | | exact He1 | exact He2].
    apply clamp_mono. exact Hrb.
Qed.

Lemma window_monotone_witness :
  2 <= 3 /\ 5 <= 6 /\ (forall i, 3 <= i < 5 -> 2 <= i < 6).
Proof.
  apply (window_monotone 10 [0; 1; 2; 3; 4; 5; 6; 7; 8; 9]
           (Double.zero, Double.of_Z 4) 1 2 3 5 2 6).
  - reflexivity.
  - lia.
  - lia.
  - unfold INT_MAX. lia.
  - reflexivity.
  - reflexivity.
  - reflexivity.
Defined.




(** ** The ratio test *)

Lemma ratio_below_iff d1 d2 :
  0 < d2 -> (d1 # Z.to_pos d2 < 8 # 10)%Q <-> 10 * d1 < 8 * d2.
Proof.
  intros Hd. unfold Qlt. cbn [Qnum Qden]. rewrite Z2Pos.id by lia. lia.
Qed.

(** The [float] comparison of [ratioTest] in terms of integers, for every
    second-closest distance up to 11184810. *)
Lemma ratio_compare d1 d2 :
  0 <= d1 -> d1 <= d2 -> 0 < d2 -> d2 <= 11184810 ->
  Float.ltb (Float.div (Float.of_Z d1) (Float.of_Z d2)) kLoweRatio =
  (10 * d1 <? 8 * d2).
Proof.
  intros Hd1 Hd12 Hd2 Hb.
  destruct (Z.eq_dec d1 0) as [->|Hd10].
  { assert (E : Float.of_Z d2 = S754_finite false
                  (Z.to_pos (d2 * 2 ^ (24 - (Z.log2 d2 + 1)))) (Z.log2 d2 + 1 - 24)).
    { apply (of_Z_normal 24 128); lia. }
    rewrite E. cbn. symmetry. apply Z.ltb_lt. lia. }
  destruct (SFdiv_int 24 128 ltac:(lia) ltac:(lia) ltac:(lia) d1 d2
              ltac:(lia) Hd12 ltac:(lia))
    as (m & e & Hdiv & Hm & He & Hbound).
  unfold Float.div, Float.of_Z, Float.prec, Float.emax. rewrite Hdiv.
  unfold Float.ltb, SFltb, kLoweRatio, SFcompare.
  change (2 ^ (24 - 1)) with 8388608 in Hm. change (2 ^ 24) with 16777216 in Hm.
  set (P := Z.pos m * d2) in *.
  destruct (Z.compare_spec e (-24)) as [E|E|E].
  - subst e. change (2 ^ (- -24)) with 16777216 in Hbound.
    rewrite Pos.compare_cont_spec, Pos2Z.inj_compare.
    destruct (Z.compare_spec (Z.pos m) 13421773) as [Em|Em|Em]; cbn [Pos.switch_Eq].
    + assert (HP : P = 13421773 * d2) by (unfold P; rewrite Em; reflexivity).
      clearbody P. symmetry. apply Z.ltb_ge. lia.
    + assert (HP : P <= 13421772 * d2)
        by (unfold P; apply Z.mul_le_mono_nonneg_r; lia).
      clearbody P. symmetry. apply Z.ltb_lt. lia.
    + assert (HP : 13421774 * d2 <= P)
        by (unfold P; apply Z.mul_le_mono_nonneg_r; lia).
      clearbody P. symmetry. apply Z.ltb_ge. lia.
  - assert (HX : 2 ^ 25 <= 2 ^ (- e)) by (apply Z.pow_le_mono_r; lia).
    change (2 ^ 25) with 33554432 in HX.
    assert (HQ : d1 * 33554432 <= d1 * 2 ^ (- e))
      by (apply Z.mul_le_mono_nonneg_l; lia).
    assert (HP : P <= 16777215 * d2)
      by (unfold P; apply Z.mul_le_mono_nonneg_r; lia).
    clearbody P. symmetry. apply Z.ltb_lt. lia.
  - assert (Ee : e = -23) by lia. subst e.
    change (2 ^ (- -23)) with 8388608 in Hbound.
    assert (HP : 8388608 * d2 <= P)
      by (unfold P; apply Z.mul_le_mono_nonneg_r; lia).
    clearbody P. symmetry. apply Z.ltb_ge. lia.
Qed.

(** C2 (amended): for [unsigned int] distances [d1 <= d2], the test passes
    when [d2 > bits] and when [d2 = 0]; otherwise it returns the
    single-precision comparison [float(d1) / float(d2) < 0.8f], which for
    every second-closest distance up to 11184810 (all descriptor sizes in
    use) holds exactly when [d1 / d2 < 0.8]. Beyond that bound the
    single-precision quotient can round up to 0.8f. *)
Theorem ratioTest_law bits d1 d2 :
  0 <= d1 -> d1 <= d2 -> d2 < 2 ^ 32 ->
  (bits < d2 -> ratioTest bits d1 d2 = Ok true) /\
  (d2 = 0 -> ratioTest bits d1 d2 = Ok true) /\
  (d2 <= bits -> d2 <> 0 ->
   ratioTest bits d1 d2 =
     Ok (Float.ltb (Float.div (Float.of_Z d1) (Float.of_Z d2)) kLoweRatio) /\
   (d2 <= 11184810 ->
    exists r, ratioTest bits d1 d2 = Ok r /\
              (r = true <-> (d1 # Z.to_pos d2 < 8 # 10)%Q))).
Proof.
  intros Hd1 Hd12 Hb. unfold ratioTest.
  rewrite (proj2 (Z.leb_le d1 d2) Hd12). cbn [negb].
  split; [|split].
  - intros H. rewrite (proj2 (Z.ltb_lt bits d2) H). reflexivity.
  - intros ->. destruct (bits <? 0); reflexivity.
  - intros H1 H2. rewrite (proj2 (Z.ltb_ge bits d2) H1).
    rewrite (proj2 (Z.eqb_neq d2 0) H2).
    split; [reflexivity|]. intros H3.
    eexists. split; [reflexivity|].
    rewrite ratio_compare by lia. rewrite ratio_below_iff by lia.
    apply Z.ltb_lt.
Qed.

Lemma ratioTest_law_witness :
  (256 < 20 -> ratioTest 256 10 20 = Ok true) /\
  (20 = 0 -> ratioTest 256 10 20 = Ok true) /\
  (20 <= 256 -> 20 <> 0 ->
   ratioTest 256 10 20 =
     Ok (Float.ltb (Float.div (Float.of_Z 10) (Float.of_Z 20)) kLoweRatio) /\
   (20 <= 11184810 ->
    exists r, ratioTest 256 10 20 = Ok r /\
              (r = true <-> (10 # Z.to_pos 20 < 8 # 10)%Q))).
Proof.
  apply (ratioTest_law 256 10 20); lia.
Defined.

(** C2 as stated fails on large distances: 8947851 / 11184814 is below 0.8
    but the test rejects it. *)
Lemma ratioTest_law_counterexample :
  8947851 <= 11184814 /\ 11184814 <= 11184814 /\ 11184814 <> 0 /\
  (8947851 # Z.to_pos 11184814 < 8 # 10)%Q /\
  ratioTest 11184814 8947851 11184814 = Ok false.
Proof.
  repeat split; try lia; try reflexivity.
Qed.

(** C10: with [descriptor_size_bits = 0] the test passes for every pair of
    distances [d1 <= d2]. *)
Theorem ratioTest_zero_bits d1 d2 :
  0 <= d1 -> d1 <= d2 -> ratioTest 0 d1 d2 = Ok true.
Proof.
  intros Hd1 Hd12. unfold ratioTest.
  rewrite (proj2 (Z.leb_le d1 d2) Hd12). cbn [negb].
  destruct (Z.ltb_spec 0 d2); [reflexivity|].
  rewrite (proj2 (Z.eqb_eq d2 0)) by lia. reflexivity.
Qed.

Lemma ratioTest_zero_bits_witness : ratioTest 0 3 7 = Ok true.
Proof. apply (ratioTest_zero_bits 3 7); lia. Defined.

(** ** The matching score *)

(** The score of a positive number of matching bits: a normal number within
    half a unit in the last place of the exact quotient. *)
Lemma computeMatchingScore_spec a b :
  0 < a -> a <= b -> b < 2 ^ 53 ->
  exists m e,
    computeMatchingScore a b = S754_finite false m e /\
    2 ^ 52 <= Z.pos m < 2 ^ 53 /\ e <= -52 /\
    2 * Z.abs (Z.pos m * b - a * 2 ^ (- e)) <= b.
Proof.
  intros Ha Hab Hb.
  destruct (SFdiv_int 53 1024 ltac:(lia) ltac:(lia) ltac:(lia) a b)
    as (m & e & Hdiv & Hm & He & Hbound); try lia.
  exists m, e. auto.
Qed.

Lemma Qabs_frac_le n d k :
  2 * Z.abs n * Z.pos k <= Z.pos d ->
  (Qabs (n # d) <= 1 # (2 * k))%Q.
Proof.
  intros H. unfold Qabs, Qle. cbn [Qnum Qden]. lia.
Qed.

(** C3 (amended): for a count of matching bits [bits - d] that fits the
    [int] parameter, the score is the quotient [(bits - d) / bits] rounded to
    [double]: it is within 2^-53 of [1 - d / bits], equal to 1.0 for [d = 0]
    and to 0.0 for [d = bits]. *)
Theorem computeMatchingScore_rounded bits d :
  0 < bits < 2 ^ 32 -> 0 <= d <= bits -> bits - d <= INT_MAX ->
  is_finite (computeMatchingScore (bits - d) bits) = true /\
  (Qabs (B2Q (computeMatchingScore (bits - d) bits) - (1 - (d # Z.to_pos bits)))
     <= 1 # (2 ^ 53))%Q /\
  (d = 0 -> computeMatchingScore (bits - d) bits = Double.one) /\
  (d = bits -> computeMatchingScore (bits - d) bits = Double.zero).
Proof.
  intros Hbits Hd _.
  assert (Hside : (1 - (d # Z.to_pos bits) == (bits - d) # Z.to_pos bits)%Q).
  { unfold Qeq, Qminus, Qplus, Qopp. cbn [Qnum Qden].
    rewrite !Pos2Z.inj_mul, !Z2Pos.id by lia. ring. }
  assert (Hb53 : bits < 2 ^ 53) by lia.
  destruct (Z.eq_dec d bits) as [->|Hne].
  { rewrite Z.sub_diag.
    assert (E : computeMatchingScore 0 bits = Double.zero).
    { unfold computeMatchingScore, Double.div, Double.of_Z, Double.prec, Double.emax.
      rewrite (of_Z_normal 53 1024 ltac:(lia) ltac:(lia) ltac:(lia) bits) by lia.
      reflexivity. }
    rewrite E. split; [reflexivity|]. split; [|split].
    - rewrite Hside, Z.sub_diag. unfold Qle. cbn. lia.
    - intros ->. lia.
    - reflexivity. }
  destruct (computeMatchingScore_spec (bits - d) bits)
    as (m & e & Hs & Hm & He & Hbound); try lia.
  rewrite Hs. cbn [is_finite B2Q cond_Zopp].
  rewrite (proj2 (Z.leb_gt 0 e)) by lia.
  pose proof (pow2_pos (- e) ltac:(lia)) as HpE.
  assert (HX : 2 ^ 52 <= 2 ^ (- e)) by (apply Z.pow_le_mono_r; lia).
  split; [reflexivity|]. split; [|split].
  - rewrite Hside.
    assert (Hdiff :
      (Qmake (Z.pos m) (Z.to_pos (2 ^ (- e))) - Qmake (bits - d) (Z.to_pos bits) ==
       Qmake (Z.pos m * bits - (bits - d) * 2 ^ (- e))
             (Z.to_pos (2 ^ (- e)) * Z.to_pos bits))%Q).
    { unfold Qeq, Qminus, Qplus, Qopp. cbn [Qnum Qden].
      rewrite !Pos2Z.inj_mul, !Z2Pos.id by lia. ring. }
    rewrite Hdiff.
    change (2 ^ 53)%positive with (2 * 2 ^ 52)%positive.
    apply Qabs_frac_le.
    change (Z.pos (2 ^ 52)) with (2 ^ 52).
    rewrite Pos2Z.inj_mul, !Z2Pos.id by lia. nia.
  - intros ->. rewrite Z.sub_0_r in *.
    assert (Em : Z.pos m = 2 ^ (- e)) by nia.
    assert (Ee : - e = 52).
    { rewrite Em in Hm. destruct Hm as [_ Hm].
      apply Z.pow_lt_mono_r_iff in Hm; lia. }
    assert (e = -52) by lia. subst e.
    change (2 ^ (- -52)) with 4503599627370496 in Em.
    injection Em as ->. reflexivity.
  - intros ->. lia.
Qed.

Lemma computeMatchingScore_rounded_witness :
  is_finite (computeMatchingScore (256 - 26) 256) = true /\
  (Qabs (B2Q (computeMatchingScore (256 - 26) 256) - (1 - (26 # Z.to_pos 256)))
     <= 1 # (2 ^ 53))%Q /\
  (26 = 0 -> computeMatchingScore (256 - 26) 256 = Double.one) /\
  (26 = 256 -> computeMatchingScore (256 - 26) 256 = Double.zero).
Proof.
  apply (computeMatchingScore_rounded 256 26); unfold INT_MAX; lia.
Defined.

(** C3 as stated fails. For [bits = 3] and [d = 1] the score is the double
    next to 2/3, not 2/3; the double expression [1.0 - 1.0 / 3] is yet another
    number. For [bits = 4294967295] and [d = 0] the count of matching bits
    exceeds [INT_MAX]: the [int] parameter holds -1 and the score is negative,
    not 1. *)
Lemma computeMatchingScore_counterexample :
  0 < 3 /\ 0 <= 1 <= 3 /\
  ~ (B2Q (computeMatchingScore (3 - 1) 3) == 1 - (1 # 3))%Q /\
  computeMatchingScore (3 - 1) 3 <>
  Double.sub Double.one (Double.div (Double.of_Z 1) (Double.of_Z 3)) /\
  0 < 4294967295 /\ 0 <= 0 <= 4294967295 /\
  int_of_uint32 (4294967295 - 0) = -1 /\
  Double.ltb (computeMatchingScore (int_of_uint32 (4294967295 - 0)) 4294967295)
    Double.zero = true.
Proof.
  repeat split; try lia.
  - vm_compute. discriminate.
  - vm_compute. discriminate.
Qed.

(** ** addCandidate *)

Lemma addCandidate_inv md it s md' :
  addCandidate md it s = Ok md' ->
  score_in_range s /\
  md' = {| keypoint_match_candidates_frame1 :=
             keypoint_match_candidates_frame1 md ++ [it];
           match_candidate_matching_scores :=
             match_candidate_matching_scores md ++ [s] |}.
Proof.
  unfold addCandidate, score_in_range.
  destruct (Double.ltb Double.zero s); [|discriminate].
  destruct (Double.leb s Double.one); [|discriminate].
  cbn [negb]. intros H. injection H as <-. auto.
Qed.

Lemma addCandidate_ok md it s :
  score_in_range s ->
  addCandidate md it s =
  Ok {| keypoint_match_candidates_frame1 :=
          keypoint_match_candidates_frame1 md ++ [it];
        match_candidate_matching_scores :=
          match_candidate_matching_scores md ++ [s] |}.
Proof. intros [H1 H2]. unfold addCandidate. rewrite H1, H2. reflexivity. Qed.

Lemma addCandidate_recorded md it s md' :
  recorded_in_range md -> addCandidate md it s = Ok md' -> recorded_in_range md'.
Proof.
  intros Hmd H. apply addCandidate_inv in H as [Hs ->].
  unfold recorded_in_range. cbn. apply Forall_app. split; [exact Hmd|].
  constructor; [exact Hs | constructor].
Qed.

(** A score in range is positive and at most one, as a rational number. *)
Lemma score_in_range_value s :
  Double.valid s -> score_in_range s -> (0 < B2Q s /\ B2Q s <= 1)%Q.
Proof.
  intros Hv [H0 H1]. pose proof (double_valid_wfF s Hv) as Hw.
  destruct s as [sg|sg| |sg m e]; try discriminate.
  - destruct sg; discriminate.
  - destruct sg; [discriminate|]. clear H0. destruct Hw as [He Hm].
    unfold Double.leb, SFleb, Double.one, SFcompare in H1.
    cbn [B2Q cond_Zopp]. unfold Qlt, Qle.
    destruct (Z.compare_spec e (-52)) as [E|E|E]; try discriminate.
    + subst e. change (0 <=? -52) with false. cbn [Qnum Qden].
      change (Z.to_pos (2 ^ (- -52))) with 4503599627370496%positive.
      rewrite Pos.compare_cont_spec, Pos2Z.inj_compare in H1.
      destruct (Z.compare_spec (Z.pos m) 4503599627370496); try discriminate; lia.
    + rewrite (proj2 (Z.leb_gt 0 e)) by lia. cbn [Qnum Qden].
      assert (HX : 2 ^ 53 <= 2 ^ (- e)) by (apply Z.pow_le_mono_r; lia).
      rewrite Z2Pos.id by lia. lia.
Qed.

(** ** Exclusive assignment *)

Lemma exclusive_install remaining st idx_k j s :
  exclusive (idx_k :: remaining) st ->
  exclusive remaining (installAssignment st idx_k j s).
Proof.
  intros [Hinj Hnd Hdisj]. unfold installAssignment.
  cbn [app] in Hnd, Hdisj. apply NoDup_cons in Hnd as [Hfresh Hnd].
  assert (Hnew : forall j' s', frame1_idx_to_matches_iterator_map_ st !! j' = Some (idx_k, s') -> False).
  { intros j' s' H. apply (Hdisj idx_k); [exists j', s'; exact H | left]. }
  destruct (frame1_idx_to_matches_iterator_map_ st !! j) as [[incumbent current]|] eqn:Ej.
  - destruct (Double.ltb current s).
    + assert (Hinc : incumbent ∉ idx_k :: remaining ++ inferior_match_keypoint_idx_frame0_ st).
      { apply Hdisj. exists j, current. exact Ej. }
      split; cbn.
      * intros j1 j2 a s1 s2 H1 H2.
        apply lookup_insert_Some in H1 as [[<- E1]|[N1 H1]];
          apply lookup_insert_Some in H2 as [[<- E2]|[N2 H2]]; try reflexivity.
        -- injection E1 as <- <-. exfalso. eauto.
        -- injection E2 as <- <-. exfalso. eauto.
        -- eauto.
      * rewrite app_assoc. apply NoDup_app. split; [exact Hnd|]. split.
        -- intros x Hx Hx'. apply list_elem_of_singleton in Hx' as ->.
           apply Hinc. right. exact Hx.
        -- apply NoDup_singleton.
      * intros a (j' & s' & H). rewrite app_assoc.
        apply lookup_insert_Some in H as [[<- E]|[N H]].
        -- injection E as <- <-. intros Hin.
           apply elem_of_app in Hin as [Hin|Hin]; [contradiction|].
           apply list_elem_of_singleton in Hin as ->. apply Hinc. left.
        -- intros Hin. apply elem_of_app in Hin as [Hin|Hin].
           ++ apply (Hdisj a); [exists j', s'; exact H | right; exact Hin].
           ++ apply list_elem_of_singleton in Hin as ->.
              apply N. eapply Hinj; eauto.
    + split; cbn.
      * exact Hinj.
      * rewrite app_assoc. apply NoDup_app. split; [exact Hnd|]. split.
        -- intros x Hx Hx'. apply list_elem_of_singleton in Hx' as ->. contradiction.
        -- apply NoDup_singleton.
      * intros a Ha. rewrite app_assoc. intros Hin.
        apply elem_of_app in Hin as [Hin|Hin].
        -- apply (Hdisj a Ha). right. exact Hin.
        -- apply list_elem_of_singleton in Hin as ->. apply (Hdisj idx_k Ha). left.
  - split; cbn.
    + intros j1 j2 a s1 s2 H1 H2.
      apply lookup_insert_Some in H1 as [[<- E1]|[N1 H1]];
        apply lookup_insert_Some in H2 as [[<- E2]|[N2 H2]]; try reflexivity.
      * injection E1 as <- <-. exfalso. eauto.
      * injection E2 as <- <-. exfalso. eauto.
      * eauto.
    + exact Hnd.
    + intros a (j' & s' & H).
      apply lookup_insert_Some in H as [[<- E]|[N H]].
      * injection E as <- <-. exact Hfresh.
      * intros Hin. apply (Hdisj a); [exists j', s'; exact H | right; exact Hin].
Qed.

Lemma exclusive_keep remaining st idx_k :
  exclusive (idx_k :: remaining) st ->
  exclusive remaining
    {| frame1_idx_to_matches_iterator_map_ := frame1_idx_to_matches_iterator_map_ st;
       idx_frame0_to_attempted_match_data_map_ :=
         idx_frame0_to_attempted_match_data_map_ st;
       inferior_match_keypoint_idx_frame0_ :=
         inferior_match_keypoint_idx_frame0_ st ++ [idx_k] |}.
Proof.
  intros [Hinj Hnd Hdisj]. cbn [app] in Hnd, Hdisj.
  apply NoDup_cons in Hnd as [Hfresh Hnd].
  split; cbn.
  - exact Hinj.
  - rewrite app_assoc. apply NoDup_app. split; [exact Hnd|]. split.
    + intros x Hx Hx'. apply list_elem_of_singleton in Hx' as ->. contradiction.
    + apply NoDup_singleton.
  - intros a Ha. rewrite app_assoc. intros Hin.
    apply elem_of_app in Hin as [Hin|Hin].
    + apply (Hdisj a Ha). right. exact Hin.
    + apply list_elem_of_singleton in Hin as ->. apply (Hdisj idx_k Ha). left.
Qed.

Lemma exclusive_set_match_data remaining st mds :
  exclusive remaining st ->
  exclusive remaining
    {| frame1_idx_to_matches_iterator_map_ := frame1_idx_to_matches_iterator_map_ st;
       idx_frame0_to_attempted_match_data_map_ := mds;
       inferior_match_keypoint_idx_frame0_ := inferior_match_keypoint_idx_frame0_ st |}.
Proof. intros [Hinj Hnd Hdisj]. split; assumption. Qed.

Lemma exclusive_fresh n st :
  exclusive [] st -> visited_below n st -> exclusive [n] st.
Proof.
  intros [Hinj Hnd Hdisj] [Ha Hi]. cbn [app] in *. split; cbn [app].
  - exact Hinj.
  - apply NoDup_cons. split; [|exact Hnd]. intros Hin. apply Hi in Hin. lia.
  - intros a Has Hin. apply elem_of_cons in Hin as [->|Hin].
    + apply Ha in Has. lia.
    + exact (Hdisj a Has Hin).
Qed.

Lemma visited_install n st idx_k j s :
  visited_below n st -> idx_k < n ->
  visited_below n (installAssignment st idx_k j s).
Proof.
  intros [Ha Hi] Hk. unfold installAssignment.
  assert (Hins : forall a,
    assigned (<[j:=(idx_k, s)]> (frame1_idx_to_matches_iterator_map_ st)) a -> a < n).
  { intros a (j' & s' & H). apply lookup_insert_Some in H as [[<- E]|[N H]].
    - injection E as <- <-. exact Hk.
    - apply Ha. exists j', s'. exact H. }
  destruct (frame1_idx_to_matches_iterator_map_ st !! j) as [[incumbent current]|] eqn:Ej.
  - assert (Hinc : incumbent < n) by (apply Ha; exists j, current; exact Ej).
    destruct (Double.ltb current s); split; cbn; auto.
    + intros a Hin. apply elem_of_app in Hin as [Hin|Hin]; [auto|].
      apply list_elem_of_singleton in Hin as ->. exact Hinc.
    + intros a Hin. apply elem_of_app in Hin as [Hin|Hin]; [auto|].
      apply list_elem_of_singleton in Hin as ->. exact Hk.
  - split; cbn; auto.
Qed.

Lemma visited_mono n n' st : n <= n' -> visited_below n st -> visited_below n' st.
Proof.
  intros Hn [Ha Hi]. split; intros a H; [apply Ha in H | apply Hi in H]; lia.
Qed.

Lemma scores_install st idx_k j s :
  scores_in_range st -> score_in_range s ->
  scores_in_range (installAssignment st idx_k j s).
Proof.
  intros [Ht Hm] Hs. unfold installAssignment.
  assert (Hins : forall j' a s',
    <[j:=(idx_k, s)]> (frame1_idx_to_matches_iterator_map_ st) !! j' = Some (a, s') ->
    score_in_range s').
  { intros j' a s' H. apply lookup_insert_Some in H as [[<- E]|[N H]].
    - injection E as <- <-. exact Hs.
    - eapply Ht. exact H. }
  destruct (frame1_idx_to_matches_iterator_map_ st !! j) as [[incumbent current]|];
    [destruct (Double.ltb current s)|]; split; cbn; auto.
Qed.

(** ** The first pass and the rounds keep the assignment exclusive *)

Lemma recorded_default : recorded_in_range MatchData_default.
Proof. apply Forall_nil_2. Qed.

Lemma recordCandidates_inv tried md md' :
  recorded_in_range md -> recordCandidates tried md = Ok md' ->
  recorded_in_range md' /\ Forall (fun c : Candidate => score_in_range (snd (fst c))) tried.
Proof.
  revert md. induction tried as [|[[it s] passed] tried IH]; intros md Hmd H.
  - cbn in H. injection H as <-. auto.
  - cbn in H. destruct (addCandidate md it s) as [md1| |] eqn:E; try discriminate.
    cbn in H. pose proof (addCandidate_recorded _ _ _ _ Hmd E) as Hmd1.
    apply addCandidate_inv in E as [Hs _].
    destruct (IH md1 Hmd1 H) as [Hmd' Hall]. split; [exact Hmd'|].
    constructor; assumption.
Qed.

Lemma pickBetter_in_range best j s j' s' :
  (forall j0 s0, best = Some (j0, s0) -> score_in_range s0) ->
  score_in_range s ->
  pickBetter best j s = Some (j', s') -> score_in_range s'.
Proof.
  intros Hbest Hs. unfold pickBetter.
  destruct best as [[j0 s0]|].
  - destruct (Double.ltb s0 s); intros H; injection H as <- <-; eauto.
  - intros H; injection H as <- <-. exact Hs.
Qed.

Lemma highestScoringEligible_in_range kps tried best j s :
  Forall (fun c : Candidate => score_in_range (snd (fst c))) tried ->
  (forall j0 s0, best = Some (j0, s0) -> score_in_range s0) ->
  highestScoringEligible kps tried best = Ok (Some (j, s)) -> score_in_range s.
Proof.
  intros Hall. revert best.
  induction Hall as [|[[it s1] passed] tried Hs Hall IH]; intros best Hbest H.
  - cbn in H. injection H as ->. eauto.
  - cbn in H. destruct passed.
    + destruct (channel_index_at kps it) as [j1|]; [|discriminate].
      apply IH in H; [exact H|]. intros j0 s0. apply pickBetter_in_range; assumption.
    + apply IH in H; assumption.
Qed.

Lemma highestScoringRematch_in_range kps assignment stored best j s :
  Forall (fun p : KeyPointIterator * spec_float => score_in_range (snd p)) stored ->
  (forall j0 s0, best = Some (j0, s0) -> score_in_range s0) ->
  highestScoringRematch kps assignment stored best = Ok (Some (j, s)) ->
  score_in_range s.
Proof.
  intros Hall. revert best.
  induction Hall as [|[it s1] stored Hs Hall IH]; intros best Hbest H.
  - cbn in H. injection H as ->. eauto.
  - cbn [highestScoringRematch] in H.
    destruct (Double.leb (Double.of_float kMatchingThresholdBitsRatioStrict) s1).
    + destruct (channel_index_at kps it) as [j1|]; [|discriminate].
      apply IH in H; [exact H|].
      destruct (unclaimedOrWeaker assignment j1 s1); [|exact Hbest].
      intros j0 s0. apply pickBetter_in_range; assumption.
    + apply IH in H; assumption.
Qed.

Lemma zip_scores_in_range (its : list KeyPointIterator) (scores : list spec_float) :
  Forall score_in_range scores ->
  Forall (fun p : KeyPointIterator * spec_float => score_in_range (snd p))
    (zip its scores).
Proof.
  intros Hall. revert its.
  induction Hall as [|s scores Hs Hall IH]; intros [|it its]; cbn; constructor; auto.
Qed.

Lemma matchKeypoint_inv kps st idx_k tried st' :
  exclusive [] st -> visited_below idx_k st -> scores_in_range st ->
  matchKeypoint kps st idx_k tried = Ok st' ->
  exclusive [] st' /\ visited_below (idx_k + 1) st' /\ scores_in_range st'.
Proof.
  intros Hex Hvis Hsc H. unfold matchKeypoint in H.
  destruct (recordCandidates tried MatchData_default) as [md| |] eqn:Er;
    try discriminate. cbn in H.
  destruct (highestScoringEligible kps tried None) as [best| |] eqn:Eb;
    try discriminate. cbn in H.
  destruct (recordCandidates_inv _ _ _ recorded_default Er) as [Hmd Hall].
  set (st1 := {| frame1_idx_to_matches_iterator_map_ := frame1_idx_to_matches_iterator_map_ st;
                 idx_frame0_to_attempted_match_data_map_ :=
                   <[idx_k:=md]> (idx_frame0_to_attempted_match_data_map_ st);
                 inferior_match_keypoint_idx_frame0_ :=
                   inferior_match_keypoint_idx_frame0_ st |}) in *.
  assert (Hex1 : exclusive [] st1) by (apply exclusive_set_match_data; exact Hex).
  assert (Hvis1 : visited_below idx_k st1) by exact Hvis.
  assert (Hsc1 : scores_in_range st1).
  { destruct Hsc as [Ht Hm]. split; [exact Ht|]. cbn. intros i md0 Hi.
    apply lookup_insert_Some in Hi as [[<- <-]|[N Hi]]; eauto. }
  destruct best as [[j s]|]; injection H as <-.
  - assert (Hs : score_in_range s).
    { eapply highestScoringEligible_in_range; [exact Hall | | exact Eb]. discriminate. }
    split; [|split].
    + apply exclusive_install. apply exclusive_fresh; assumption.
    + apply visited_install; [|lia]. eapply visited_mono; [|exact Hvis1]. lia.
    + apply scores_install; assumption.
  - split; [exact Hex1|]. split; [|exact Hsc1].
    eapply visited_mono; [|exact Hvis1]. lia.
Qed.

Lemma matchKeypoints_inv kps idx_k attempts st st' :
  exclusive [] st -> visited_below idx_k st -> scores_in_range st ->
  matchKeypoints kps idx_k attempts st = Ok st' ->
  exclusive [] st' /\ scores_in_range st'.
Proof.
  revert idx_k st. induction attempts as [|tried attempts IH]; intros idx_k st Hex Hvis Hsc H.
  - cbn in H. injection H as <-. auto.
  - cbn in H. destruct (matchKeypoint kps st idx_k tried) as [st1| |] eqn:E;
      try discriminate. cbn in H.
    destruct (matchKeypoint_inv _ _ _ _ _ Hex Hvis Hsc E) as (Hex1 & Hvis1 & Hsc1).
    eapply IH; eauto.
Qed.

Lemma rematchKeypoint_inv kps acc idx_k acc' remaining :
  exclusive (idx_k :: remaining) (snd acc) -> scores_in_range (snd acc) ->
  rematchKeypoint kps acc idx_k = Ok acc' ->
  exclusive remaining (snd acc') /\ scores_in_range (snd acc').
Proof.
  intros Hex Hsc H. unfold rematchKeypoint in H. cbv zeta in H.
  set (md := default MatchData_default
               (idx_frame0_to_attempted_match_data_map_ (snd acc) !! idx_k)) in *.
  assert (Hmd : recorded_in_range md).
  { unfold md. destruct (idx_frame0_to_attempted_match_data_map_ (snd acc) !! idx_k)
      as [md0|] eqn:E; cbn.
    - destruct Hsc as [_ Hm]. eapply Hm. exact E.
    - apply recorded_default. }
  destruct (highestScoringRematch kps _ _ None) as [best| |] eqn:Eb;
    try discriminate. cbn in H.
  destruct best as [[j s]|]; injection H as <-; cbn [snd].
  - assert (Hs : score_in_range s).
    { eapply highestScoringRematch_in_range; [|  | exact Eb].
      - apply zip_scores_in_range. exact Hmd.
      - discriminate. }
    split; [apply exclusive_install; exact Hex | apply scores_install; assumption].
  - split; [apply exclusive_keep; exact Hex | exact Hsc].
Qed.

Lemma rematchKeypoints_inv kps inferior acc acc' :
  exclusive inferior (snd acc) -> scores_in_range (snd acc) ->
  rematchKeypoints kps inferior acc = Ok acc' ->
  exclusive [] (snd acc') /\ scores_in_range (snd acc').
Proof.
  revert acc. induction inferior as [|idx_k inferior IH]; intros acc Hex Hsc H.
  - cbn in H. injection H as <-. auto.
  - cbn in H. destruct (rematchKeypoint kps acc idx_k) as [acc1| |] eqn:E;
      try discriminate. cbn in H.
    destruct (rematchKeypoint_inv _ _ _ _ _ Hex Hsc E) as [Hex1 Hsc1].
    eapply IH; eauto.
Qed.

Lemma matchInferiorMatches_inv kps st found st' :
  exclusive [] st -> scores_in_range st ->
  matchInferiorMatches kps st = Ok (found, st') ->
  exclusive [] st' /\ scores_in_range st'.
Proof.
  intros [Hinj Hnd Hdisj] Hsc H. unfold matchInferiorMatches in H.
  apply rematchKeypoints_inv in H; [exact H | |exact Hsc].
  cbn [app] in Hnd, Hdisj. split; cbn; rewrite ?app_nil_r; assumption.
Qed.

Lemma resolveInferiorMatches_inv rounds kps st st' results :
  exclusive [] st -> scores_in_range st ->
  resolveInferiorMatches rounds kps st = Ok (st', results) ->
  exclusive [] st' /\ scores_in_range st'.
Proof.
  revert st st' results.
  induction rounds as [|rounds IH]; intros st st' results Hex Hsc H.
  - cbn in H. injection H as <- <-. auto.
  - cbn in H. destruct (matchInferiorMatches kps st) as [[found st1]| |] eqn:E;
      try discriminate. cbn in H.
    destruct (matchInferiorMatches_inv _ _ _ _ Hex Hsc E) as [Hex1 Hsc1].
    destruct found.
    + destruct (resolveInferiorMatches rounds kps st1) as [[st2 results2]| |] eqn:E2;
        try discriminate. cbn in H. injection H as <- <-. eapply IH; eauto.
    + injection H as <- <-. auto.
Qed.

Lemma exclusive_reset : exclusive [] MatcherState_reset.
Proof.
  split; cbn.
  - intros j1 j2 a s1 s2 H. rewrite lookup_empty in H. discriminate.
  - apply NoDup_nil_2.
  - intros a (j & s & H). rewrite lookup_empty in H. discriminate.
Qed.

Lemma visited_reset : visited_below 0 MatcherState_reset.
Proof.
  split; cbn.
  - intros a (j & s & H). rewrite lookup_empty in H. discriminate.
  - intros a H. apply elem_of_nil in H. contradiction.
Qed.

Lemma scores_reset : scores_in_range MatcherState_reset.
Proof.
  split; cbn.
  - intros j a s H. rewrite lookup_empty in H. discriminate.
  - intros i md H. rewrite lookup_empty in H. discriminate.
Qed.

(** The matches that are output. *)
Lemma matches_of_exclusive st :
  exclusive [] st ->
  NoDup (idx_frame0 <$> matches_of st) /\ NoDup (idx_frame1 <$> matches_of st).
Proof.
  intros [Hinj _ _]. unfold matches_of.
  set (f := fun e : Z * (Z * spec_float) =>
              {| idx_frame0 := fst (snd e); idx_frame1 := fst e;
                 match_score := snd (snd e) |}).
  set (l := map_to_list (frame1_idx_to_matches_iterator_map_ st)).
  assert (Hperm : merge_sort frame0_le (f <$> l) ≡ₚ f <$> l)
    by apply merge_sort_Permutation.
  rewrite !Hperm. rewrite <- !list_fmap_compose. split.
  - apply NoDup_fmap_2_strong; [|apply NoDup_map_to_list].
    intros [j1 [a1 s1]] [j2 [a2 s2]] H1 H2 E. cbn in E. subst a2.
    apply elem_of_map_to_list in H1, H2.
    assert (j1 = j2) by (eapply Hinj; eauto). subst j2. congruence.
  - apply (NoDup_fst_map_to_list (frame1_idx_to_matches_iterator_map_ st)).
Qed.

Lemma matches_of_scores st :
  scores_in_range st ->
  Forall (fun m => score_in_range (match_score m)) (matches_of st).
Proof.
  intros [Ht _]. unfold matches_of.
  rewrite merge_sort_Permutation. apply Forall_fmap, Forall_forall.
  intros [j [a s]] H. apply elem_of_map_to_list in H. cbn. eapply Ht. exact H.
Qed.

Lemma match_inv kps attempts out :
  match_ kps attempts = Ok out ->
  exists st, out = matches_of st /\ exclusive [] st /\ scores_in_range st.
Proof.
  unfold match_. intros H.
  destruct (matchKeypoints kps 0 attempts MatcherState_reset) as [st1| |] eqn:E1;
    try discriminate. cbn [mbind outcome_bind] in H.
  destruct (resolveInferiorMatches kMaxNumInferiorIterations kps st1)
    as [[st2 results]| |] eqn:E2; try discriminate.
  cbn [mbind outcome_bind] in H. injection H as <-.
  destruct (matchKeypoints_inv _ _ _ _ _ exclusive_reset visited_reset scores_reset E1)
    as [Hex1 Hsc1].
  destruct (resolveInferiorMatches_inv _ _ _ _ _ Hex1 Hsc1 E2) as [Hex2 Hsc2].
  eauto.
Qed.

(** C1: the matches returned by one call of [match] are exclusive: no
    frame-0 index and no frame-1 index appears twice. *)
Theorem match_exclusive kps attempts out :
  match_ kps attempts = Ok out ->
  NoDup (idx_frame0 <$> out) /\ NoDup (idx_frame1 <$> out).
Proof.
  intros H. apply match_inv in H as (st & -> & Hex & _).
  apply matches_of_exclusive. exact Hex.
Qed.

Lemma example_run : match_ example_keypoints example_attempts = Ok example_matches.
Proof. vm_compute. reflexivity. Qed.

Lemma match_exclusive_witness :
  NoDup (idx_frame0 <$> example_matches) /\ NoDup (idx_frame1 <$> example_matches).
Proof.
  apply (match_exclusive example_keypoints example_attempts example_matches).
  vm_compute. reflexivity.
Defined.

(** C7: [addCandidate] records a score exactly when it is in (0, 1] (its two
    checks never fire on such a score), every score of a [MatchData] built by
    [addCandidate] is in (0, 1], and so is every score of a returned match. *)
Theorem addCandidate_scores :
  (forall md it s, score_in_range s ->
     addCandidate md it s =
     Ok {| keypoint_match_candidates_frame1 :=
             keypoint_match_candidates_frame1 md ++ [it];
           match_candidate_matching_scores :=
             match_candidate_matching_scores md ++ [s] |}) /\
  (forall md it s md', addCandidate md it s = Ok md' ->
     score_in_range s /\ (recorded_in_range md -> recorded_in_range md')) /\
  (forall kps attempts out, match_ kps attempts = Ok out ->
     Forall (fun m => score_in_range (match_score m)) out).
Proof.
  split; [|split].
  - intros md it s Hs. apply addCandidate_ok. exact Hs.
  - intros md it s md' H. split.
    + apply addCandidate_inv in H as [Hs _]. exact Hs.
    + intros Hmd. eapply addCandidate_recorded; eauto.
  - intros kps attempts out H. apply match_inv in H as (st & -> & _ & Hsc).
    apply matches_of_scores. exact Hsc.
Qed.

Lemma addCandidate_scores_witness :
  addCandidate MatchData_default 0 (computeMatchingScore 230 256) =
    Ok {| keypoint_match_candidates_frame1 := [0];
          match_candidate_matching_scores := [computeMatchingScore 230 256] |} /\
  Forall (fun m => score_in_range (match_score m)) example_matches.
Proof.
  split.
  - apply (proj1 addCandidate_scores MatchData_default 0 (computeMatchingScore 230 256)).
    split; reflexivity.
  - apply (proj2 (proj2 addCandidate_scores) example_keypoints example_attempts).
    vm_compute. reflexivity.
Defined.

(** ** The rounds of the resolver *)

Lemma resolveInferiorMatches_rounds rounds kps st st' results :
  resolveInferiorMatches rounds kps st = Ok (st', results) ->
  (length results <= rounds)%nat /\
  (forall k, results !! k = Some false -> S k = length results).
Proof.
  revert st st' results.
  induction rounds as [|rounds IH]; intros st st' results H.
  - cbn in H. injection H as <- <-. split; [cbn; lia|]. intros k Hk. discriminate.
  - cbn [resolveInferiorMatches] in H.
    destruct (matchInferiorMatches kps st) as [[found st1]| |]; try discriminate.
    cbn [mbind outcome_bind] in H. destruct found.
    + destruct (resolveInferiorMatches rounds kps st1) as [[st2 results2]| |] eqn:E2;
        try discriminate.
      cbn [mbind outcome_bind] in H. injection H as <- <-.
      destruct (IH _ _ _ E2) as [Hlen Hlast]. split; [cbn; lia|].
      intros [|k] Hk; [discriminate|]. cbn in Hk. apply Hlast in Hk. cbn. lia.
    + injection H as <- <-. split; [cbn; lia|].
      intros [|k] Hk; [reflexivity | discriminate].
Qed.

Lemma installAssignment_match_data st idx_k j s :
  idx_frame0_to_attempted_match_data_map_ (installAssignment st idx_k j s) =
  idx_frame0_to_attempted_match_data_map_ st.
Proof.
  unfold installAssignment.
  destruct (frame1_idx_to_matches_iterator_map_ st !! j) as [[incumbent current]|];
    [destruct (Double.ltb current s)|]; reflexivity.
Qed.

Lemma highestScoringRematch_returns kps assignment stored best :
  Forall (fun p : KeyPointIterator * spec_float => is_Some (channel_index_at kps (fst p)))
    stored ->
  exists r, highestScoringRematch kps assignment stored best = Ok r.
Proof.
  intros Hall. revert best.
  induction Hall as [|[it s] stored [j Hj] Hall IH]; intros best.
  - eexists. reflexivity.
  - cbn [highestScoringRematch fst] in *. rewrite Hj.
    destruct (Double.leb _ s); apply IH.
Qed.

Lemma zip_iterators_valid kps (its : list KeyPointIterator) (scores : list spec_float) :
  Forall (fun it => is_Some (channel_index_at kps it)) its ->
  Forall (fun p : KeyPointIterator * spec_float => is_Some (channel_index_at kps (fst p)))
    (zip its scores).
Proof.
  intros Hall. revert scores.
  induction Hall as [|it its Hit Hall IH]; intros [|s scores]; cbn; constructor; auto.
Qed.

Lemma rematchKeypoint_returns kps acc idx_k :
  stored_valid kps (snd acc) ->
  exists acc', rematchKeypoint kps acc idx_k = Ok acc' /\
    idx_frame0_to_attempted_match_data_map_ (snd acc') =
    idx_frame0_to_attempted_match_data_map_ (snd acc).
Proof.
  intros Hv. unfold rematchKeypoint. cbv zeta.
  set (md := default MatchData_default
               (idx_frame0_to_attempted_match_data_map_ (snd acc) !! idx_k)).
  assert (Hmd : Forall (fun it => is_Some (channel_index_at kps it))
                  (keypoint_match_candidates_frame1 md)).
  { unfold md. destruct (idx_frame0_to_attempted_match_data_map_ (snd acc) !! idx_k)
      as [md0|] eqn:E; cbn; [eapply Hv; exact E | constructor]. }
  destruct (highestScoringRematch_returns kps
              (frame1_idx_to_matches_iterator_map_ (snd acc))
              (zip (keypoint_match_candidates_frame1 md)
                   (match_candidate_matching_scores md)) None
              (zip_iterators_valid _ _ _ Hmd)) as [best ->].
  cbn [mbind outcome_bind].
  destruct best as [[j s]|]; eexists; (split; [reflexivity|]); cbn [snd].
  - apply installAssignment_match_data.
  - reflexivity.
Qed.

Lemma rematchKeypoints_returns kps inferior acc :
  stored_valid kps (snd acc) ->
  exists acc', rematchKeypoints kps inferior acc = Ok acc' /\
    idx_frame0_to_attempted_match_data_map_ (snd acc') =
    idx_frame0_to_attempted_match_data_map_ (snd acc).
Proof.
  revert acc. induction inferior as [|idx_k inferior IH]; intros acc Hv.
  - eexists. split; reflexivity.
  - cbn [rematchKeypoints].
    destruct (rematchKeypoint_returns kps acc idx_k Hv) as (acc1 & -> & E1).
    cbn [mbind outcome_bind].
    destruct (IH acc1) as (acc' & -> & E').
    { unfold stored_valid. rewrite E1. exact Hv. }
    eexists. split; [reflexivity|]. congruence.
Qed.

Lemma resolveInferiorMatches_returns rounds kps st :
  stored_valid kps st ->
  exists st' results, resolveInferiorMatches rounds kps st = Ok (st', results).
Proof.
  revert st. induction rounds as [|rounds IH]; intros st Hv.
  - do 2 eexists. reflexivity.
  - cbn [resolveInferiorMatches]. unfold matchInferiorMatches.
    destruct (rematchKeypoints_returns kps (inferior_match_keypoint_idx_frame0_ st)
                (false,
                 {| frame1_idx_to_matches_iterator_map_ :=
                      frame1_idx_to_matches_iterator_map_ st;
                    idx_frame0_to_attempted_match_data_map_ :=
                      idx_frame0_to_attempted_match_data_map_ st;
                    inferior_match_keypoint_idx_frame0_ := [] |}) Hv)
      as ([found st1] & -> & E1).
    cbn [mbind outcome_bind]. destruct found.
    + destruct (IH st1) as (st2 & results & ->).
      { unfold stored_valid. cbn [snd] in E1. rewrite E1. exact Hv. }
      do 2 eexists. reflexivity.
    + do 2 eexists. reflexivity.
Qed.

(** *** What a round installs *)

(** The candidate chosen for a re-match is unclaimed or weaker-held. *)
Lemma highestScoringRematch_unclaimed kps assignment stored best j s :
  (forall j0 s0, best = Some (j0, s0) -> unclaimedOrWeaker assignment j0 s0 = true) ->
  highestScoringRematch kps assignment stored best = Ok (Some (j, s)) ->
  unclaimedOrWeaker assignment j s = true.
Proof.
  revert best. induction stored as [|[it s1] stored IH]; intros best Hbest H.
  - cbn in H. injection H as ->. eauto.
  - cbn [highestScoringRematch] in H.
    destruct (Double.leb (Double.of_float kMatchingThresholdBitsRatioStrict) s1).
    + destruct (channel_index_at kps it) as [j1|]; [|discriminate].
      apply IH in H; [exact H|].
      destruct (unclaimedOrWeaker assignment j1 s1) eqn:Eu; [|exact Hbest].
      intros j0 s0. unfold pickBetter.
      destruct best as [[jb sb]|].
      * destruct (Double.ltb sb s1); intros E; injection E as <- <-;
          [exact Eu | eapply Hbest; reflexivity].
      * intros E; injection E as <- <-. exact Eu.
    + apply IH in H; assumption.
Qed.

(** On such a candidate [installAssignment] does install the assignment. *)
Lemma installAssignment_installs st idx_k j s :
  unclaimedOrWeaker (frame1_idx_to_matches_iterator_map_ st) j s = true ->
  frame1_idx_to_matches_iterator_map_ (installAssignment st idx_k j s) =
  <[j := (idx_k, s)]> (frame1_idx_to_matches_iterator_map_ st).
Proof.
  unfold unclaimedOrWeaker, installAssignment.
  destruct (frame1_idx_to_matches_iterator_map_ st !! j) as [[incumbent current]|];
    [|reflexivity].
  intros ->. reflexivity.
Qed.

(** One inferior keypoint of a round: either it finds nothing, the flag and
    the assignment are left as they were and the keypoint stays inferior, or
    the flag is raised and the keypoint holds an assignment. *)
Lemma rematchKeypoint_step kps acc idx_k acc' :
  rematchKeypoint kps acc idx_k = Ok acc' ->
  (fst acc' = fst acc /\
   snd acc' =
     {| frame1_idx_to_matches_iterator_map_ :=
          frame1_idx_to_matches_iterator_map_ (snd acc);
        idx_frame0_to_attempted_match_data_map_ :=
          idx_frame0_to_attempted_match_data_map_ (snd acc);
        inferior_match_keypoint_idx_frame0_ :=
          inferior_match_keypoint_idx_frame0_ (snd acc) ++ [idx_k] |}) \/
  (fst acc' = true /\
   exists j s,
     frame1_idx_to_matches_iterator_map_ (snd acc') =
     <[j := (idx_k, s)]> (frame1_idx_to_matches_iterator_map_ (snd acc))).
Proof.
  intros H. unfold rematchKeypoint in H. cbv zeta in H.
  destruct (highestScoringRematch kps _ _ None) as [best| |] eqn:Eb;
    try discriminate. cbn in H.
  destruct best as [[j s]|]; injection H as <-; cbn [fst snd].
  - right. split; [reflexivity|]. exists j, s.
    apply installAssignment_installs.
    eapply highestScoringRematch_unclaimed; [|exact Eb]. discriminate.
  - left. auto.
Qed.

(** A round over the inferior keypoints [l], started after the keypoints
    [v]: while the flag is down nothing has changed but the inferior list;
    once it is up, one of the keypoints visited holds an assignment. *)
Lemma rematchKeypoints_flag kps l :
  forall v acc acc' m0 d0,
  rematchKeypoints kps l acc = Ok acc' ->
  (fst acc = false ->
   snd acc = {| frame1_idx_to_matches_iterator_map_ := m0;
                idx_frame0_to_attempted_match_data_map_ := d0;
                inferior_match_keypoint_idx_frame0_ := v |}) ->
  (fst acc = true ->
   exists idx_k j s, idx_k ∈ v /\
     frame1_idx_to_matches_iterator_map_ (snd acc) !! j = Some (idx_k, s)) ->
  (fst acc' = false ->
   snd acc' = {| frame1_idx_to_matches_iterator_map_ := m0;
                 idx_frame0_to_attempted_match_data_map_ := d0;
                 inferior_match_keypoint_idx_frame0_ := v ++ l |}) /\
  (fst acc' = true ->
   exists idx_k j s, idx_k ∈ v ++ l /\
     frame1_idx_to_matches_iterator_map_ (snd acc') !! j = Some (idx_k, s)).
Proof.
  induction l as [|idx_k l IH]; intros v acc acc' m0 d0 H Hdown Hup.
  - cbn in H. injection H as <-. rewrite app_nil_r. auto.
  - cbn in H. destruct (rematchKeypoint kps acc idx_k) as [acc1| |] eqn:E;
      try discriminate. cbn in H.
    replace (v ++ idx_k :: l) with ((v ++ [idx_k]) ++ l)
      by (rewrite <- app_assoc; reflexivity).
    apply (IH (v ++ [idx_k]) acc1 acc' m0 d0 H).
    + intros Hf. destruct (rematchKeypoint_step _ _ _ _ E) as [[Hfst Hsnd]|[Hfst _]];
        [|congruence].
      rewrite Hsnd, Hdown by congruence. reflexivity.
    + intros Ht. destruct (rematchKeypoint_step _ _ _ _ E) as [[Hfst Hsnd]|[_ (j & s & Hm)]].
      * destruct (Hup ltac:(congruence)) as (i0 & j0 & s0 & Hin & Hl).
        exists i0, j0, s0. split; [apply elem_of_app; left; exact Hin|].
        rewrite Hsnd. exact Hl.
      * exists idx_k, j, s. split; [apply elem_of_app; right; constructor|].
        rewrite Hm. apply lookup_insert_eq.
Qed.

(** A round of [matchInferiorMatches] on an exclusive state: it reports
    [false] exactly when it has installed no assignment, and then it has left
    the whole state as it was; when it reports [true], a keypoint that was
    inferior holds an assignment. *)
Lemma matchInferiorMatches_flag kps st found st' :
  matchInferiorMatches kps st = Ok (found, st') ->
  (found = false -> st' = st) /\
  (found = true ->
   exists idx_k j s, idx_k ∈ inferior_match_keypoint_idx_frame0_ st /\
     frame1_idx_to_matches_iterator_map_ st' !! j = Some (idx_k, s)) /\
  (exclusive [] st ->
   (found = false <->
    frame1_idx_to_matches_iterator_map_ st' = frame1_idx_to_matches_iterator_map_ st)).
Proof.
  intros H. unfold matchInferiorMatches in H.
  destruct (rematchKeypoints_flag kps _ [] _ _
              (frame1_idx_to_matches_iterator_map_ st)
              (idx_frame0_to_attempted_match_data_map_ st) H)
    as [Hdown Hup]; [reflexivity | discriminate |].
  cbn [fst snd app] in Hdown, Hup.
  assert (H1 : found = false -> st' = st).
  { intros Hf. rewrite (Hdown Hf). destruct st; reflexivity. }
  split; [exact H1|]. split; [exact Hup|].
  intros Hex. split; [intros Hf; rewrite (H1 Hf); reflexivity|].
  intros Hm. destruct found; [exfalso|reflexivity].
  destruct (Hup eq_refl) as (idx_k & j & s & Hin & Hl).
  rewrite Hm in Hl.
  apply (excl_disj _ _ Hex idx_k); [exists j, s; exact Hl | exact Hin].
Qed.

(** C8: the resolver of [match] returns after at most
    [kMaxNumInferiorIterations = 3] rounds, and a round that installs no
    assignment is the last one executed. A round reports [false] exactly when
    it has left the assignment as it was (it then has changed nothing at
    all); a round that reports [true] has given an assignment to a keypoint
    that was inferior. After a round without new assignment the resolver
    stops with the state of before that round, whatever the number of rounds
    left; after any other round it goes on with the rounds that are left.
    The states met in a call of [match] are exclusive: the one the first pass
    hands to the resolver is, and every round keeps the state so. *)
Theorem resolver_rounds kps st :
  (stored_valid kps st ->
   exists st' results,
     resolveInferiorMatches kMaxNumInferiorIterations kps st = Ok (st', results)) /\
  (forall st' results,
     resolveInferiorMatches kMaxNumInferiorIterations kps st = Ok (st', results) ->
     (length results <= 3)%nat /\
     (forall k, results !! k = Some false -> S k = length results)) /\
  (forall st0 found st1,
     exclusive [] st0 ->
     matchInferiorMatches kps st0 = Ok (found, st1) ->
     (found = false <->
      frame1_idx_to_matches_iterator_map_ st1 =
      frame1_idx_to_matches_iterator_map_ st0) /\
     (found = false -> st1 = st0) /\
     (found = true ->
      exists idx_k j s, idx_k ∈ inferior_match_keypoint_idx_frame0_ st0 /\
        frame1_idx_to_matches_iterator_map_ st1 !! j = Some (idx_k, s)) /\
     (forall rounds,
        (frame1_idx_to_matches_iterator_map_ st1 =
         frame1_idx_to_matches_iterator_map_ st0 ->
         resolveInferiorMatches (S rounds) kps st0 = Ok (st0, [false])) /\
        (frame1_idx_to_matches_iterator_map_ st1 <>
         frame1_idx_to_matches_iterator_map_ st0 ->
         resolveInferiorMatches (S rounds) kps st0 =
         '(st', results) ← resolveInferiorMatches rounds kps st1;
         Ok (st', true :: results)))) /\
  (forall attempts st1,
     matchKeypoints kps 0 attempts MatcherState_reset = Ok st1 ->
     exclusive [] st1 /\ scores_in_range st1) /\
  (forall st0 found st1,
     exclusive [] st0 -> scores_in_range st0 ->
     matchInferiorMatches kps st0 = Ok (found, st1) ->
     exclusive [] st1 /\ scores_in_range st1).
Proof.
  split; [apply resolveInferiorMatches_returns|]. split; [|split; [|split]].
  - intros st' results H. apply resolveInferiorMatches_rounds in H. exact H.
  - intros st0 found st1 Hex H.
    destruct (matchInferiorMatches_flag _ _ _ _ H) as (Hdown & Hup & Hiff).
    specialize (Hiff Hex).
    split; [exact Hiff|]. split; [exact Hdown|]. split; [exact Hup|].
    intros rounds. cbn [resolveInferiorMatches]. rewrite H.
    cbn [mbind outcome_bind]. split; intros Hm.
    + apply Hiff in Hm. subst found. rewrite (Hdown eq_refl). reflexivity.
    + destruct found; [reflexivity|]. exfalso. apply Hm, Hiff. reflexivity.
  - intros attempts st1 H.
    eapply matchKeypoints_inv;
      [apply exclusive_reset | apply visited_reset | apply scores_reset | exact H].
  - intros st0 found st1 Hex Hsc H. eapply matchInferiorMatches_inv; eauto.
Qed.

Lemma example_first_pass_run :
  matchKeypoints example_keypoints 0 example_attempts MatcherState_reset =
  Ok example_first_pass.
Proof. vm_compute. reflexivity. Qed.

Lemma example_resolver_run :
  resolveInferiorMatches kMaxNumInferiorIterations example_keypoints
    example_first_pass = Ok (example_resolved, [true; false]).
Proof. vm_compute. reflexivity. Qed.

Lemma resolver_rounds_witness :
  ((length [true; false] <= 3)%nat /\
   (forall k, [true; false] !! k = Some false -> S k = length [true; false])) /\
  (forall st1,
     matchInferiorMatches example_keypoints example_first_pass = Ok (true, st1) ->
     frame1_idx_to_matches_iterator_map_ st1 <>
     frame1_idx_to_matches_iterator_map_ example_first_pass).
Proof.
  destruct (resolver_rounds example_keypoints example_first_pass)
    as (_ & H2 & H3 & H4 & _).
  split.
  - apply (H2 example_resolved [true; false]). vm_compute. reflexivity.
  - intros st1 E Hm.
    destruct (H4 example_attempts example_first_pass) as [Hex _];
      [vm_compute; reflexivity|].
    destruct (H3 example_first_pass true st1 Hex E) as (Hiff & _).
    apply Hiff in Hm. discriminate.
Defined.

(** ** The constructor *)

(** C9 fails on the code: the constructor initialises [camera_rig_] from
    itself and never reads its argument [camera_rig]. Two calls that differ
    in the argument only build the same matcher; with storage that held
    another rig, the stored rig and image height are those of that rig. *)
Theorem StereoMatcher_new_ignores_camera_rig :
  (forall stereo_pair camera_rig camera_rig' storage,
     StereoMatcher_new stereo_pair camera_rig storage =
     StereoMatcher_new stereo_pair camera_rig' storage) /\
  StereoMatcher_new {| first_camera_id := 0 |} (Some example_rig)
    (Some example_stale_rig) =
    Ok {| stereo_pair_ := {| first_camera_id := 0 |};
          camera_rig_ := Some example_stale_rig;
          kImageHeight := 240 |} /\
  Some example_stale_rig <> Some example_rig /\
  StereoMatcher_new {| first_camera_id := 0 |} (Some example_rig) None = Undefined.
Proof.
  split; [reflexivity|]. split; [reflexivity|]. split; [discriminate|reflexivity].
Qed.

(** * Further properties of the code *)

(** ** Order, validity and exact conversions of binary64 numbers *)

Lemma double_compare x y :
  Double.valid x -> Double.valid y -> is_finite x = true -> is_finite y = true ->
  SFcompare x y = Some (B2Z 53 1024 x ?= B2Z 53 1024 y).
Proof. intros. apply (SFcompare_valid 53 1024); try lia; assumption. Qed.

Lemma double_leb_B2Z x y :
  Double.valid x -> Double.valid y -> is_finite x = true -> is_finite y = true ->
  Double.leb x y = (B2Z 53 1024 x <=? B2Z 53 1024 y).
Proof.
  intros Hx Hy Hfx Hfy. unfold Double.leb, SFleb, Z.leb.
  rewrite (double_compare x y) by assumption.
  destruct (B2Z 53 1024 x ?= B2Z 53 1024 y); reflexivity.
Qed.

Lemma double_ltb_B2Z x y :
  Double.valid x -> Double.valid y -> is_finite x = true -> is_finite y = true ->
  Double.ltb x y = (B2Z 53 1024 x <? B2Z 53 1024 y).
Proof.
  intros Hx Hy Hfx Hfy. unfold Double.ltb, SFltb, Z.ltb.
  rewrite (double_compare x y) by assumption.
  destruct (B2Z 53 1024 x ?= B2Z 53 1024 y); reflexivity.
Qed.

Lemma double_leb_finite_l x y :
  Double.leb x y = true -> is_finite y = true -> x <> S754_infinity false /\ x <> S754_nan.
Proof.
  intros H Hy. split; intros ->; destruct y as [s|s| |s m e]; discriminate.
Qed.

(** An integer below [2 ^ 53] in magnitude converts exactly. *)
Lemma double_of_Z_exact k :
  Z.abs k < 2 ^ 53 ->
  Double.valid (Double.of_Z k) /\ is_finite (Double.of_Z k) = true /\
  B2Z 53 1024 (Double.of_Z k) = k * 2 ^ 1074.
Proof.
  intros Hk. unfold Double.of_Z, Double.valid, Double.prec, Double.emax.
  assert (Hf : is_finite (binary_normalize 53 1024 k 0 false) = true).
  { apply (binary_normalize_finite 53 1024); try lia.
    - unfold emin. lia.
    - change (0 - emin 53 1024) with 1074.
      change (1024 - emin 53 1024 - 1) with 2097. lia. }
  split; [apply (binary_normalize_valid 53 1024); try lia; unfold emin; lia|].
  split; [exact Hf|].
  apply (of_Z_value 53 1024); try lia; assumption.
Qed.

Lemma double_half_exact :
  Double.valid Double.half /\ is_finite Double.half = true /\
  B2Z 53 1024 Double.half = 2 ^ 1073.
Proof. repeat split; vm_compute; reflexivity. Qed.

Lemma trunc_is_Some x : is_finite x = true -> exists z, trunc x = Some z.
Proof. destruct x; try discriminate; simpl; eauto. Qed.

(** [y + 0.5] for a number of magnitude at most [2 ^ 30]. *)
Lemma double_add_half y :
  Double.valid y -> is_finite y = true ->
  Z.abs (B2Z 53 1024 y) <= 2 ^ 30 * 2 ^ 1074 ->
  Double.valid (Double.add y Double.half) /\
  is_finite (Double.add y Double.half) = true /\
  B2Z 53 1024 (Double.add y Double.half) = RNs 53 (B2Z 53 1024 y + 2 ^ 1073) /\
  Z.abs (B2Z 53 1024 (Double.add y Double.half)) <= (2 ^ 31 + 1) * 2 ^ 1073.
Proof.
  intros Hy Hfy Hb.
  destruct double_half_exact as (Hvh & Hfh & Hh).
  pose proof (double_valid_wfF y Hy) as Hwy.
  assert (Hf : is_finite (Double.add y Double.half) = true).
  { apply (SFadd_finite 53 1024); try lia; try assumption.
    - apply double_half_wfF.
    - rewrite Hh. change (1024 - emin 53 1024 - 1) with 2097. lia. }
  assert (Hv : B2Z 53 1024 (Double.add y Double.half) =
               RNs 53 (B2Z 53 1024 y + 2 ^ 1073)).
  { rewrite <- Hh.
    apply (SFadd_value 53 1024); try lia; try assumption.
    apply double_half_wfF. }
  split; [apply (SFadd_valid 53 1024); try lia; assumption|].
  split; [exact Hf|]. split; [exact Hv|].
  rewrite Hv.
  pose proof (RNs_mono 53 1024 ltac:(lia) ltac:(lia) ltac:(lia)
                (B2Z 53 1024 y + 2 ^ 1073) ((2 ^ 31 + 1) * 2 ^ 1073) ltac:(lia)) as H1.
  pose proof (RNs_mono 53 1024 ltac:(lia) ltac:(lia) ltac:(lia)
                ((- 2 ^ 31 + 1) * 2 ^ 1073) (B2Z 53 1024 y + 2 ^ 1073) ltac:(lia)) as H2.
  rewrite (RNs_exact 53 1024) in H1 by lia.
  rewrite (RNs_exact 53 1024) in H2 by lia.
  lia.
Qed.

(** The two rows of a window, for a half window below [2 ^ 30]. *)
Lemma double_window_rows a w :
  Double.valid a -> is_finite a = true ->
  Z.abs (B2Z 53 1024 a) <= (2 ^ 31 + 1) * 2 ^ 1073 -> Z.abs w < 2 ^ 30 ->
  Double.to_int (Double.sub a (Double.of_Z w)) =
    Some (Z.quot (RNs 53 (B2Z 53 1024 a - w * 2 ^ 1074)) (2 ^ 1074)) /\
  Double.to_int (Double.add a (Double.of_Z w)) =
    Some (Z.quot (RNs 53 (B2Z 53 1024 a + w * 2 ^ 1074)) (2 ^ 1074)).
Proof.
  intros Ha Hfa Hb Hw.
  destruct (double_of_Z_exact w ltac:(lia)) as (Hvw & Hfw & Hw').
  pose proof (double_valid_wfF a Ha) as Hwa.
  pose proof (double_valid_wfF _ Hvw) as Hww.
  assert (Hrange : forall z,
    (- 2 ^ 32 + 1) * 2 ^ 1073 <= z <= (2 ^ 32 - 1) * 2 ^ 1073 ->
    INT_MIN <= Z.quot (RNs 53 z) (2 ^ 1074) <= INT_MAX).
  { intros z Hz.
    pose proof (RNs_mono 53 1024 ltac:(lia) ltac:(lia) ltac:(lia)
                  z ((2 ^ 32 - 1) * 2 ^ 1073) ltac:(lia)) as H1.
    pose proof (RNs_mono 53 1024 ltac:(lia) ltac:(lia) ltac:(lia)
                  ((- 2 ^ 32 + 1) * 2 ^ 1073) z ltac:(lia)) as H2.
    rewrite (RNs_exact 53 1024) in H1 by lia.
    rewrite (RNs_exact 53 1024) in H2 by lia.
    unfold INT_MIN, INT_MAX. Z.quot_rem_to_equations. lia. }
  assert (Hto : forall x,
    wfF 53 1024 x -> is_finite x = true ->
    INT_MIN <= Z.quot (B2Z 53 1024 x) (2 ^ 1074) <= INT_MAX ->
    Double.to_int x = Some (Z.quot (B2Z 53 1024 x) (2 ^ 1074))).
  { intros x Hwx Hfx Hr. unfold Double.to_int.
    destruct (trunc_is_Some x Hfx) as [z Hz]. rewrite Hz.
    pose proof (trunc_B2Z 53 1024 ltac:(lia) ltac:(lia) ltac:(lia) x z Hwx Hz) as E.
    change (- emin 53 1024) with 1074 in E. subst z.
    rewrite (proj2 (Z.leb_le _ _) (proj1 Hr)), (proj2 (Z.leb_le _ _) (proj2 Hr)).
    reflexivity. }
  split.
  - assert (Hf : is_finite (Double.sub a (Double.of_Z w)) = true).
    { apply (SFsub_finite 53 1024); try lia; try assumption.
      rewrite Hw'. change (1024 - emin 53 1024 - 1) with 2097. lia. }
    destruct (SFsub_value 53 1024 ltac:(lia) ltac:(lia) ltac:(lia) a _ Hwa Hww)
      as [Hwr Hvr].
    specialize (Hvr Hf). rewrite Hw' in Hvr. fold Double.sub in Hvr, Hwr.
    rewrite <- Hvr. apply Hto; [exact Hwr | exact Hf |].
    rewrite Hvr. apply Hrange. lia.
  - assert (Hf : is_finite (Double.add a (Double.of_Z w)) = true).
    { apply (SFadd_finite 53 1024); try lia; try assumption.
      rewrite Hw'. change (1024 - emin 53 1024 - 1) with 2097. lia. }
    destruct (SFadd_value 53 1024 ltac:(lia) ltac:(lia) ltac:(lia) a _ Hwa Hww)
      as [Hwr Hvr].
    specialize (Hvr Hf). rewrite Hw' in Hvr. fold Double.add in Hvr, Hwr.
    rewrite <- Hvr. apply Hto; [exact Hwr | exact Hf |].
    rewrite Hvr. apply Hrange. lia.
Qed.

Lemma double_leb_of_Z_r y c :
  Double.valid y -> is_finite y = true -> Z.abs c < 2 ^ 53 ->
  Double.leb y (Double.of_Z c) = (B2Z 53 1024 y <=? c * 2 ^ 1074).
Proof.
  intros Hy Hf Hc. destruct (double_of_Z_exact c Hc) as (Hv & Hfc & <-).
  apply double_leb_B2Z; assumption.
Qed.

Lemma double_leb_of_Z_l y c :
  Double.valid y -> is_finite y = true -> Z.abs c < 2 ^ 53 ->
  Double.leb (Double.of_Z c) y = (c * 2 ^ 1074 <=? B2Z 53 1024 y).
Proof.
  intros Hy Hf Hc. destruct (double_of_Z_exact c Hc) as (Hv & Hfc & <-).
  apply double_leb_B2Z; assumption.
Qed.

(** A number between two integers is finite. *)
Lemma double_between_finite y lo hi :
  Z.abs lo < 2 ^ 53 -> Z.abs hi < 2 ^ 53 ->
  Double.leb (Double.of_Z lo) y = true -> Double.leb y (Double.of_Z hi) = true ->
  is_finite y = true.
Proof.
  intros Hlo Hhi H1 H2.
  destruct (double_of_Z_exact lo Hlo) as (_ & Hfl & _).
  destruct (double_of_Z_exact hi Hhi) as (_ & Hfh & _).
  destruct y as [s|s| |s m e]; try reflexivity; exfalso.
  - destruct s.
    + destruct (Double.of_Z lo) as [sl|sl| |sl ml el]; discriminate.
    + destruct (Double.of_Z hi) as [sh|sh| |sh mh eh]; discriminate.
  - destruct (Double.of_Z hi) as [sh|sh| |sh mh eh]; discriminate.
Qed.

(** ** The window query *)

Lemma getKeypointIteratorsInWindow_inv kImageHeight corner_row_LUT_ pos w b e :
  getKeypointIteratorsInWindow kImageHeight corner_row_LUT_ pos w = Ok (b, e) ->
  0 < w /\
  exists t bt, LUT_indices kImageHeight pos w = Some (t, bt) /\
    lut_at corner_row_LUT_ t = Some b /\ lut_at corner_row_LUT_ bt = Some e /\
    t <= bt.
Proof.
  unfold getKeypointIteratorsInWindow.
  destruct (Z.ltb_spec 0 w) as [Hw|Hw]; [|discriminate]. cbn [negb].
  destruct (LUT_indices kImageHeight pos w) as [[t bt]|]; [|discriminate].
  destruct (lut_at corner_row_LUT_ t) as [ib|] eqn:Eb; [|discriminate].
  destruct (lut_at corner_row_LUT_ bt) as [ie|] eqn:Ee; [|discriminate].
  destruct (Z.leb_spec t bt) as [Htb|Htb]; [|discriminate]. cbn [negb].
  repeat match goal with |- context [if ?c then _ else _] => destruct c end;
    try discriminate.
  intros E; injection E as <- <-. split; [exact Hw|]. exists t, bt. auto.
Qed.

(** The two rows before clamping, in units of [2 ^ -1074]: when both
    conversions are defined, the prediction is finite and the rows fit [int]. *)
Lemma LUT_rows_value y w rt rb :
  Double.valid y -> Z.abs w < 2 ^ 53 ->
  Double.to_int (Double.sub (Double.add y Double.half) (Double.of_Z w)) = Some rt ->
  Double.to_int (Double.add (Double.add y Double.half) (Double.of_Z w)) = Some rb ->
  is_finite y = true /\
  INT_MIN <= rt <= INT_MAX /\ INT_MIN <= rb <= INT_MAX /\
  rt = Z.quot (RNs 53 (RNs 53 (B2Z 53 1024 y + 2 ^ 1073) - w * 2 ^ 1074)) (2 ^ 1074) /\
  rb = Z.quot (RNs 53 (RNs 53 (B2Z 53 1024 y + 2 ^ 1073) + w * 2 ^ 1074)) (2 ^ 1074).
Proof.
  intros Hy Hw Ht Hb.
  destruct double_half_exact as (Hvh & Hfh & Hh).
  pose proof (double_valid_wfF _ Hy) as Hwy.
  pose proof (double_add_wfF _ _ Hwy double_half_wfF) as Hwa.
  apply double_to_int_trunc in Ht as [Ht Hrt], Hb as [Hb Hrb].
  pose proof (trunc_finite _ _ Hb) as Hfb.
  apply (SFadd_finite_inv 53 1024) in Hfb as [Hfa _].
  pose proof (SFadd_finite_inv 53 1024 _ _ Hfa) as [Hfy _].
  assert (Hva : B2Z 53 1024 (Double.add y Double.half) =
                RNs 53 (B2Z 53 1024 y + 2 ^ 1073)).
  { rewrite <- Hh.
    apply (SFadd_value 53 1024); try lia; try assumption. apply double_half_wfF. }
  apply (trunc_sub_int 53 1024) in Ht; try lia; try assumption.
  apply (trunc_add_int 53 1024) in Hb; try lia; try assumption.
  change (- emin 53 1024) with 1074 in Ht, Hb. rewrite Hva in Ht, Hb.
  auto.
Qed.

(** The rows [LUT_indices] computes, in units of [2 ^ -1074]. *)
Lemma LUT_indices_value kImageHeight pos w t b :
  Double.valid (snd pos) -> Z.abs w < 2 ^ 53 ->
  LUT_indices kImageHeight pos w = Some (t, b) ->
  is_finite (snd pos) = true /\
  t = clamp 0 (int_of_uint32 (to_uint32 (kImageHeight - 1)))
        (Z.quot (RNs 53 (RNs 53 (B2Z 53 1024 (snd pos) + 2 ^ 1073) - w * 2 ^ 1074))
           (2 ^ 1074)) /\
  b = clamp 0 (int_of_uint32 (to_uint32 (kImageHeight - 1)))
        (Z.quot (RNs 53 (RNs 53 (B2Z 53 1024 (snd pos) + 2 ^ 1073) + w * 2 ^ 1074))
           (2 ^ 1074)).
Proof.
  intros Hy Hw Hi.
  apply LUT_indices_inv in Hi as (rt & rb & Ht & Hb & -> & ->).
  destruct (LUT_rows_value _ _ _ _ Hy Hw Ht Hb) as (Hf & _ & _ & -> & ->).
  auto.
Qed.

Lemma double_quot_RNs_mono z z' :
  z <= z' -> Z.quot (RNs 53 z) (2 ^ 1074) <= Z.quot (RNs 53 z') (2 ^ 1074).
Proof. intros H. apply (quot_RNs_mono 53 1024); try lia. Qed.

Lemma double_RNs_mono z z' : z <= z' -> RNs 53 z <= RNs 53 z'.
Proof. intros H. apply (RNs_mono 53 1024); lia. Qed.

(** The row indices for a prediction of magnitude at most [2 ^ 30] and a
    half window below [2 ^ 30]: both conversions to [int] are defined. *)
Lemma LUT_indices_defined kImageHeight pos w :
  Double.valid (snd pos) ->
  Double.leb (Double.of_Z (- 2 ^ 30)) (snd pos) = true ->
  Double.leb (snd pos) (Double.of_Z (2 ^ 30)) = true ->
  Z.abs w < 2 ^ 30 ->
  LUT_indices kImageHeight pos w =
  Some (clamp 0 (int_of_uint32 (to_uint32 (kImageHeight - 1)))
          (Z.quot (RNs 53 (RNs 53 (B2Z 53 1024 (snd pos) + 2 ^ 1073) - w * 2 ^ 1074))
             (2 ^ 1074)),
        clamp 0 (int_of_uint32 (to_uint32 (kImageHeight - 1)))
          (Z.quot (RNs 53 (RNs 53 (B2Z 53 1024 (snd pos) + 2 ^ 1073) + w * 2 ^ 1074))
             (2 ^ 1074))).
Proof.
  intros Hy Hlo Hhi Hw.
  pose proof (double_between_finite _ (- 2 ^ 30) (2 ^ 30)
                ltac:(lia) ltac:(lia) Hlo Hhi) as Hf.
  rewrite double_leb_of_Z_l in Hlo by (assumption || lia).
  rewrite double_leb_of_Z_r in Hhi by (assumption || lia).
  apply Z.leb_le in Hlo, Hhi.
  destruct (double_add_half (snd pos) Hy Hf ltac:(lia)) as (Hva & Hfa & Ha & Hba).
  destruct (double_window_rows _ w Hva Hfa Hba Hw) as [Ht Hb].
  unfold LUT_indices. cbv zeta. rewrite Ht, Hb, Ha. reflexivity.
Qed.

Lemma quot_odd_half n :
  Z.quot ((2 * n + 1) * 2 ^ 1073) (2 ^ 1074) = Z.quot (2 * n + 1) 2.
Proof.
  replace (2 ^ 1074) with (2 * 2 ^ 1073) by lia.
  apply Z.quot_mul_cancel_r; lia.
Qed.

(** X1: for a finite predicted row between [-2^30] and [2^30], a half window
    [0 < w < 2^30], an image height between 1 and 2^31 and a lookup table
    with an entry for every image row, the window query returns: it neither
    aborts nor runs into an undefined conversion or an out-of-range read. *)
Theorem window_query_returns kImageHeight corner_row_LUT_ pos w :
  Double.valid (snd pos) ->
  Double.leb (Double.of_Z (- 2 ^ 30)) (snd pos) = true ->
  Double.leb (snd pos) (Double.of_Z (2 ^ 30)) = true ->
  0 < w < 2 ^ 30 -> 1 <= kImageHeight <= 2 ^ 31 ->
  kImageHeight <= Z.of_nat (length corner_row_LUT_) ->
  exists it_begin it_end,
    getKeypointIteratorsInWindow kImageHeight corner_row_LUT_ pos w =
    Ok (it_begin, it_end).
Proof.
  intros Hy Hlo Hhi Hw HH Hlen.
  pose proof (LUT_indices_defined kImageHeight pos w Hy Hlo Hhi ltac:(lia)) as Hi.
  eapply getKeypointIteratorsInWindow_returns; eauto. unfold INT_MAX. lia.
Qed.

Lemma window_query_returns_witness :
  exists it_begin it_end,
    getKeypointIteratorsInWindow 10 [0; 0; 1; 1; 2; 3; 3; 3; 4; 5]
      (Double.zero, Double.of_Z 4) 2 = Ok (it_begin, it_end).
Proof.
  apply (window_query_returns 10 [0; 0; 1; 1; 2; 3; 3; 3; 4; 5]
           (Double.zero, Double.of_Z 4) 2).
  - reflexivity.
  - reflexivity.
  - reflexivity.
  - lia.
  - lia.
  - simpl. lia.
Defined.

(** X2: for a prediction on an integer row [k] (magnitude at most [2^30]) the
    window is symmetric: the query reads the lookup table at rows [k - w] and
    [k + w], each clamped to the image rows [0 .. kImageHeight - 1]. *)
Theorem window_at_integer_row kImageHeight corner_row_LUT_ x k w :
  - 2 ^ 30 <= k <= 2 ^ 30 -> 0 < w < 2 ^ 30 -> 1 <= kImageHeight <= 2 ^ 31 ->
  getKeypointIteratorsInWindow kImageHeight corner_row_LUT_ (x, Double.of_Z k) w =
  match lut_at corner_row_LUT_ (clamp 0 (kImageHeight - 1) (k - w)),
        lut_at corner_row_LUT_ (clamp 0 (kImageHeight - 1) (k + w)) with
  | Some it_begin, Some it_end => Ok (it_begin, it_end)
  | _, _ => Undefined
  end.
Proof.
  intros Hk Hw HH.
  destruct (double_of_Z_exact k ltac:(lia)) as (Hv & Hf & Hval).
  assert (Hlo : Double.leb (Double.of_Z (- 2 ^ 30)) (Double.of_Z k) = true).
  { rewrite double_leb_of_Z_l by (assumption || lia). apply Z.leb_le. lia. }
  assert (Hhi : Double.leb (Double.of_Z k) (Double.of_Z (2 ^ 30)) = true).
  { rewrite double_leb_of_Z_r by (assumption || lia). apply Z.leb_le. lia. }
  pose proof (LUT_indices_defined kImageHeight (x, Double.of_Z k) w
                Hv Hlo Hhi ltac:(lia)) as Hi.
  cbn [snd] in Hi. rewrite Hval, upper_row_int in Hi by exact HH.
  replace (k * 2 ^ 1074 + 2 ^ 1073) with ((2 * k + 1) * 2 ^ 1073) in Hi by lia.
  rewrite (RNs_exact 53 1024) in Hi by lia.
  replace ((2 * k + 1) * 2 ^ 1073 - w * 2 ^ 1074)
    with ((2 * (k - w) + 1) * 2 ^ 1073) in Hi by lia.
  replace ((2 * k + 1) * 2 ^ 1073 + w * 2 ^ 1074)
    with ((2 * (k + w) + 1) * 2 ^ 1073) in Hi by lia.
  rewrite !(RNs_exact 53 1024) in Hi by lia.
  assert (Hq : forall n,
    clamp 0 (kImageHeight - 1) (Z.quot ((2 * n + 1) * 2 ^ 1073) (2 ^ 1074)) =
    clamp 0 (kImageHeight - 1) n).
  { intros n. clear. rewrite quot_odd_half. unfold clamp.
    Z.quot_rem_to_equations. lia. }
  rewrite !Hq in Hi.
  apply getKeypointIteratorsInWindow_eq; try assumption; try lia;
    unfold clamp; lia.
Qed.

Lemma window_at_integer_row_witness :
  getKeypointIteratorsInWindow 10 [0; 0; 1; 1; 2; 3; 3; 3; 4; 5]
    (Double.zero, Double.of_Z 8) 3 =
  match lut_at [0; 0; 1; 1; 2; 3; 3; 3; 4; 5] (clamp 0 (10 - 1) (8 - 3)),
        lut_at [0; 0; 1; 1; 2; 3; 3; 3; 4; 5] (clamp 0 (10 - 1) (8 + 3)) with
  | Some it_begin, Some it_end => Ok (it_begin, it_end)
  | _, _ => Undefined
  end.
Proof.
  apply (window_at_integer_row 10 [0; 0; 1; 1; 2; 3; 3; 3; 4; 5] Double.zero 8 3);
    lia.
Defined.

(** X3: the window follows the prediction: with a non-decreasing lookup table
    and the same half window, a predicted row further down never yields an
    earlier begin nor an earlier end. *)
Theorem window_moves_with_prediction kImageHeight corner_row_LUT_
    pos1 pos2 w b1 e1 b2 e2 :
  Double.valid (snd pos1) -> Double.valid (snd pos2) ->
  Double.leb (snd pos1) (snd pos2) = true ->
  w <= INT_MAX ->
  nondecreasing corner_row_LUT_ = true ->
  getKeypointIteratorsInWindow kImageHeight corner_row_LUT_ pos1 w = Ok (b1, e1) ->
  getKeypointIteratorsInWindow kImageHeight corner_row_LUT_ pos2 w = Ok (b2, e2) ->
  b1 <= b2 /\ e1 <= e2.
Proof.
  intros Hy1 Hy2 Hle Hw Hlut Hq1 Hq2.
  apply getKeypointIteratorsInWindow_inv in Hq1 as (Hw0 & t1 & bt1 & Hi1 & Hb1 & He1 & _).
  apply getKeypointIteratorsInWindow_inv in Hq2 as (_ & t2 & bt2 & Hi2 & Hb2 & He2 & _).
  unfold INT_MAX in Hw.
  apply LUT_indices_value in Hi1 as (Hf1 & Ht1 & Hbt1); [|assumption|lia].
  apply LUT_indices_value in Hi2 as (Hf2 & Ht2 & Hbt2); [|assumption|lia].
  rewrite double_leb_B2Z in Hle by assumption. apply Z.leb_le in Hle.
  pose proof (double_RNs_mono (B2Z 53 1024 (snd pos1) + 2 ^ 1073)
                (B2Z 53 1024 (snd pos2) + 2 ^ 1073) ltac:(lia)) as Ha.
  assert (Ht : t1 <= t2).
  { subst t1 t2. apply clamp_mono, double_quot_RNs_mono. lia. }
  assert (Hbt : bt1 <= bt2).
  { subst bt1 bt2. apply clamp_mono, double_quot_RNs_mono. lia. }
  split.
  - exact (lut_at_nondecreasing _ _ _ _ _ Hlut Ht Hb1 Hb2).
  - exact (lut_at_nondecreasing _ _ _ _ _ Hlut Hbt He1 He2).
Qed.

Lemma window_moves_with_prediction_witness : 1 <= 3 /\ 3 <= 5.
Proof.
  apply (window_moves_with_prediction 10 [0; 0; 1; 1; 2; 3; 3; 3; 4; 5]
           (Double.zero, Double.of_Z 4) (Double.zero, Double.of_Z 7) 2 1 3 3 5).
  - reflexivity.
  - reflexivity.
  - reflexivity.
  - unfold INT_MAX. lia.
  - reflexivity.
  - reflexivity.
  - reflexivity.
Defined.

(** X4: a window that lies wholly above the first image row (predicted row at
    most [-w]) or wholly below the last one (predicted row at least
    [kImageHeight - 1 + w]) is clamped to a single row: the returned range is
    empty. *)
Theorem window_outside_image_is_empty kImageHeight corner_row_LUT_ pos w b e :
  Double.valid (snd pos) -> w <= INT_MAX -> 1 <= kImageHeight <= 2 ^ 31 ->
  Double.leb (snd pos) (Double.of_Z (- w)) = true \/
  Double.leb (Double.of_Z (kImageHeight - 1 + w)) (snd pos) = true ->
  getKeypointIteratorsInWindow kImageHeight corner_row_LUT_ pos w = Ok (b, e) ->
  b = e.
Proof.
  intros Hy Hw HH Hout Hq.
  apply getKeypointIteratorsInWindow_inv in Hq as (Hw0 & t & bt & Hi & Hb & He & Htb).
  unfold INT_MAX in Hw.
  apply LUT_indices_value in Hi as (Hf & Ht & Hbt); [|assumption|lia].
  rewrite upper_row_int in Ht, Hbt by exact HH.
  cut (t = bt); [intros ->; congruence|].
  set (Y := B2Z 53 1024 (snd pos)) in *.
  destruct Hout as [Hout|Hout].
  - rewrite double_leb_of_Z_r in Hout by (assumption || lia).
    apply Z.leb_le in Hout. fold Y in Hout.
    pose proof (double_RNs_mono (Y + 2 ^ 1073) ((- 2 * w + 1) * 2 ^ 1073)
                  ltac:(lia)) as Ha.
    rewrite (RNs_exact 53 1024) in Ha by lia.
    pose proof (double_quot_RNs_mono (RNs 53 (Y + 2 ^ 1073) + w * 2 ^ 1074)
                  ((2 * 0 + 1) * 2 ^ 1073) ltac:(lia)) as Hr.
    rewrite (RNs_exact 53 1024) in Hr by lia.
    rewrite (quot_odd_half 0) in Hr. change (Z.quot (2 * 0 + 1) 2) with 0 in Hr.
    clear Ha Hout. unfold clamp in *. lia.
  - rewrite double_leb_of_Z_l in Hout by (assumption || lia).
    apply Z.leb_le in Hout. fold Y in Hout.
    pose proof (double_RNs_mono ((2 * (kImageHeight - 1 + w) + 1) * 2 ^ 1073)
                  (Y + 2 ^ 1073) ltac:(lia)) as Ha.
    rewrite (RNs_exact 53 1024) in Ha by lia.
    pose proof (double_quot_RNs_mono ((2 * (kImageHeight - 1) + 1) * 2 ^ 1073)
                  (RNs 53 (Y + 2 ^ 1073) - w * 2 ^ 1074) ltac:(lia)) as Hr.
    rewrite (RNs_exact 53 1024) in Hr by lia.
    rewrite quot_odd_half in Hr.
    assert (Hq : Z.quot (2 * (kImageHeight - 1) + 1) 2 = kImageHeight - 1)
      by (clear -HH; Z.quot_rem_to_equations; lia).
    rewrite Hq in Hr.
    clear Ha Hout Hq. unfold clamp in *. lia.
Qed.

Lemma window_outside_image_is_empty_witness : 5 = 5.
Proof.
  apply (window_outside_image_is_empty 10 [0; 0; 1; 1; 2; 3; 3; 3; 4; 5]
           (Double.zero, Double.of_Z 12) 3 5 5).
  - reflexivity.
  - unfold INT_MAX. lia.
  - lia.
  - right. reflexivity.
  - reflexivity.
Defined.

(** X5: the iterators returned delimit a range of the sorted keypoint vector:
    with a non-decreasing lookup table whose entries are offsets between 0
    and the number [n] of keypoints, [0 <= begin <= end <= n]. *)
Theorem window_range_well_formed kImageHeight corner_row_LUT_ pos w n b e :
  nondecreasing corner_row_LUT_ = true ->
  Forall (fun v => 0 <= v <= n) corner_row_LUT_ ->
  getKeypointIteratorsInWindow kImageHeight corner_row_LUT_ pos w = Ok (b, e) ->
  0 <= b /\ b <= e /\ e <= n.
Proof.
  intros Hlut Hall Hq.
  apply getKeypointIteratorsInWindow_inv in Hq as (_ & t & bt & _ & Hb & He & Htb).
  pose proof (lut_at_nondecreasing _ _ _ _ _ Hlut Htb Hb He) as Hbe.
  assert (Hin : forall i v, lut_at corner_row_LUT_ i = Some v -> 0 <= v <= n).
  { intros i v. unfold lut_at. destruct (i <? 0); [discriminate|].
    intros Hl. exact (proj1 (Forall_lookup _ _) Hall _ _ Hl). }
  pose proof (Hin _ _ Hb). pose proof (Hin _ _ He). lia.
Qed.

Lemma window_range_well_formed_witness : 0 <= 1 /\ 1 <= 3 /\ 3 <= 5.
Proof.
  apply (window_range_well_formed 10 [0; 0; 1; 1; 2; 3; 3; 3; 4; 5]
           (Double.zero, Double.of_Z 4) 2 5 1 3).
  - reflexivity.
  - repeat constructor; lia.
  - reflexivity.
Defined.

(** X6: a predicted row that is infinite or NaN makes the conversion to [int]
    undefined, for every positive half window. *)
Theorem window_non_finite_prediction kImageHeight corner_row_LUT_ pos w :
  is_finite (snd pos) = false -> 0 < w ->
  getKeypointIteratorsInWindow kImageHeight corner_row_LUT_ pos w = Undefined.
Proof.
  intros Hf Hw. unfold getKeypointIteratorsInWindow, LUT_indices.
  rewrite (proj2 (Z.ltb_lt 0 w) Hw). cbn [negb]. cbv zeta.
  destruct (snd pos) as [s|s| |s m e]; try discriminate.
  - change (Double.add (S754_infinity s) Double.half) with (S754_infinity s).
    destruct (Double.of_Z w) as [sw|sw| |sw mw ew]; destruct s; try destruct sw;
      reflexivity.
  - reflexivity.
Qed.

Lemma window_non_finite_prediction_witness :
  getKeypointIteratorsInWindow 10 [0; 0; 1; 1; 2; 3; 3; 3; 4; 5]
    (Double.zero, S754_nan) 2 = Undefined.
Proof.
  apply (window_non_finite_prediction 10 [0; 0; 1; 1; 2; 3; 3; 3; 4; 5]
           (Double.zero, S754_nan) 2); [reflexivity | lia].
Defined.

(** X7: [clamp] does not protect the conversion to [int]: for a predicted
    row of at least 2^31, or at most [-2^31 - 1], a window bound does not fit
    an [int] and the [static_cast] is undefined, for every positive half
    window. *)
Theorem window_prediction_out_of_int_range kImageHeight corner_row_LUT_ pos w :
  Double.valid (snd pos) -> 0 < w <= INT_MAX ->
  Double.leb (Double.of_Z (2 ^ 31)) (snd pos) = true \/
  Double.leb (snd pos) (Double.of_Z (- 2 ^ 31 - 1)) = true ->
  getKeypointIteratorsInWindow kImageHeight corner_row_LUT_ pos w = Undefined.
Proof.
  intros Hy Hw Hout. unfold getKeypointIteratorsInWindow.
  rewrite (proj2 (Z.ltb_lt 0 w)) by lia. cbn [negb].
  destruct (LUT_indices kImageHeight pos w) as [[t bt]|] eqn:Hi; [exfalso|reflexivity].
  apply LUT_indices_inv in Hi as (rt & rb & Ht & Hb & _ & _).
  unfold INT_MAX in Hw.
  destruct (LUT_rows_value _ w _ _ Hy ltac:(lia) Ht Hb)
    as (Hf & Hrt & Hrb & Et & Eb).
  unfold INT_MIN, INT_MAX in Hrt, Hrb.
  set (Y := B2Z 53 1024 (snd pos)) in *.
  destruct Hout as [Hout|Hout].
  - rewrite double_leb_of_Z_l in Hout by (assumption || lia).
    apply Z.leb_le in Hout. fold Y in Hout.
    pose proof (double_RNs_mono ((2 ^ 32 + 1) * 2 ^ 1073) (Y + 2 ^ 1073)
                  ltac:(lia)) as Ha.
    rewrite (RNs_exact 53 1024) in Ha by lia.
    pose proof (double_quot_RNs_mono ((2 * (2 ^ 31 + w) + 1) * 2 ^ 1073)
                  (RNs 53 (Y + 2 ^ 1073) + w * 2 ^ 1074) ltac:(lia)) as Hr.
    rewrite (RNs_exact 53 1024) in Hr by lia.
    rewrite quot_odd_half, <- Eb in Hr.
    assert (Hq : Z.quot (2 * (2 ^ 31 + w) + 1) 2 = 2 ^ 31 + w)
      by (clear -Hw; Z.quot_rem_to_equations; lia).
    lia.
  - rewrite double_leb_of_Z_r in Hout by (assumption || lia).
    apply Z.leb_le in Hout. fold Y in Hout.
    pose proof (double_RNs_mono (Y + 2 ^ 1073) ((2 * (- 2 ^ 31 - 1) + 1) * 2 ^ 1073)
                  ltac:(lia)) as Ha.
    rewrite (RNs_exact 53 1024) in Ha by lia.
    pose proof (double_quot_RNs_mono (RNs 53 (Y + 2 ^ 1073) - w * 2 ^ 1074)
                  ((2 * (- 2 ^ 31 - 1 - w) + 1) * 2 ^ 1073) ltac:(lia)) as Hr.
    rewrite (RNs_exact 53 1024) in Hr by lia.
    rewrite quot_odd_half, <- Et in Hr.
    assert (Hq : Z.quot (2 * (- 2 ^ 31 - 1 - w) + 1) 2 = - 2 ^ 31 - w)
      by (clear -Hw; Z.quot_rem_to_equations; lia).
    lia.
Qed.

Lemma window_prediction_out_of_int_range_witness :
  getKeypointIteratorsInWindow 10 [0; 0; 1; 1; 2; 3; 3; 3; 4; 5]
    (Double.zero, Double.of_Z (2 ^ 31)) 2 = Undefined.
Proof.
  apply (window_prediction_out_of_int_range 10 [0; 0; 1; 1; 2; 3; 3; 3; 4; 5]
           (Double.zero, Double.of_Z (2 ^ 31)) 2).
  - reflexivity.
  - unfold INT_MAX. lia.
  - left. reflexivity.
Defined.

(** X8: an image height outside [1, 2^31] makes every query undefined. For
    [kImageHeight = 0] the bound [kImageHeight - 1] wraps to [UINT_MAX], for
    a height above 2^31 it exceeds [INT_MAX]; converted to the [int] parameter
    of [clamp] it is negative either way, [clamp] returns it for both rows and
    the lookup table is read at a negative index. *)
Theorem window_bad_image_height kImageHeight corner_row_LUT_ pos w :
  kImageHeight = 0 \/ 2 ^ 31 < kImageHeight < 2 ^ 32 -> 0 < w ->
  getKeypointIteratorsInWindow kImageHeight corner_row_LUT_ pos w = Undefined.
Proof.
  intros HH Hw. unfold getKeypointIteratorsInWindow.
  rewrite (proj2 (Z.ltb_lt 0 w) Hw). cbn [negb].
  destruct (LUT_indices kImageHeight pos w) as [[t bt]|] eqn:Hi; [|reflexivity].
  apply LUT_indices_inv in Hi as (rt & rb & _ & _ & -> & _).
  assert (Hup : int_of_uint32 (to_uint32 (kImageHeight - 1)) < 0).
  { destruct HH as [->|HH]; [reflexivity|].
    unfold int_of_uint32, to_uint32.
    rewrite (Z.mod_small (kImageHeight - 1)) by lia.
    replace (kImageHeight - 1 + 2 ^ 31)
      with (kImageHeight - 1 - 2 ^ 31 + 1 * 2 ^ 32) by lia.
    rewrite Z.mod_add, Z.mod_small by lia. lia. }
  unfold lut_at.
  rewrite (proj2 (Z.ltb_lt _ 0)) by (unfold clamp; lia).
  reflexivity.
Qed.

Lemma window_bad_image_height_witness :
  getKeypointIteratorsInWindow 0 [0; 0; 1] (Double.zero, Double.of_Z 4) 2 = Undefined.
Proof.
  apply (window_bad_image_height 0 [0; 0; 1] (Double.zero, Double.of_Z 4) 2);
    [left; reflexivity | lia].
Defined.

(** X9: for an image height between 1 and 2^31 and output pointers that are
    not null, as long as the two conversions to [int] are defined, the only
    assertion of the window query that can fire is [CHECK_GT] on the half
    window: the query aborts exactly when the half window is not positive. *)
Theorem window_check_fails_iff kImageHeight corner_row_LUT_ pos w t b :
  Double.valid (snd pos) -> w <= INT_MAX -> 1 <= kImageHeight <= 2 ^ 31 ->
  (0 < w -> LUT_indices kImageHeight pos w = Some (t, b)) ->
  getKeypointIteratorsInWindow kImageHeight corner_row_LUT_ pos w = CheckFailed <->
  w <= 0.
Proof.
  intros Hy Hw HH Hcast. split.
  - intros Hq. destruct (Z_le_gt_dec w 0) as [|Hpos]; [assumption|exfalso].
    specialize (Hcast ltac:(lia)).
    assert (Hw' : 0 < w <= INT_MAX) by lia.
    destruct (LUT_indices_in_bounds _ _ _ _ _ Hy Hw' HH Hcast) as (Ht & Htb & Hb).
    rewrite (getKeypointIteratorsInWindow_eq _ _ _ _ t b) in Hq
      by (assumption || lia).
    destruct (lut_at corner_row_LUT_ t), (lut_at corner_row_LUT_ b); discriminate.
  - intros Hle. unfold getKeypointIteratorsInWindow.
    rewrite (proj2 (Z.ltb_ge 0 w) Hle). reflexivity.
Qed.

Lemma window_check_fails_iff_witness :
  getKeypointIteratorsInWindow 10 [0; 0; 1; 1; 2; 3; 3; 3; 4; 5]
    (Double.zero, Double.of_Z 4) 2 = CheckFailed <-> 2 <= 0.
Proof.
  apply (window_check_fails_iff 10 [0; 0; 1; 1; 2; 3; 3; 3; 4; 5]
           (Double.zero, Double.of_Z 4) 2 2 6).
  - reflexivity.
  - unfold INT_MAX. lia.
  - lia.
  - intros _. reflexivity.
Defined.

(** ** clamp *)

(** X10: [clamp] saturates. With ordered bounds the result lies between
    them, an input inside the bounds is returned unchanged, an input below
    gives [lower] and an input above gives [upper]. With inverted bounds
    ([upper < lower]) the result is [upper] for every input. In both cases
    [clamp] is idempotent and monotone in its input. *)
Theorem clamp_saturates lower upper in_ :
  (lower <= upper ->
     lower <= clamp lower upper in_ <= upper /\
     (in_ < lower -> clamp lower upper in_ = lower) /\
     (lower <= in_ <= upper -> clamp lower upper in_ = in_) /\
     (upper < in_ -> clamp lower upper in_ = upper)) /\
  (upper < lower -> clamp lower upper in_ = upper) /\
  clamp lower upper (clamp lower upper in_) = clamp lower upper in_ /\
  (forall in', in_ <= in' -> clamp lower upper in_ <= clamp lower upper in').
Proof. unfold clamp. repeat split; intros; lia. Qed.

(** ** addCandidate *)

(** X11: [addCandidate] appends to both vectors: they stay equally long, the
    new candidate and its score are found at the old length, and every
    earlier entry keeps its index. *)
Theorem addCandidate_appends md it s md' :
  length (keypoint_match_candidates_frame1 md) =
  length (match_candidate_matching_scores md) ->
  addCandidate md it s = Ok md' ->
  length (keypoint_match_candidates_frame1 md') =
    S (length (keypoint_match_candidates_frame1 md)) /\
  length (match_candidate_matching_scores md') =
    S (length (keypoint_match_candidates_frame1 md)) /\
  keypoint_match_candidates_frame1 md'
    !! length (keypoint_match_candidates_frame1 md) = Some it /\
  match_candidate_matching_scores md'
    !! length (keypoint_match_candidates_frame1 md) = Some s /\
  (forall i, (i < length (keypoint_match_candidates_frame1 md))%nat ->
     keypoint_match_candidates_frame1 md' !! i =
       keypoint_match_candidates_frame1 md !! i /\
     match_candidate_matching_scores md' !! i =
       match_candidate_matching_scores md !! i).
Proof.
  intros Hlen H. apply addCandidate_inv in H as [_ ->]. cbn.
  rewrite !length_app. cbn [length].
  split; [lia|]. split; [lia|].
  split; [apply list_lookup_middle; reflexivity|].
  split; [apply list_lookup_middle; exact Hlen|].
  intros i Hi. split; apply lookup_app_l; lia.
Qed.

Lemma addCandidate_appends_witness :
  length [7] = 1%nat /\
  length [computeMatchingScore 230 256] = 1%nat /\
  [7] !! 0%nat = Some 7 /\
  [computeMatchingScore 230 256] !! 0%nat = Some (computeMatchingScore 230 256) /\
  (forall i, (i < 0)%nat ->
     [7] !! i = @nil KeyPointIterator !! i /\
     [computeMatchingScore 230 256] !! i = @nil spec_float !! i).
Proof.
  apply (addCandidate_appends MatchData_default 7 (computeMatchingScore 230 256)
           {| keypoint_match_candidates_frame1 := [7];
              match_candidate_matching_scores := [computeMatchingScore 230 256] |});
    reflexivity.
Defined.

(** The exact value of a number of the format is its scaled integer value
    over [2 ^ 1074]. *)
Lemma double_B2Q_B2Z x :
  wfF 53 1024 x -> (B2Q x == B2Z 53 1024 x # Z.to_pos (2 ^ 1074))%Q.
Proof.
  destruct x as [s|s| |s m e]; try (intros _; reflexivity).
  intros [He Hm]. change (emin 53 1024) with (-1074) in He.
  cbn [B2Q B2Z]. change (emin 53 1024) with (-1074).
  replace (e - -1074) with (e + 1074) by lia.
  pose proof (pow2_pos (e + 1074) ltac:(lia)) as HP.
  destruct (Z.leb_spec 0 e) as [H0|H0].
  - unfold Qeq, inject_Z. cbn [Qnum Qden]. rewrite Z2Pos.id by lia.
    rewrite !cond_Zopp_mul, Z.pow_add_r by lia. ring.
  - pose proof (pow2_pos (- e) ltac:(lia)) as HX.
    unfold Qeq. cbn [Qnum Qden]. rewrite !Z2Pos.id by lia.
    rewrite cond_Zopp_mul, <- Z.mul_assoc, <- Z.pow_add_r by lia.
    replace (e + 1074 + - e) with 1074 by lia. reflexivity.
Qed.

(** X12: [addCandidate] never runs into undefined behaviour, and it records
    a candidate exactly when the score is a finite number whose exact value
    lies in (0, 1]: NaN, the infinities, both zeros and every negative number
    make it abort. *)
Theorem addCandidate_accepts_iff md it s :
  Double.valid s ->
  addCandidate md it s <> Undefined /\
  ((exists md', addCandidate md it s = Ok md') <->
   is_finite s = true /\ (0 < B2Q s)%Q /\ (B2Q s <= 1)%Q).
Proof.
  intros Hv. split.
  { unfold addCandidate.
    destruct (negb (Double.ltb Double.zero s)); [discriminate|].
    destruct (negb (Double.leb s Double.one)); discriminate. }
  destruct (is_finite s) eqn:Hf.
  2:{ split; [|intros [? _]; discriminate].
      intros [md' H]. exfalso. revert H. unfold addCandidate.
      destruct s as [sg|sg| |sg m e]; try discriminate; try destruct sg;
        discriminate. }
  assert (H0 : Double.ltb Double.zero s = (0 <? B2Z 53 1024 s)).
  { rewrite double_ltb_B2Z by (assumption || reflexivity). reflexivity. }
  assert (H1 : Double.leb s Double.one = (B2Z 53 1024 s <=? 2 ^ 1074)).
  { rewrite double_leb_B2Z by (assumption || reflexivity). reflexivity. }
  pose proof (double_B2Q_B2Z s (double_valid_wfF s Hv)) as HQ.
  assert (Hpos : (0 < B2Q s)%Q <-> 0 < B2Z 53 1024 s).
  { rewrite HQ. unfold Qlt. cbn [Qnum Qden]. lia. }
  assert (Hle : (B2Q s <= 1)%Q <-> B2Z 53 1024 s <= 2 ^ 1074).
  { rewrite HQ. unfold Qle. cbn [Qnum Qden]. rewrite Z2Pos.id by lia. lia. }
  rewrite Hpos, Hle. unfold addCandidate. rewrite H0, H1.
  destruct (Z.ltb_spec 0 (B2Z 53 1024 s)) as [Ha|Ha]; cbn [negb].
  - destruct (Z.leb_spec (B2Z 53 1024 s) (2 ^ 1074)) as [Hb|Hb]; cbn [negb].
    + split; [auto|]. intros _. eauto.
    + split; [intros [? H]; discriminate | lia].
  - split; [intros [? H]; discriminate | lia].
Qed.

Lemma addCandidate_accepts_iff_witness :
  addCandidate MatchData_default 7 (computeMatchingScore 230 256) <> Undefined /\
  ((exists md', addCandidate MatchData_default 7 (computeMatchingScore 230 256) = Ok md') <->
   is_finite (computeMatchingScore 230 256) = true /\
   (0 < B2Q (computeMatchingScore 230 256))%Q /\
   (B2Q (computeMatchingScore 230 256) <= 1)%Q).
Proof.
  apply (addCandidate_accepts_iff MatchData_default 7 (computeMatchingScore 230 256)).
  reflexivity.
Defined.

(** ** The matching score *)

Lemma computeMatchingScore_zero_bits b :
  0 < b < 2 ^ 53 -> computeMatchingScore 0 b = Double.zero.
Proof.
  intros Hb.
  unfold computeMatchingScore, Double.div, Double.of_Z, Double.prec, Double.emax.
  rewrite (of_Z_normal 53 1024 ltac:(lia) ltac:(lia) ltac:(lia) b) by lia.
  reflexivity.
Qed.

(** The score [s] of a non-negative number [a] of matching bits, taken in
    units of [2 ^ -1074]: a finite number with [|s * b - a|] below one half. *)
Lemma computeMatchingScore_value a b :
  0 <= a < 2 ^ 51 -> 0 < b < 2 ^ 53 ->
  Double.valid (computeMatchingScore a b) /\
  is_finite (computeMatchingScore a b) = true /\
  2 * Z.abs (B2Z 53 1024 (computeMatchingScore a b) * b - a * 2 ^ 1074) < 2 ^ 1074.
Proof.
  intros Ha Hb.
  destruct (Z.eq_dec a 0) as [->|Ha0].
  { rewrite computeMatchingScore_zero_bits by exact Hb.
    split; [reflexivity|]. split; [reflexivity|]. cbn [B2Z Double.zero]. lia. }
  destruct (SFdiv_int_any 53 1024 ltac:(lia) ltac:(lia) ltac:(lia) a b)
    as (m & e & Hdiv & Hval & Hm & He & Hbe & Hbound); try lia.
  unfold computeMatchingScore, Double.div, Double.of_Z, Double.prec, Double.emax,
    Double.valid.
  rewrite Hdiv. split; [exact Hval|]. split; [reflexivity|].
  cbn [B2Z cond_Zopp]. change (emin 53 1024) with (-1074).
  change (emin 53 1024) with (-1074) in He.
  replace (e - -1074) with (e + 1074) by lia.
  pose proof (pow2_pos (e + 1074) ltac:(lia)) as HP.
  pose proof (pow2_pos (- e) ltac:(lia)) as HX.
  assert (HU : 2 ^ 1074 = 2 ^ (- e) * 2 ^ (e + 1074)).
  { rewrite <- Z.pow_add_r by lia. f_equal. lia. }
  rewrite HU.
  set (P := 2 ^ (e + 1074)) in *. set (X := 2 ^ (- e)) in *.
  replace (Z.pos m * P * b - a * (X * P)) with ((Z.pos m * b - a * X) * P) by ring.
  rewrite Z.abs_mul, (Z.abs_eq P) by lia.
  set (D := Z.abs (Z.pos m * b - a * X)) in *.
  assert (HD : 0 <= D) by (unfold D; lia).
  assert (H1 : 2 * D * P <= b * P) by (apply Z.mul_le_mono_nonneg_r; lia).
  assert (H2 : b * P < X * P) by (apply Z.mul_lt_mono_pos_r; lia).
  lia.
Qed.

(** A descriptor that matches in every bit scores exactly 1.0. *)
Lemma computeMatchingScore_self b :
  0 < b < 2 ^ 53 -> computeMatchingScore b b = Double.one.
Proof.
  intros Hb.
  destruct (computeMatchingScore_spec b b) as (m & e & Hs & Hm & He & Hbound);
    try lia.
  rewrite Hs.
  pose proof (pow2_pos (- e) ltac:(lia)) as HpE.
  assert (Em : Z.pos m = 2 ^ (- e)) by nia.
  assert (Ee : - e = 52).
  { rewrite Em in Hm. destruct Hm as [_ Hm].
    apply Z.pow_lt_mono_r_iff in Hm; lia. }
  assert (e = -52) by lia. subst e.
  change (2 ^ (- -52)) with 4503599627370496 in Em.
  injection Em as ->. reflexivity.
Qed.

Lemma computeMatchingScore_lt_B2Z b n1 n2 :
  0 < b < 2 ^ 53 -> 0 <= n1 -> n1 < n2 -> n2 < 2 ^ 51 ->
  B2Z 53 1024 (computeMatchingScore n1 b) < B2Z 53 1024 (computeMatchingScore n2 b).
Proof.
  intros Hb Hn1 Hlt Hn2.
  destruct (computeMatchingScore_value n1 b ltac:(lia) Hb) as (_ & _ & H1).
  destruct (computeMatchingScore_value n2 b ltac:(lia) Hb) as (_ & _ & H2).
  set (V1 := B2Z 53 1024 (computeMatchingScore n1 b)) in *.
  set (V2 := B2Z 53 1024 (computeMatchingScore n2 b)) in *.
  assert (HU : 0 < 2 ^ 1074) by lia.
  set (U := 2 ^ 1074) in *.
  assert (Hn : (n1 + 1) * U <= n2 * U) by (apply Z.mul_le_mono_nonneg_r; lia).
  apply (Z.mul_lt_mono_pos_r b); lia.
Qed.

(** X13: the score orders candidates as the number of matching bits does:
    for a descriptor size [0 < bits < 2^32] and non-negative [int] counts,
    [score(n1) < score(n2)] exactly when [n1 < n2]; rounding never merges nor
    swaps two counts. *)
Theorem computeMatchingScore_order bits n1 n2 :
  0 < bits < 2 ^ 32 -> 0 <= n1 <= INT_MAX -> 0 <= n2 <= INT_MAX ->
  Double.ltb (computeMatchingScore n1 bits) (computeMatchingScore n2 bits) =
  (n1 <? n2).
Proof.
  intros Hb Hn1 Hn2. unfold INT_MAX in *.
  destruct (computeMatchingScore_value n1 bits ltac:(lia) ltac:(lia)) as (Hv1 & Hf1 & _).
  destruct (computeMatchingScore_value n2 bits ltac:(lia) ltac:(lia)) as (Hv2 & Hf2 & _).
  rewrite double_ltb_B2Z by assumption.
  destruct (Z.ltb_spec n1 n2) as [Hlt|Hge].
  - apply Z.ltb_lt. apply computeMatchingScore_lt_B2Z; lia.
  - apply Z.ltb_ge. destruct (Z.eq_dec n1 n2) as [->|Hne]; [lia|].
    apply Z.lt_le_incl. apply computeMatchingScore_lt_B2Z; lia.
Qed.

Lemma computeMatchingScore_order_witness :
  Double.ltb (computeMatchingScore 229 256) (computeMatchingScore 230 256) =
  (229 <? 230).
Proof. apply (computeMatchingScore_order 256 229 230); unfold INT_MAX; lia. Defined.

(** A negative count of matching bits never gives a positive score. *)
Lemma computeMatchingScore_negative n b :
  n < 0 -> 0 <= b ->
  Double.ltb Double.zero (computeMatchingScore n b) = false.
Proof.
  intros Hn Hb.
  unfold computeMatchingScore, Double.div, Double.of_Z, Double.prec, Double.emax.
  destruct n as [|p|p]; try lia.
  unfold binary_normalize at 1.
  pose proof (binary_round_value 53 1024 ltac:(lia) ltac:(lia) true p 0
                ltac:(unfold emin; lia)) as Hx.
  destruct (binary_round 53 1024 true p 0) as [sx|sx| |sx mx ex];
    try contradiction.
  - subst sx. destruct b as [|q|q]; try lia; [reflexivity|].
    unfold binary_normalize.
    pose proof (binary_round_value 53 1024 ltac:(lia) ltac:(lia) false q 0
                  ltac:(unfold emin; lia)) as Hy.
    destruct (binary_round 53 1024 false q 0) as [sy|sy| |sy my ey];
      try contradiction; [subst sy|destruct Hy as [-> _]]; reflexivity.
  - destruct Hx as [-> _]. destruct b as [|q|q]; try lia; [reflexivity|].
    unfold binary_normalize.
    pose proof (binary_round_value 53 1024 ltac:(lia) ltac:(lia) false q 0
                  ltac:(unfold emin; lia)) as Hy.
    destruct (binary_round 53 1024 false q 0) as [sy|sy| |sy my ey];
      try contradiction; [subst sy; reflexivity|destruct Hy as [-> _]].
    unfold SFdiv.
    destruct (SFdiv_core_binary 53 1024 (Z.pos mx) ex (Z.pos my) ey) as [[mz ez] lz].
    rewrite (binary_round_aux_sign 53 1024).
    destruct (binary_round_aux 53 1024 false mz ez lz); reflexivity.
Qed.

(** X14: [addCandidate] applied to a computed score: for a descriptor size
    below 2^32 and an [int] count [n] of matching bits, the candidate is
    recorded when [0 < n <= bits] and the call aborts otherwise (no matching
    bit, a negative count, more matching bits than the descriptor has, or a
    descriptor size of 0). *)
Theorem addCandidate_computeMatchingScore md it n bits :
  0 <= bits < 2 ^ 32 -> INT_MIN <= n <= INT_MAX ->
  addCandidate md it (computeMatchingScore n bits) =
  if (0 <? n) && (n <=? bits) then
    Ok {| keypoint_match_candidates_frame1 :=
            keypoint_match_candidates_frame1 md ++ [it];
          match_candidate_matching_scores :=
            match_candidate_matching_scores md ++ [computeMatchingScore n bits] |}
  else CheckFailed.
Proof.
  intros Hb Hn. unfold INT_MIN, INT_MAX in Hn.
  destruct (Z.ltb_spec 0 n) as [Hpos|Hneg]; cbn [andb].
  2:{ unfold addCandidate.
      destruct (Z.eq_dec n 0) as [->|Hn0].
      - destruct (Z.eq_dec bits 0) as [->|Hb0]; [reflexivity|].
        rewrite computeMatchingScore_zero_bits by lia. reflexivity.
      - rewrite computeMatchingScore_negative by lia. reflexivity. }
  destruct (Z.eq_dec bits 0) as [->|Hb0].
  { rewrite (proj2 (Z.leb_gt n 0)) by lia.
    unfold addCandidate, computeMatchingScore, Double.div, Double.of_Z,
      Double.prec, Double.emax.
    rewrite (of_Z_normal 53 1024 ltac:(lia) ltac:(lia) ltac:(lia) n) by lia.
    reflexivity. }
  destruct (computeMatchingScore_value n bits ltac:(lia) ltac:(lia)) as (Hv & Hf & Hval).
  assert (H0 : Double.ltb Double.zero (computeMatchingScore n bits) = true).
  { rewrite double_ltb_B2Z by (assumption || reflexivity).
    apply Z.ltb_lt. cbn [B2Z Double.zero].
    assert (HnU : 1 * 2 ^ 1074 <= n * 2 ^ 1074)
      by (apply Z.mul_le_mono_nonneg_r; lia).
    set (V := B2Z 53 1024 (computeMatchingScore n bits)) in *.
    set (U := 2 ^ 1074) in *.
    destruct (Z_lt_le_dec 0 V) as [|HV]; [assumption|exfalso].
    assert (V * bits <= 0) by (apply Z.mul_nonpos_nonneg; lia). lia. }
  assert (H1 : Double.leb (computeMatchingScore n bits) Double.one = (n <=? bits)).
  { rewrite <- (computeMatchingScore_self bits) by lia.
    destruct (computeMatchingScore_value bits bits ltac:(lia) ltac:(lia))
      as (Hvb & Hfb & _).
    rewrite double_leb_B2Z by assumption.
    destruct (Z.leb_spec n bits) as [Hle|Hgt].
    - apply Z.leb_le. destruct (Z.eq_dec n bits) as [->|Hne]; [lia|].
      apply Z.lt_le_incl. apply computeMatchingScore_lt_B2Z; lia.
    - apply Z.leb_gt. apply computeMatchingScore_lt_B2Z; lia. }
  unfold addCandidate. rewrite H0, H1. cbn [negb].
  destruct (n <=? bits); reflexivity.
Qed.

Lemma addCandidate_computeMatchingScore_witness :
  addCandidate MatchData_default 7 (computeMatchingScore 230 256) =
  if (0 <? 230) && (230 <=? 256) then
    Ok {| keypoint_match_candidates_frame1 :=
            keypoint_match_candidates_frame1 MatchData_default ++ [7];
          match_candidate_matching_scores :=
            match_candidate_matching_scores MatchData_default ++
            [computeMatchingScore 230 256] |}
  else CheckFailed.
Proof.
  apply (addCandidate_computeMatchingScore MatchData_default 7 230 256);
    unfold INT_MIN, INT_MAX; lia.
Defined.

(** X15: with a descriptor size of 0 the division is a division by zero: the
    score is [+infinity] for a positive count, NaN for 0 and [-infinity] for a
    negative count, never a finite number. *)
Theorem computeMatchingScore_zero_size n :
  INT_MIN <= n <= INT_MAX ->
  computeMatchingScore n 0 =
  if 0 <? n then S754_infinity false
  else if n =? 0 then S754_nan else S754_infinity true.
Proof.
  intros Hn. unfold INT_MIN, INT_MAX in Hn.
  unfold computeMatchingScore, Double.div, Double.of_Z, Double.prec, Double.emax.
  destruct (Z.ltb_spec 0 n) as [Hpos|Hneg].
  - rewrite (of_Z_normal 53 1024 ltac:(lia) ltac:(lia) ltac:(lia) n) by lia.
    reflexivity.
  - destruct (Z.eqb_spec n 0) as [->|Hn0]; [reflexivity|].
    destruct n as [|p|p]; try lia.
    unfold binary_normalize at 1.
    pose proof (binary_round_value 53 1024 ltac:(lia) ltac:(lia) true p 0
                  ltac:(unfold emin; lia)) as Hx.
    destruct (binary_round 53 1024 true p 0) as [sx|sx| |sx mx ex];
      try contradiction.
    + subst sx. reflexivity.
    + destruct Hx as [-> _]. reflexivity.
Qed.

Lemma computeMatchingScore_zero_size_witness :
  computeMatchingScore 5 0 =
  if 0 <? 5 then S754_infinity false
  else if 5 =? 0 then S754_nan else S754_infinity true.
Proof. apply (computeMatchingScore_zero_size 5); unfold INT_MIN, INT_MAX; lia. Defined.

(** X16: for a descriptor size that is a power of two (256 or 512 bits in
    practice) and an [int] count of matching bits up to that size, the score
    is exact: its value is the rational [n / bits]. *)
Theorem computeMatchingScore_exact_pow2 k n :
  0 <= k <= 31 -> 0 <= n <= 2 ^ k -> n <= INT_MAX ->
  (B2Q (computeMatchingScore n (2 ^ k)) == n # Z.to_pos (2 ^ k))%Q.
Proof.
  intros Hk Hn _.
  pose proof (pow2_pos k ltac:(lia)) as Hpk.
  assert (Hk53 : 2 ^ k < 2 ^ 53) by (apply Z.pow_lt_mono_r; lia).
  destruct (Z.eq_dec n 0) as [->|Hn0].
  { rewrite computeMatchingScore_zero_bits by lia. reflexivity. }
  destruct (computeMatchingScore_spec n (2 ^ k)) as (m & e & Hs & Hm & He & Hbound);
    try lia.
  rewrite Hs. cbn [B2Q cond_Zopp]. rewrite (proj2 (Z.leb_gt 0 e)) by lia.
  pose proof (pow2_pos (- e) ltac:(lia)) as HpE.
  unfold Qeq. cbn [Qnum Qden]. rewrite !Z2Pos.id by lia.
  assert (HE : 2 ^ (- e) = 2 ^ (- e - k) * 2 ^ k).
  { rewrite <- Z.pow_add_r by lia. f_equal. lia. }
  rewrite HE in Hbound |- *.
  set (X := 2 ^ (- e - k)) in *. set (B := 2 ^ k) in *.
  replace (Z.pos m * B - n * (X * B)) with ((Z.pos m - n * X) * B) in Hbound by ring.
  rewrite Z.abs_mul, (Z.abs_eq B) in Hbound by lia.
  assert (Z.abs (Z.pos m - n * X) = 0) by nia.
  replace (Z.pos m) with (n * X) by lia. ring.
Qed.

Lemma computeMatchingScore_exact_pow2_witness :
  (B2Q (computeMatchingScore 230 (2 ^ 8)) == 230 # Z.to_pos (2 ^ 8))%Q.
Proof. apply (computeMatchingScore_exact_pow2 8 230); unfold INT_MAX; lia. Defined.

(** ** The ratio test on the whole range of [unsigned int] *)

(** An [unsigned int] converts to a normal [float] whose value is the
    integer rounded to 24 bits. *)
Lemma float_of_Z_normal d :
  0 < d < 2 ^ 32 ->
  exists m e, Float.of_Z d = S754_finite false m e /\
    2 ^ 23 <= Z.pos m < 2 ^ 24 /\ -23 <= e <= 9 /\
    Z.pos m * 2 ^ (e + 23) = RN 24 d * 2 ^ 23.
Proof.
  intros Hd.
  destruct (of_Z_round_normal 24 128 ltac:(lia) ltac:(lia) ltac:(lia) d)
    as (m & e & Hof & Hm & He & Hv); [lia|].
  change (24 - 1) with 23 in *. change (1 - 24) with (-23) in He.
  replace (e + 24 - 1) with (e + 23) in Hv by lia.
  exists m, e. split; [exact Hof|]. split; [exact Hm|]. split; [|exact Hv].
  split; [lia|].
  pose proof (RN_below 24 128 ltac:(lia) ltac:(lia) ltac:(lia) d 32
                ltac:(lia) ltac:(lia)) as HR.
  destruct (Z_le_gt_dec e 9) as [|Hgt]; [assumption|exfalso].
  assert (HP : 2 ^ 33 <= 2 ^ (e + 23)) by (apply Z.pow_le_mono_r; lia).
  assert (H1 : 2 ^ 23 * 2 ^ 33 <= Z.pos m * 2 ^ (e + 23))
    by (apply Z.mul_le_mono_nonneg; lia).
  assert (H2 : RN 24 d * 2 ^ 23 <= 2 ^ 32 * 2 ^ 23)
    by (apply Z.mul_le_mono_nonneg_r; lia).
  lia.
Qed.

(** The [float] comparison of [ratioTest] in terms of the rounded integers.
    0.8f is 13421773 * 2^-24; a quotient compares below it exactly when it
    is below the midpoint 26843545 * 2^-25 to its predecessor. *)
Lemma ratio_compare_rounded d1 d2 :
  0 < d1 -> d1 <= d2 -> d2 < 2 ^ 32 ->
  Float.ltb (Float.div (Float.of_Z d1) (Float.of_Z d2)) kLoweRatio =
  (33554432 * RN 24 d1 <? 26843545 * RN 24 d2).
Proof.
  intros Hd1 Hd12 Hd2.
  destruct (float_of_Z_normal d1 ltac:(lia)) as (m1 & e1 & Hof1 & Hm1 & He1 & Hv1).
  destruct (float_of_Z_normal d2 ltac:(lia)) as (m2 & e2 & Hof2 & Hm2 & He2 & Hv2).
  pose proof (RN_mono 24 128 ltac:(lia) ltac:(lia) ltac:(lia) d1 d2 ltac:(lia)) as HR.
  set (R1 := RN 24 d1) in *. set (R2 := RN 24 d2) in *.
  change (2 ^ 23) with 8388608 in *. change (2 ^ 24) with 16777216 in *.
  pose proof (pow2_pos (e1 + 23) ltac:(lia)) as HP.
  assert (He12 : e1 <= e2).
  { destruct (Z_le_gt_dec e1 e2) as [|Hgt]; [assumption|exfalso].
    assert (HX : 2 ^ (e1 + 23) = 2 ^ (e1 - e2) * 2 ^ (e2 + 23)).
    { rewrite <- Z.pow_add_r by lia. f_equal. lia. }
    assert (HY : 2 ^ 1 <= 2 ^ (e1 - e2)) by (apply Z.pow_le_mono_r; lia).
    rewrite Z.pow_1_r in HY.
    pose proof (pow2_pos (e2 + 23) ltac:(lia)) as HP2.
    rewrite HX in Hv1. nia. }
  assert (HS : 2 ^ (e2 + 23) = 2 ^ (e2 - e1) * 2 ^ (e1 + 23)).
  { rewrite <- Z.pow_add_r by lia. f_equal. lia. }
  rewrite HS in Hv2.
  pose proof (pow2_pos (e2 - e1) ltac:(lia)) as HSp.
  set (P := 2 ^ (e1 + 23)) in *. set (S := 2 ^ (e2 - e1)) in *.
  assert (Hgoal : (33554432 * R1 <? 26843545 * R2) =
                  (33554432 * Z.pos m1 <? 26843545 * (Z.pos m2 * S))).
  { destruct (Z.ltb_spec (33554432 * Z.pos m1) (26843545 * (Z.pos m2 * S)))
      as [Hl|Hl].
    - apply Z.ltb_lt.
      assert (33554432 * Z.pos m1 * P < 26843545 * (Z.pos m2 * S) * P)
        by (apply Z.mul_lt_mono_pos_r; lia).
      nia.
    - apply Z.ltb_ge.
      assert (26843545 * (Z.pos m2 * S) * P <= 33554432 * Z.pos m1 * P)
        by (apply Z.mul_le_mono_nonneg_r; lia).
      nia. }
  rewrite Hgoal. clear Hgoal Hv1 Hv2 HR. clearbody R1 R2 P.
  destruct (SFdiv_normal_strict 24 128 ltac:(lia) ltac:(lia) ltac:(lia) m1 e1 m2 e2)
    as (m & j & Hj & Hdiv & Hm & Hbound);
    [change (2 ^ (24 - 1)) with 8388608; change (2 ^ 24) with 16777216; lia ..
    | unfold emin; lia |].
  change (2 ^ (24 - 1)) with 8388608 in Hm. change (2 ^ 24) with 16777216 in Hm, Hbound.
  unfold Float.div, Float.prec, Float.emax. rewrite Hof1, Hof2, Hdiv.
  destruct m as [|p|p]; try lia.
  unfold bra_result.
  rewrite (proj2 (Z.leb_le (e1 - e2 - 24 + j) (128 - 24))) by lia.
  unfold Float.ltb, SFltb, kLoweRatio, SFcompare.
  pose proof (pow2_pos j ltac:(lia)) as HJ.
  set (J := 2 ^ j) in *.
  set (A := Z.pos m1) in *. set (B := Z.pos m2) in *.
  destruct (Z.compare_spec (e1 - e2 - 24 + j) (-24)) as [E|E|E].
  - assert (EJ : J = S) by (unfold J, S; f_equal; lia).
    rewrite EJ in Hbound. clearbody J S.
    rewrite Pos.compare_cont_spec, Pos2Z.inj_compare. cbn [Pos.switch_Eq].
    set (BS := B * S) in *.
    assert (HBS : 0 < BS) by (unfold BS; nia).
    replace (Z.pos p * S * B) with (Z.pos p * BS) in Hbound by (unfold BS; ring).
    destruct (Z.compare_spec (Z.pos p) 13421773) as [Em|Em|Em]; symmetry.
    + apply Z.ltb_ge. rewrite Em in Hbound. clearbody BS. lia.
    + apply Z.ltb_lt.
      assert (Z.pos p * BS <= 13421772 * BS)
        by (apply Z.mul_le_mono_nonneg_r; lia).
      clearbody BS. lia.
    + apply Z.ltb_ge.
      assert (13421774 * BS <= Z.pos p * BS)
        by (apply Z.mul_le_mono_nonneg_r; lia).
      clearbody BS. lia.
  - symmetry. apply Z.ltb_lt.
    assert (EJ : 2 * J <= S).
    { unfold J, S. rewrite <- (Z.pow_1_r 2) at 1. rewrite <- Z.pow_add_r by lia.
      apply Z.pow_le_mono_r; lia. }
    clearbody J S.
    set (BJ := B * J) in *.
    assert (HBJ : 0 < BJ) by (unfold BJ; nia).
    replace (Z.pos p * J * B) with (Z.pos p * BJ) in Hbound by (unfold BJ; ring).
    assert (H1 : Z.pos p * BJ <= 16777215 * BJ)
      by (apply Z.mul_le_mono_nonneg_r; lia).
    assert (H2 : 2 * BJ <= B * S).
    { unfold BJ. replace (2 * (B * J)) with (B * (2 * J)) by ring.
      apply Z.mul_le_mono_nonneg_l; lia. }
    set (BS := B * S) in *. clearbody BJ BS. lia.
  - symmetry. apply Z.ltb_ge.
    assert (EJ : 2 * S <= J).
    { unfold J, S. rewrite <- (Z.pow_1_r 2) at 1. rewrite <- Z.pow_add_r by lia.
      apply Z.pow_le_mono_r; lia. }
    clearbody J S.
    set (BJ := B * J) in *.
    assert (HBJ : 0 < BJ) by (unfold BJ; nia).
    replace (Z.pos p * J * B) with (Z.pos p * BJ) in Hbound by (unfold BJ; ring).
    assert (H1 : 8388608 * BJ <= Z.pos p * BJ)
      by (apply Z.mul_le_mono_nonneg_r; lia).
    assert (H2 : 2 * (B * S) <= BJ).
    { unfold BJ. replace (2 * (B * S)) with (B * (2 * S)) by ring.
      apply Z.mul_le_mono_nonneg_l; lia. }
    set (BS := B * S) in *. clearbody BJ BS. lia.
Qed.

(** What [ratioTest] returns in its third branch, for all [unsigned int]
    distances. *)
Lemma ratioTest_rounded bits d1 d2 :
  0 <= d1 -> d1 <= d2 -> 0 < d2 <= bits -> d2 < 2 ^ 32 ->
  ratioTest bits d1 d2 = Ok (33554432 * RN 24 d1 <? 26843545 * RN 24 d2).
Proof.
  intros Hd1 Hd12 Hd2 Hb. unfold ratioTest.
  rewrite (proj2 (Z.leb_le d1 d2) Hd12). cbn [negb].
  rewrite (proj2 (Z.ltb_ge bits d2)) by lia.
  rewrite (proj2 (Z.eqb_neq d2 0)) by lia.
  f_equal. destruct (Z.eq_dec d1 0) as [->|Hne].
  - destruct (float_of_Z_normal d2 ltac:(lia)) as (m2 & e2 & Hof2 & _ & He2 & Hv2).
    rewrite Hof2. rewrite (RN_0 24) by lia.
    pose proof (pow2_pos (e2 + 23) ltac:(lia)).
    symmetry. apply Z.ltb_lt. nia.
  - apply ratio_compare_rounded; lia.
Qed.

(** X17: for distances below 2^24 (every descriptor of up to 16 million
    bits) the ratio test is an integer comparison: with [0 < d2 <= bits] it
    passes exactly when [33554432 * d1 < 26843545 * d2], that is when
    [d1 / d2] is below the midpoint between 0.8f and the [float] before it.
    The test is therefore never more lenient than the exact one: a pair that
    passes has [d1 / d2 < 0.8]. *)
Theorem ratioTest_integer_form bits d1 d2 :
  0 <= d1 -> d1 <= d2 -> 0 < d2 <= bits -> d2 < 2 ^ 24 ->
  ratioTest bits d1 d2 = Ok (33554432 * d1 <? 26843545 * d2) /\
  (ratioTest bits d1 d2 = Ok true -> (d1 # Z.to_pos d2 < 8 # 10)%Q).
Proof.
  intros Hd1 Hd12 Hd2 Hb.
  assert (Hid : forall d, 0 <= d < 2 ^ 24 -> RN 24 d = d).
  { intros d Hd. destruct (Z.eq_dec d 0) as [->|Hne]; [apply RN_0; lia|].
    pose proof (proj1 (Z.log2_lt_pow2 d 24 ltac:(lia)) ltac:(lia)).
    apply RN_small; lia. }
  assert (E : ratioTest bits d1 d2 = Ok (33554432 * d1 <? 26843545 * d2)).
  { rewrite ratioTest_rounded by lia. rewrite !Hid by lia. reflexivity. }
  split; [exact E|]. rewrite E. intros H. injection H as H.
  apply Z.ltb_lt in H. apply ratio_below_iff; lia.
Qed.

Lemma ratioTest_integer_form_witness :
  ratioTest 256 10 20 = Ok (33554432 * 10 <? 26843545 * 20) /\
  (ratioTest 256 10 20 = Ok true -> (10 # Z.to_pos 20 < 8 # 10)%Q).
Proof. apply (ratioTest_integer_form 256 10 20); lia. Defined.

(** X18: the ratio test is monotone on the whole range of [unsigned int]: a
    pair of distances that passes still passes when the closest distance
    shrinks or the second-closest distance grows. *)
Theorem ratioTest_monotone bits d1 d1' d2 d2' :
  0 <= d1' -> d1' <= d1 -> d1 <= d2 -> d2 <= d2' -> d2' < 2 ^ 32 ->
  ratioTest bits d1 d2 = Ok true -> ratioTest bits d1' d2' = Ok true.
Proof.
  intros H0 H1 H12 H2 Hb Hpass.
  destruct (Z_lt_le_dec bits d2') as [Hgt|Hle].
  { unfold ratioTest. rewrite (proj2 (Z.leb_le d1' d2')) by lia. cbn [negb].
    rewrite (proj2 (Z.ltb_lt bits d2') Hgt). reflexivity. }
  destruct (Z.eq_dec d2' 0) as [->|Hne'].
  { unfold ratioTest. rewrite (proj2 (Z.leb_le d1' 0)) by lia. cbn [negb].
    destruct (bits <? 0); reflexivity. }
  rewrite ratioTest_rounded by lia. f_equal. apply Z.ltb_lt.
  pose proof (RN_mono 24 128 ltac:(lia) ltac:(lia) ltac:(lia) d1' d1 ltac:(lia)) as Ha.
  pose proof (RN_mono 24 128 ltac:(lia) ltac:(lia) ltac:(lia) d2 d2' ltac:(lia)) as Hc.
  destruct (Z.eq_dec d2 0) as [->|Hne].
  - assert (d1 = 0) by lia. subst d1. assert (d1' = 0) by lia. subst d1'.
    rewrite (RN_0 24) by lia.
    pose proof (RN_binade 24 128 ltac:(lia) ltac:(lia) ltac:(lia) d2' ltac:(lia))
      as [Hlo _].
    pose proof (pow2_pos (Z.log2 d2') (Z.log2_nonneg d2')). lia.
  - rewrite ratioTest_rounded in Hpass by lia.
    injection Hpass as Hpass. apply Z.ltb_lt in Hpass. lia.
Qed.

Lemma ratioTest_monotone_witness : ratioTest 256 5 30 = Ok true.
Proof.
  apply (ratioTest_monotone 256 10 5 20 30); try lia. reflexivity.
Defined.

(** X19: the two ends of the ratio test, for all [unsigned int] distances: a
    closest distance of 0 always passes, and a closest distance equal to a
    non-zero second-closest distance within the descriptor size never
    passes. *)
Theorem ratioTest_extremes bits d :
  0 <= d < 2 ^ 32 ->
  ratioTest bits 0 d = Ok true /\
  (0 < d <= bits -> ratioTest bits d d = Ok false).
Proof.
  intros Hd. split.
  - destruct (Z_lt_le_dec bits d) as [Hgt|Hle].
    { unfold ratioTest. rewrite (proj2 (Z.leb_le 0 d)) by lia. cbn [negb].
      rewrite (proj2 (Z.ltb_lt bits d) Hgt). reflexivity. }
    destruct (Z.eq_dec d 0) as [->|Hne].
    { unfold ratioTest. cbn [Z.leb Z.compare negb]. destruct (bits <? 0); reflexivity. }
    rewrite ratioTest_rounded by lia. f_equal. apply Z.ltb_lt.
    rewrite (RN_0 24) by lia.
    pose proof (RN_binade 24 128 ltac:(lia) ltac:(lia) ltac:(lia) d ltac:(lia))
      as [Hlo _].
    pose proof (pow2_pos (Z.log2 d) (Z.log2_nonneg d)). lia.
  - intros Hb. rewrite ratioTest_rounded by lia. f_equal. apply Z.ltb_ge.
    pose proof (RN_nonneg 24 128 ltac:(lia) ltac:(lia) ltac:(lia) d ltac:(lia)). lia.
Qed.

Lemma ratioTest_extremes_witness :
  ratioTest 256 0 20 = Ok true /\ (0 < 20 <= 256 -> ratioTest 256 20 20 = Ok false).
Proof. apply (ratioTest_extremes 256 20). lia. Defined.
